(** * SSTable components of sstables/sstables.cc: a shallow embedding

    The development follows the source file top-down: the primitive
    codecs and the random-access reader, the Summary component
    (parse / write / prepare / seal / sampling), the Statistics
    component, the table of contents, the writer for the 'mc' format
    with its range-tombstone markers and promoted index, and the
    partition header of the writer for the 'ka' and 'la' formats.
    The definitions come first, sample inputs next, then the
    properties.

    Fixed-width C++ integers are [Z] with the wrap-around written out;
    on-disk data is [list byte]; exceptions are an error monad; a
    failed [assert] is [None] or an error of its own. *)

From Stdlib Require Import ZArith List Lia String Bool.
From coqutil Require Import Byte Word.LittleEndianList.
From stdpp Require Import base list countable gmap sorting.
Import ListNotations.

Local Open Scope Z_scope.

(** ** Machine integers *)

Definition bytes := list byte.

(** Value of a [w]-bit unsigned integer after assignment of [z]. *)
Definition wrap (w : Z) (z : Z) : Z := z mod 2 ^ w.

(** Value of a [w]-bit two's complement integer after assignment of [z]. *)
Definition swrap (w : Z) (z : Z) : Z :=
  (z + 2 ^ (w - 1)) mod 2 ^ w - 2 ^ (w - 1).

Definition uint8_t := wrap 8.
Definition uint16_t := wrap 16.
Definition uint32_t := wrap 32.
Definition uint64_t := wrap 64.
Definition int32_t := swrap 32.
Definition int64_t := swrap 64.

(** [std::numeric_limits<int32_t>::max()] and
    [std::numeric_limits<int64_t>::min()]. *)
Definition int32_max : Z := 2 ^ 31 - 1.
Definition int64_min : Z := - 2 ^ 63.

(** [sizeof(T)] in bytes for the integer types that occur. *)
Definition sizeof_u8 : nat := 1.
Definition sizeof_u16 : nat := 2.
Definition sizeof_u32 : nat := 4.
Definition sizeof_u64 : nat := 8.

(** ** Byte order

    [net::hton] followed by a raw copy writes the most significant byte
    first; [seastar::cpu_to_le] / [read_le] use the least significant
    byte first. *)

Definition be_split (n : nat) (z : Z) : bytes := rev (le_split n z).
Definition be_combine (b : bytes) : Z := le_combine (rev b).

(** Reinterpretation of an unsigned [8n]-bit pattern as signed. *)
Definition to_signed (n : nat) (z : Z) : Z := swrap (Z.of_nat n * 8) z.

(** ** Exceptions *)

Inductive sstable_version_types := ka | la | mc.

Inductive exn :=
| bufsize_mismatch_exception (size expected : nat)
| overflow_error (msg : string)
| runtime_error (msg : string)
| out_of_range (msg : string)
| malformed_sstable_exception (msg : string).

Inductive result (A : Type) :=
| Ok (a : A)
| Throw (e : exn).
Arguments Ok {A} a.
Arguments Throw {A} e.

Definition rbind {A B} (r : result A) (k : A → result B) : result B :=
  match r with
  | Ok a => k a
  | Throw e => Throw e
  end.

(** ** random_access_reader

    The reader (random_access_reader.hh) is used through two
    operations only: [read_exactly n], which returns the next [n] bytes
    or fewer at the end of the file, and [seek]. *)

Record random_access_reader := mk_reader {
  file_data : bytes;
  file_pos : nat
}.

Definition parser (A : Type) := random_access_reader → result (A * random_access_reader).

Definition pret {A} (a : A) : parser A := λ r, Ok (a, r).
Definition pthrow {A} (e : exn) : parser A := λ _, Throw e.
Definition pbind {A B} (p : parser A) (k : A → parser B) : parser B :=
  λ r, match p r with
       | Ok (a, r') => k a r'
       | Throw e => Throw e
       end.

Notation "'let!' x ':=' p 'in' k" := (pbind p (λ x, k))
  (at level 10, x name, p at level 100, k at level 200, only parsing).

Definition read_exactly (n : nat) : parser bytes :=
  λ r, let buf := take n (drop (file_pos r) (file_data r)) in
       Ok (buf, mk_reader (file_data r) (file_pos r + length buf)).

Definition seek (p : nat) : parser unit :=
  λ r, Ok (tt, mk_reader (file_data r) p).

(** [check_buf_size]: anything shorter than what was asked for is an error. *)
Definition check_buf_size (buf : bytes) (expected : nat) : parser unit :=
  if (length buf <? expected)%nat
  then pthrow (bufsize_mismatch_exception (length buf) expected)
  else pret tt.

(** ** Primitive codecs *)

(** [parse(v, in, T& i)] for an unsigned integral [T] of [n] bytes. *)
Definition parse_uint (n : nat) : parser Z :=
  let! buf := read_exactly n in
  let! _ := check_buf_size buf n in
  pret (be_combine (take n buf)).

(** The same for a signed [T]. *)
Definition parse_int (n : nat) : parser Z :=
  let! i := parse_uint n in pret (to_signed n i).

(** [write(v, out, T i)] for an integral [T] of [n] bytes: the bytes
    appended to [out]. *)
Definition write_int (n : nat) (i : Z) : bytes := be_split n i.

(** [check_truncate_and_assign(to, from)] for an unsigned target of
    [n] bytes. *)
Definition check_truncate_and_assign (n : nat) (from : Z) : result Z :=
  let to := wrap (Z.of_nat n * 8) from in
  if to =? from then Ok to
  else Throw (overflow_error "assigning U to T caused an overflow").

(** [parse(v, in, T& len, bytes& s)]. *)
Definition parse_bytes (len : nat) : parser bytes :=
  let! buf := read_exactly len in
  let! _ := check_buf_size buf len in
  pret (take len buf).

(** [parse(v, in, disk_string<Size>& s)] with [Size] of [n] bytes. *)
Definition parse_disk_string (n : nat) : parser bytes :=
  let! len := parse_uint n in
  parse_bytes (Z.to_nat len).

(** [write(v, out, const disk_string<Size>& s)]. *)
Definition write_disk_string (n : nat) (s : bytes) : result bytes :=
  rbind (check_truncate_and_assign n (Z.of_nat (length s)))
        (λ len, Ok (write_int n len ++ s)).

(** [parse(sstable_version_types, in, double& d)]: the bit pattern of
    the double, read as a big-endian 64-bit integer. *)
Definition parse_double : parser Z := parse_uint 8.

(** ** Summary *)

(** [struct summary::header]; its fields, in declaration order, are
    the ones [parse] and [write] list. *)
Record summary_header := mk_summary_header {
  min_index_interval : Z;    (* uint32_t *)
  size : Z;                  (* uint32_t *)
  memory_size : Z;           (* uint64_t *)
  sampling_level : Z;        (* uint32_t *)
  size_at_full_sampling : Z  (* uint32_t *)
}.

(** [sizeof(summary::header)]: 4 + 4 + 8 + 4 + 4 with no padding. *)
Definition sizeof_summary_header : nat := 24.

(** A summary entry: the token data, the key and the position in the
    index file.  The token is always of kind [key]. *)
Record summary_entry := mk_summary_entry {
  token : bytes;
  key : bytes;
  position : Z  (* uint64_t *)
}.

Record summary := mk_summary {
  header : summary_header;
  positions : list Z;  (* chunked_vector<uint32_t> *)
  entries : list summary_entry;
  first_key : bytes;
  last_key : bytes
}.

(** A default-constructed [summary]. *)
Definition summary_default : summary :=
  mk_summary (mk_summary_header 0 0 0 0 0) [] [] [] [].

Definition set_header (s : summary) (h : summary_header) : summary :=
  mk_summary h (positions s) (entries s) (first_key s) (last_key s).
Definition set_positions (s : summary) (p : list Z) : summary :=
  mk_summary (header s) p (entries s) (first_key s) (last_key s).
Definition set_entries (s : summary) (e : list summary_entry) : summary :=
  mk_summary (header s) (positions s) e (first_key s) (last_key s).
Definition set_keys (s : summary) (f l : bytes) : summary :=
  mk_summary (header s) (positions s) (entries s) f l.

(** [struct index_sampling_state]. *)
Record index_sampling_state := mk_index_sampling_state {
  next_data_offset_to_write_summary : Z;  (* uint64_t *)
  partition_count : Z;                    (* uint64_t *)
  summary_byte_cost : Z                   (* size_t *)
}.

Section Summary.

(** The partitioner and the sampling arithmetic are collaborators that
    live outside sstables.cc: the token data of
    [dht::global_partitioner().get_token(key)],
    [sstable::get_size_at_full_sampling] and
    [downsampling::BASE_SAMPLING_LEVEL]. *)
Variable get_token : bytes → bytes.
Variable get_size_at_full_sampling : Z → Z → Z.
Variable BASE_SAMPLING_LEVEL : Z.

(** *** parse(v, in, summary&) *)

Definition parse_summary_header : parser summary_header :=
  let! a := parse_uint 4 in
  let! b := parse_uint 4 in
  let! c := parse_uint 8 in
  let! d := parse_uint 4 in
  let! e := parse_uint 4 in
  pret (mk_summary_header a b c d e).

(** The first [do_until] loop: [header.size] little-endian reads of a
    [pos_type], advancing the cursor [b] by [sizeof(pos_type)]. *)
Fixpoint read_positions (n : nat) (b : bytes) : list Z :=
  match n with
  | O => []
  | S n' => le_combine (take sizeof_u32 b) :: read_positions n' (drop sizeof_u32 b)
  end.

(** Positions as they stand after the loop and the [push_back] of
    [header.memory_size] into the vector of [uint32_t]. *)
Definition parse_summary_positions (h : summary_header) : parser (list Z) :=
  let len := (Z.to_nat (size h) * sizeof_u32)%nat in
  let! buf := read_exactly len in
  let! _ := check_buf_size buf len in
  pret (read_positions (Z.to_nat (size h)) buf ++ [uint32_t (memory_size h)]).

(** The second [do_until] loop, run [header.size] times from an empty
    [entries]; [idx] is the loop's counter.  The source takes
    [keysize = entrysize - 8] bytes of the buffer as the key without
    checking [entrysize >= 8]. *)
Fixpoint parse_summary_entries (n : nat) (ps : list Z) (idx : nat)
  : parser (list summary_entry) :=
  match n with
  | O => pret []
  | S n' =>
      let pos := nth idx ps 0 in
      let next := nth (S idx) ps 0 in
      let entrysize := uint32_t (next - pos) in
      let! buf := read_exactly (Z.to_nat entrysize) in
      let! _ := check_buf_size buf (Z.to_nat entrysize) in
      let keysize := uint32_t (entrysize - 8) in
      let key_data := take (Z.to_nat keysize) buf in
      let position := le_combine (take sizeof_u64 (drop (Z.to_nat keysize) buf)) in
      let e := mk_summary_entry (get_token key_data) key_data position in
      let! es := parse_summary_entries n' ps (S idx) in
      pret (e :: es)
  end.

(** Everything up to, and excluding, the final [pop_back]: the
    positions still carry the boundary. *)
Definition parse_summary_load (v : sstable_version_types) : parser summary :=
  let! h := parse_summary_header in
  let! ps := parse_summary_positions h in
  let! _ := seek (Z.to_nat (uint64_t (Z.of_nat sizeof_summary_header + memory_size h))) in
  let! fk := parse_disk_string 4 in
  let! lk := parse_disk_string 4 in
  let! _ := seek (Z.to_nat (nth 0 ps 0 + Z.of_nat sizeof_summary_header)) in
  let! es := parse_summary_entries (Z.to_nat (size h)) ps 0 in
  pret (mk_summary h ps es fk lk).

(** [parse(v, in, summary& s)] into a default-constructed [s]. *)
Definition parse_summary (v : sstable_version_types) : parser summary :=
  let! s := parse_summary_load v in
  pret (set_positions s (removelast (positions s))).

(** *** write(v, out, const summary&) *)

Definition write_summary_entry (v : sstable_version_types) (e : summary_entry) : bytes :=
  key e ++ le_split sizeof_u64 (position e).

Definition write_summary_header (h : summary_header) : bytes :=
  write_int 4 (min_index_interval h) ++ write_int 4 (size h) ++
  write_int 8 (memory_size h) ++ write_int 4 (sampling_level h) ++
  write_int 4 (size_at_full_sampling h).

Definition write_summary (v : sstable_version_types) (s : summary) : result bytes :=
  let hdr := write_summary_header (header s) in
  let pos := concat (map (le_split sizeof_u32) (positions s)) in
  let ents := concat (map (write_summary_entry v) (entries s)) in
  rbind (write_disk_string 4 (first_key s)) (λ fk,
  rbind (write_disk_string 4 (last_key s)) (λ lk,
  Ok (hdr ++ pos ++ ents ++ fk ++ lk))).

(** *** prepare_summary

    [None] stands for the failed [assert]; the exception's message is
    given without the sampling level that the source splices in.  A
    [min_index_interval] of zero, on which the source divides, is
    outside the model. *)
Definition prepare_summary (s : summary) (expected_partition_count : Z)
    (min_index_interval' : Z) : option (result summary) :=
  if expected_partition_count <? 1 then None
  else
    let max_expected_entries :=
      uint64_t (expected_partition_count / min_index_interval' +
                (if expected_partition_count mod min_index_interval' =? 0 then 0 else 1)) in
    if max_expected_entries >? 2 ^ 32 - 1
    then Some (Throw (malformed_sstable_exception
                 "Current sampling level not enough to generate summary."))
    else Some (Ok (set_header s
           (mk_summary_header min_index_interval' (size (header s)) 0
              BASE_SAMPLING_LEVEL (size_at_full_sampling (header s))))).

(** *** seal_summary *)

(** The loop over [s.entries]: push the running [memory_size] (as a
    [uint32_t]) and add the entry's size to it. *)
Fixpoint seal_positions (es : list summary_entry) (ps : list Z) (msize : Z)
  : list Z * Z :=
  match es with
  | [] => (ps, msize)
  | e :: es' =>
      seal_positions es' (ps ++ [uint32_t msize])
        (uint64_t (msize + (Z.of_nat (length (key e)) + Z.of_nat sizeof_u64)))
  end.

(** [None] stands for the failed [assert(first_key)]. *)
Definition seal_summary (s : summary) (first_key' last_key' : option bytes)
    (state : index_sampling_state) : option summary :=
  let size' := uint32_t (Z.of_nat (length (entries s))) in
  let safs := uint32_t (get_size_at_full_sampling (partition_count state)
                          (min_index_interval (header s))) in
  let '(ps, msize) :=
    seal_positions (entries s) (positions s) (uint64_t (size' * Z.of_nat sizeof_u32)) in
  match first_key' with
  | None => None
  | Some fk =>
      Some (mk_summary
              (mk_summary_header (min_index_interval (header s)) size' msize
                 (sampling_level (header s)) safs)
              ps (entries s) fk
              (match last_key' with Some lk => lk | None => fk end))
  end.

(** *** components_writer::maybe_add_summary_entry *)

Definition maybe_add_summary_entry (s : summary) (token' key' : bytes)
    (data_offset index_offset : Z) (state : index_sampling_state)
  : summary * index_sampling_state :=
  let count := uint64_t (partition_count state + 1) in
  if data_offset >=? next_data_offset_to_write_summary state then
    let entry_size := 8 + 2 + Z.of_nat (length key') in
    let next := uint64_t (next_data_offset_to_write_summary state +
                          uint64_t (summary_byte_cost state * entry_size)) in
    (set_entries s (entries s ++ [mk_summary_entry token' key' index_offset]),
     mk_index_sampling_state next count (summary_byte_cost state))
  else
    (s, mk_index_sampling_state (next_data_offset_to_write_summary state) count
          (summary_byte_cost state)).

(** *** The summary along a write

    What the writers do to the summary: [consume_new_partition] offers
    the partition to [maybe_add_summary_entry] with the current data
    and index offsets, [consume_end_of_partition] records the first and
    last keys, and [consume_end_of_stream] seals. *)

Record partition_start := mk_partition_start {
  ps_token : bytes;
  ps_key : bytes;
  ps_data_offset : Z;   (* get_data_offset() *)
  ps_index_offset : Z   (* _index_writer->offset() *)
}.

Record summary_writer := mk_summary_writer {
  sw_summary : summary;
  sw_state : index_sampling_state;
  sw_first_key : option bytes;
  sw_last_key : option bytes
}.

(** The index entry a partition start stands for, as a summary entry. *)
Definition index_entry_of (p : partition_start) : summary_entry :=
  mk_summary_entry (ps_token p) (ps_key p) (ps_index_offset p).

Definition consume_partition (w : summary_writer) (p : partition_start) : summary_writer :=
  let '(s, st) := maybe_add_summary_entry (sw_summary w) (ps_token p) (ps_key p)
                    (ps_data_offset p) (ps_index_offset p) (sw_state w) in
  mk_summary_writer s st
    (match sw_first_key w with None => Some (ps_key p) | Some k => Some k end)
    (Some (ps_key p)).

(** A writer right after construction: [s0] is the summary that
    [prepare_summary] has been applied to, the sampling state is fresh
    but for the configured byte cost, and no key has been seen. *)
Definition summary_writer_init (s0 : summary) (cost : Z) : summary_writer :=
  mk_summary_writer s0 (mk_index_sampling_state 0 0 cost) None None.

Definition consume_partitions (s0 : summary) (cost : Z) (ps : list partition_start)
  : summary_writer :=
  fold_left consume_partition ps (summary_writer_init s0 cost).

Definition sealed_summary (s0 : summary) (cost : Z) (ps : list partition_start)
  : option summary :=
  let w := consume_partitions s0 cost ps in
  seal_summary (sw_summary w) (sw_first_key w) (sw_last_key w) (sw_state w).

End Summary.


(** *** The layout of a summary

    The size of an entry as [write] emits it (the key bytes and the
    64-bit position), the size of a run of entries, and the offsets at
    which successive entries start when the first one starts at
    [base]. *)

Definition entry_size (e : summary_entry) : Z :=
  Z.of_nat (length (key e)) + 8.

Fixpoint entries_size (es : list summary_entry) : Z :=
  match es with
  | [] => 0
  | e :: es' => entry_size e + entries_size es'
  end.

Fixpoint entry_offsets (base : Z) (es : list summary_entry) : list Z :=
  match es with
  | [] => []
  | e :: es' => base :: entry_offsets (base + entry_size e) es'
  end.

(** A well-formed summary: what [seal_summary] leaves behind for a
    summary that fits the 32-bit positions, with the tokens the
    partitioner assigns to the keys and every field within its type. *)
Record summary_wf (get_token : bytes → bytes) (s : summary) : Prop := {
  wf_min_index_interval : 0 ≤ min_index_interval (header s) < 2 ^ 32;
  wf_sampling_level : 0 ≤ sampling_level (header s) < 2 ^ 32;
  wf_size_at_full_sampling : 0 ≤ size_at_full_sampling (header s) < 2 ^ 32;
  wf_size : size (header s) = Z.of_nat (length (entries s));
  wf_memory_size :
    memory_size (header s)
    = 4 * Z.of_nat (length (entries s)) + entries_size (entries s);
  wf_memory_bound : memory_size (header s) < 2 ^ 32;
  wf_positions :
    positions s = entry_offsets (4 * Z.of_nat (length (entries s))) (entries s);
  wf_tokens : Forall (λ e, token e = get_token (key e)) (entries s);
  wf_entry_positions : Forall (λ e, 0 ≤ position e < 2 ^ 64) (entries s);
  wf_first_key : Z.of_nat (length (first_key s)) < 2 ^ 32;
  wf_last_key : Z.of_nat (length (last_key s)) < 2 ^ 32
}.

(** Running a parser on a whole file, from its first byte. *)
Definition run_parser {A} (p : parser A) (data : bytes) : result A :=
  match p (mk_reader data 0) with
  | Ok (a, _) => Ok a
  | Throw e => Throw e
  end.

(** The bytes [maybe_add_summary_entry] charges for the entries of a
    summary: [8 + 2 + key.size()] each. *)
Definition sampled_bytes (es : list summary_entry) : Z :=
  fold_right (λ e acc, 8 + 2 + Z.of_nat (length (key e)) + acc) 0 es.

(** [at_pos data p x]: the file [data] holds [x] at offset [p]. *)
Definition at_pos (data : bytes) (p : nat) (x : bytes) : Prop :=
  take (length x) (drop p data) = x.

(** The threshold is the cost of the bytes sampled so far. *)
Definition threshold_inv (cost : Z) (w : summary_writer) : Prop :=
  summary_byte_cost (sw_state w) = cost ∧
  next_data_offset_to_write_summary (sw_state w)
  = uint64_t (cost * sampled_bytes (entries (sw_summary w))).

(** ** Statistics *)

(** [enum class metadata_type : uint32_t]; a tag read from disk can be
    any 32-bit value. *)
Definition metadata_type := Z.
Definition Validation : metadata_type := 0.
Definition Compaction : metadata_type := 1.
Definition Stats : metadata_type := 2.
Definition Serialization : metadata_type := 3.

(** Modelled from the spec: [validation_metadata] is declared outside
    sstables.cc; the spec gives its two fields, the partitioner name
    and the false-positive chance (a double, kept as its bit pattern). *)
Record validation_metadata := mk_validation_metadata {
  partitioner : bytes;
  filter_chance : Z
}.

Definition parse_validation_metadata (v : sstable_version_types)
  : parser validation_metadata :=
  let! p := parse_disk_string 2 in
  let! f := parse_double in
  pret (mk_validation_metadata p f).

Section Statistics.

(** The other three metadata kinds are described outside sstables.cc:
    their types and parsers are parameters. *)
Context {compaction_metadata stats_metadata serialization_header : Type}.
Variable parse_compaction_metadata : sstable_version_types → parser compaction_metadata.
Variable parse_stats_metadata : sstable_version_types → parser stats_metadata.
Variable parse_serialization_header : sstable_version_types → parser serialization_header.

(** What [std::unique_ptr<metadata>] points to. *)
Inductive metadata :=
| metadata_validation (m : validation_metadata)
| metadata_compaction (m : compaction_metadata)
| metadata_stats (m : stats_metadata)
| metadata_serialization (m : serialization_header).

Record statistics := mk_statistics {
  offsets : list (metadata_type * Z);   (* disk_array<uint32_t, pair<metadata_type, uint32_t>> *)
  contents : gmap Z metadata
}.

(** [parse(v, in, len, chunked_vector<Members>&)] for the pairs of the
    offsets table: [len] times a tag and an offset. *)
Fixpoint parse_offset_pairs (n : nat) : parser (list (metadata_type * Z)) :=
  match n with
  | O => pret []
  | S n' =>
      let! tag := parse_uint 4 in
      let! off := parse_uint 4 in
      let! rest := parse_offset_pairs n' in
      pret ((tag, off) :: rest)
  end.

(** [parse(v, in, s.offsets)]. *)
Definition parse_offsets (v : sstable_version_types)
  : parser (list (metadata_type * Z)) :=
  let! len := parse_uint 4 in
  parse_offset_pairs (Z.to_nat len).

(** The comparison handed to [boost::sort]: [e1.first < e2.first].
    Sorting is modelled by a merge sort for the reflexive order; where
    tags repeat, the C++ sort leaves their relative order open. *)
Definition tag_le (e1 e2 : metadata_type * Z) : Prop := e1.1 ≤ e2.1.

#[local] Instance tag_le_dec : RelDecision tag_le.
Proof. intros e1 e2. unfold tag_le. apply Z_le_dec. Defined.

Definition sort_offsets (l : list (metadata_type * Z)) : list (metadata_type * Z) :=
  merge_sort tag_le l.

Definition serialization_header_error : exn :=
  runtime_error
    "Statistics is malformed: SSTable is in 2.x format but contains serialization header.".

Definition is_mc (v : sstable_version_types) : bool :=
  match v with mc => true | _ => false end.

(** The body of the [do_for_each] lambda for one entry of the table. *)
Definition parse_statistics_entry (v : sstable_version_types)
    (val : metadata_type * Z) (c : gmap Z metadata) : parser (gmap Z metadata) :=
  let! _ := seek (Z.to_nat val.2) in
  if val.1 =? Validation then
    let! m := parse_validation_metadata v in
    pret (<[val.1 := metadata_validation m]> c)
  else if val.1 =? Compaction then
    let! m := parse_compaction_metadata v in
    pret (<[val.1 := metadata_compaction m]> c)
  else if val.1 =? Stats then
    let! m := parse_stats_metadata v in
    pret (<[val.1 := metadata_stats m]> c)
  else if val.1 =? Serialization then
    if is_mc v then
      let! m := parse_serialization_header v in
      pret (<[val.1 := metadata_serialization m]> c)
    else pthrow serialization_header_error
  else pret c.

Fixpoint parse_statistics_entries (v : sstable_version_types)
    (elements : list (metadata_type * Z)) (c : gmap Z metadata)
  : parser (gmap Z metadata) :=
  match elements with
  | [] => pret c
  | val :: rest =>
      let! c' := parse_statistics_entry v val c in
      parse_statistics_entries v rest c'
  end.

(** [parse(v, in, statistics& s)] into a default-constructed [s]. *)
Definition parse_statistics (v : sstable_version_types) : parser statistics :=
  let! table := parse_offsets v in
  let elements := sort_offsets table in
  let! c := parse_statistics_entries v elements ∅ in
  pret (mk_statistics elements c).

End Statistics.

(** ** Table of contents *)

(** [enum class component_type]. *)
Inductive component_type :=
| Index | CompressionInfo | Data | TOC | Summary | Digest | CRC | Filter
| Statistics | TemporaryTOC | TemporaryStatistics | Scylla | Unknown.

#[global] Instance component_type_eq_dec : EqDecision component_type.
Proof. solve_decision. Defined.

Definition component_type_code (c : component_type) : nat :=
  match c with
  | Index => 0 | CompressionInfo => 1 | Data => 2 | TOC => 3 | Summary => 4
  | Digest => 5 | CRC => 6 | Filter => 7 | Statistics => 8 | TemporaryTOC => 9
  | TemporaryStatistics => 10 | Scylla => 11 | Unknown => 12
  end%nat.

Definition component_type_of_code (n : nat) : option component_type :=
  match n with
  | 0 => Some Index | 1 => Some CompressionInfo | 2 => Some Data | 3 => Some TOC
  | 4 => Some Summary | 5 => Some Digest | 6 => Some CRC | 7 => Some Filter
  | 8 => Some Statistics | 9 => Some TemporaryTOC | 10 => Some TemporaryStatistics
  | 11 => Some Scylla | 12 => Some Unknown | _ => None
  end%nat.

#[global] Program Instance component_type_countable : Countable component_type :=
  inj_countable component_type_code component_type_of_code _.
Next Obligation. intros []; reflexivity. Qed.

(** The bit pattern of the double [1.0]. *)
Definition double_one : Z := 0x3FF0000000000000.

(** [sstable::generate_toc(c, filter_fp_chance)] acting on
    [_recognized_components]; [c] is [None] for a null compressor
    pointer, and the chance is a double kept as its bit pattern (of
    the values that compare equal to [1.0] only [1.0] itself occurs). *)
Definition generate_toc {compressor : Type} (c : option compressor)
    (filter_fp_chance : Z) (recognized : gset component_type) : gset component_type :=
  let r := recognized ∪ {[TOC]} ∪ {[Statistics]} ∪ {[Digest]} ∪ {[Index]}
             ∪ {[Summary]} ∪ {[Data]} in
  let r := if filter_fp_chance =? double_one then r else r ∪ {[Filter]} in
  let r := match c with
           | None => r ∪ {[CRC]}
           | Some _ => r ∪ {[CompressionInfo]}
           end in
  r ∪ {[Scylla]}.

(** [sstable::has_component]. *)
Definition has_component (recognized : gset component_type) (f : component_type) : bool :=
  bool_decide (f ∈ recognized).

(** The components of an sstable object that has just been made for
    writing: none yet. *)
Definition fresh_components : gset component_type := ∅.

(** The first steps of both writers' constructors: generate the TOC on
    the sstable handed in and derive [_compression_enabled]. *)
Definition writer_toc {compressor : Type} (c : option compressor)
    (filter_fp_chance : Z) : gset component_type * bool :=
  let r := generate_toc c filter_fp_chance fresh_components in
  (r, negb (has_component r CRC)).

(** ** Tombstones and deletion times *)

(** [struct deletion_time], parsed and written as a 32-bit
    [local_deletion_time] followed by a 64-bit [marked_for_delete_at]. *)
Record deletion_time := mk_deletion_time {
  local_deletion_time : Z;    (* int32_t *)
  marked_for_delete_at : Z    (* int64_t *)
}.

Definition parse_deletion_time (v : sstable_version_types) : parser deletion_time :=
  let! l := parse_int 4 in
  let! m := parse_int 8 in
  pret (mk_deletion_time l m).

Definition write_deletion_time (d : deletion_time) : bytes :=
  write_int 4 (local_deletion_time d) ++ write_int 8 (marked_for_delete_at d).

(** The live sentinel: the values written for live, undeleted data. *)
Definition live_deletion_time : deletion_time :=
  mk_deletion_time int32_max int64_min.

(** Modelled from the spec: [tombstone] is declared outside
    sstables.cc.  The spec describes it as the pair of a timestamp and
    a local deletion time; an empty tombstone, the default-constructed
    one, carries the missing timestamp, and the conversion to [bool]
    tests for it. *)
Record tombstone := mk_tombstone {
  timestamp : Z;           (* api::timestamp_type, int64_t *)
  tomb_deletion_time : Z   (* deletion_time.time_since_epoch().count() *)
}.

#[global] Instance tombstone_eq_dec : EqDecision tombstone.
Proof. solve_decision. Defined.

Definition missing_timestamp : Z := int64_min.
Definition tombstone_empty : tombstone := mk_tombstone missing_timestamp 0.
Definition tombstone_bool (t : tombstone) : bool :=
  negb (timestamp t =? missing_timestamp).

(** [to_deletion_time(tombstone t)]. *)
Definition to_deletion_time (t : tombstone) : deletion_time :=
  if tombstone_bool t
  then mk_deletion_time (int32_t (tomb_deletion_time t)) (timestamp t)
  else mk_deletion_time int32_max int64_min.

(** ** Bound kinds *)

Module bound_kind.

Inductive t := excl_end | incl_start | incl_end | excl_start.

#[global] Instance eq_dec : EqDecision t.
Proof. solve_decision. Defined.

End bound_kind.

Module bound_kind_m.

Inductive t :=
| excl_end | incl_start | excl_end_incl_start | static_clustering
| clustering | incl_end_excl_start | incl_end | excl_start.

#[global] Instance eq_dec : EqDecision t.
Proof. solve_decision. Defined.

End bound_kind_m.

(** Modelled from the spec: [to_bound_kind_m] and [to_bound_kind] are
    declared outside sstables.cc; they carry a bound kind to the marker
    kind of the same name and back.  [to_bound_kind] is only applied to
    the kinds of bounds. *)
Definition to_bound_kind_m (k : bound_kind.t) : bound_kind_m.t :=
  match k with
  | bound_kind.excl_end => bound_kind_m.excl_end
  | bound_kind.incl_start => bound_kind_m.incl_start
  | bound_kind.incl_end => bound_kind_m.incl_end
  | bound_kind.excl_start => bound_kind_m.excl_start
  end.

Definition to_bound_kind (k : bound_kind_m.t) : bound_kind.t :=
  match k with
  | bound_kind_m.excl_end => bound_kind.excl_end
  | bound_kind_m.incl_start => bound_kind.incl_start
  | bound_kind_m.incl_end => bound_kind.incl_end
  | _ => bound_kind.excl_start
  end.

(** [row_flags] and [row_extended_flags], as far as they are used here. *)
Definition row_flags_end_of_partition : Z := 0x01.
Definition row_flags_is_marker : Z := 0x02.

(** ** The writer for the 'mc' format *)

(** Clustering keys, rows and positions belong to the schema and the
    mutation model; the writer compares positions through the schema's
    comparators and serialises cells through encoders declared
    elsewhere.  The encoders are [write_vint], [write_signed_vint],
    [unsigned_vint::serialized_size], [write_delta_deletion_time]
    (with the writer's encoding stats), the static function
    [write_clustering_prefix(writer, kind, s, clustering)], and the
    bytes that [write_static_row] and [write_clustered] emit for a
    row. *)
Class writer_env := mk_writer_env {
  clustering_key_prefix : Type;
  row : Type;
  clustering_row : Type;
  position_in_partition : Type;
  position_less : position_in_partition → position_in_partition → bool;
  position_eq : position_in_partition → position_in_partition → bool;
  bound_position : clustering_key_prefix → bound_kind.t → position_in_partition;
  after_key : clustering_key_prefix → position_in_partition;
  cr_key : clustering_row → clustering_key_prefix;
  empty_row : row;   (* static_row{}.cells() *)
  write_vint : Z → bytes;
  write_signed_vint : Z → bytes;
  unsigned_vint_serialized_size : Z → Z;
  write_delta_deletion_time : deletion_time → bytes;
  write_clustering_prefix : bound_kind_m.t → clustering_key_prefix → bytes;
  static_row_bytes : row → bytes;
  clustering_row_bytes : clustering_row → Z → bytes
}.

Section WriterM.

Context `{env : writer_env}.

(** The two facts about the schema that the writer consults. *)
Record schema := mk_schema {
  static_columns_count : nat;
  is_compound : bool
}.

Record range_tombstone := mk_range_tombstone {
  rt_start : clustering_key_prefix;
  rt_start_kind : bound_kind.t;
  rt_end : clustering_key_prefix;
  rt_end_kind : bound_kind.t;
  rt_tomb : tombstone
}.

(** [struct rt_marker]. *)
Record rt_marker := mk_rt_marker {
  clustering : clustering_key_prefix;
  kind : bound_kind_m.t;
  tomb : tombstone;
  boundary_tomb : option tombstone
}.

(** [rt_marker::position()] and [range_tombstone::position()]. *)
Definition rt_marker_position (m : rt_marker) : position_in_partition :=
  bound_position (clustering m) (to_bound_kind (kind m)).
Definition range_tombstone_position (rt : range_tombstone) : position_in_partition :=
  bound_position (rt_start rt) (rt_start_kind rt).

Record clustering_info := mk_clustering_info {
  ci_clustering : clustering_key_prefix;
  ci_kind : bound_kind_m.t
}.

Record pi_block := mk_pi_block {
  pb_first : clustering_info;
  pb_last : clustering_info;
  pb_offset : Z;   (* uint64_t *)
  pb_width : Z;    (* uint64_t *)
  pb_open_marker : option tombstone
}.

(** What the writer puts into the data file, record by record. *)
Inductive data_record :=
| rec_partition_key (k : bytes)
| rec_deletion_time (d : deletion_time)
| rec_static_row (r : row)
| rec_clustering_row (cr : clustering_row) (prev_row_size : Z)
| rec_rt_marker (m : rt_marker) (prev_row_size : Z)
| rec_end_of_partition.

(** [write_clustered(const rt_marker&, prev_row_size)]. *)
Definition write_marker_body (m : rt_marker) : bytes :=
  write_delta_deletion_time (to_deletion_time (tomb m)) ++
  match boundary_tomb m with
  | Some b => write_delta_deletion_time (to_deletion_time b)
  | None => []
  end.

Definition rt_marker_bytes (m : rt_marker) (prev_row_size : Z) : bytes :=
  let marker_body_size :=
    uint64_t (Z.of_nat (length (write_marker_body m))
              + unsigned_vint_serialized_size prev_row_size) in
  write_int 1 row_flags_is_marker ++
  write_clustering_prefix (kind m) (clustering m) ++
  write_vint marker_body_size ++
  write_vint prev_row_size ++
  write_marker_body m.

(** The bytes of a record. *)
Definition encode_record (r : data_record) : bytes :=
  match r with
  | rec_partition_key k => write_int 2 (Z.of_nat (length k)) ++ k
  | rec_deletion_time d => write_deletion_time d
  | rec_static_row r => static_row_bytes r
  | rec_clustering_row cr p => clustering_row_bytes cr p
  | rec_rt_marker m p => rt_marker_bytes m p
  | rec_end_of_partition => write_int 1 row_flags_end_of_partition
  end.

Definition data_bytes (d : list data_record) : bytes :=
  concat (map encode_record d).

(** The state of [sstable_writer_m] that decides the data and index
    files.  The data file is kept as the records written so far;
    [_data_writer->offset()] is the length of their bytes. *)
Record writer_m := mk_writer_m {
  _data : list data_record;
  _index : bytes;
  _tombstone_written : bool;
  _static_row_written : bool;
  _partition_header_length : Z;
  _prev_row_start : Z;
  _partition_key : option bytes;
  _end_open_marker : option rt_marker;
  _start_offset : Z;                     (* _c_stats.start_offset *)
  _promoted_index : list pi_block;       (* _pi_write_m.promoted_index *)
  _pi_tomb : tombstone;                  (* _pi_write_m.tomb *)
  _block_start_offset : Z;
  _block_next_start_offset : Z;
  _first_clustering : option clustering_info;
  _last_clustering : option clustering_info;
  _desired_block_size : Z
}.

Definition data_offset (w : writer_m) : Z :=
  Z.of_nat (length (data_bytes (_data w))).

Definition write_data (r : data_record) (w : writer_m) : writer_m :=
  mk_writer_m (_data w ++ [r]) (_index w) (_tombstone_written w)
    (_static_row_written w) (_partition_header_length w) (_prev_row_start w)
    (_partition_key w) (_end_open_marker w) (_start_offset w)
    (_promoted_index w) (_pi_tomb w) (_block_start_offset w)
    (_block_next_start_offset w) (_first_clustering w) (_last_clustering w)
    (_desired_block_size w).

Definition write_index (b : bytes) (w : writer_m) : writer_m :=
  mk_writer_m (_data w) (_index w ++ b) (_tombstone_written w)
    (_static_row_written w) (_partition_header_length w) (_prev_row_start w)
    (_partition_key w) (_end_open_marker w) (_start_offset w)
    (_promoted_index w) (_pi_tomb w) (_block_start_offset w)
    (_block_next_start_offset w) (_first_clustering w) (_last_clustering w)
    (_desired_block_size w).

Definition set_end_open_marker (m : option rt_marker) (w : writer_m) : writer_m :=
  mk_writer_m (_data w) (_index w) (_tombstone_written w)
    (_static_row_written w) (_partition_header_length w) (_prev_row_start w)
    (_partition_key w) m (_start_offset w)
    (_promoted_index w) (_pi_tomb w) (_block_start_offset w)
    (_block_next_start_offset w) (_first_clustering w) (_last_clustering w)
    (_desired_block_size w).

(** [maybe_set_pi_first_clustering]. *)
Definition maybe_set_pi_first_clustering (info : clustering_info) (w : writer_m)
  : writer_m :=
  let pos := data_offset w in
  match _first_clustering w with
  | Some _ => w
  | None =>
      mk_writer_m (_data w) (_index w) (_tombstone_written w)
        (_static_row_written w) (_partition_header_length w) (_prev_row_start w)
        (_partition_key w) (_end_open_marker w) (_start_offset w)
        (_promoted_index w) (_pi_tomb w) pos
        (uint64_t (pos + _desired_block_size w)) (Some info) (_last_clustering w)
        (_desired_block_size w)
  end.

(** [add_pi_block]; the source dereferences the two optionals, which
    are engaged whenever it is called. *)
Definition add_pi_block (w : writer_m) : writer_m :=
  match _first_clustering w, _last_clustering w with
  | Some f, Some l =>
      let b := mk_pi_block f l
                 (uint64_t (_block_start_offset w - _start_offset w))
                 (uint64_t (data_offset w - _block_start_offset w))
                 (match _end_open_marker w with
                  | Some m => Some (tomb m)
                  | None => None
                  end) in
      mk_writer_m (_data w) (_index w) (_tombstone_written w)
        (_static_row_written w) (_partition_header_length w) (_prev_row_start w)
        (_partition_key w) (_end_open_marker w) (_start_offset w)
        (_promoted_index w ++ [b]) (_pi_tomb w) (_block_start_offset w)
        (_block_next_start_offset w) (_first_clustering w) (_last_clustering w)
        (_desired_block_size w)
  | _, _ => w
  end.

(** [maybe_add_pi_block]. *)
Definition maybe_add_pi_block (w : writer_m) : writer_m :=
  let pos := data_offset w in
  if pos >=? _block_next_start_offset w then
    let w := add_pi_block w in
    mk_writer_m (_data w) (_index w) (_tombstone_written w)
      (_static_row_written w) (_partition_header_length w) (_prev_row_start w)
      (_partition_key w) (_end_open_marker w) (_start_offset w)
      (_promoted_index w) (_pi_tomb w) (_block_start_offset w)
      (uint64_t (pos + _desired_block_size w)) None (_last_clustering w)
      (_desired_block_size w)
  else w.

(** The template [write_clustered(const T& clustered)]: [rec] is the
    record the inner [write_clustered(clustered, prev_row_size)]
    writes. *)
Definition write_clustered (info : clustering_info) (rec : Z → data_record)
    (w : writer_m) : writer_m :=
  let w := maybe_set_pi_first_clustering info w in
  let pos := data_offset w in
  let w := write_data (rec (uint64_t (pos - _prev_row_start w))) w in
  let w :=
    mk_writer_m (_data w) (_index w) (_tombstone_written w)
      (_static_row_written w) (_partition_header_length w) pos
      (_partition_key w) (_end_open_marker w) (_start_offset w)
      (_promoted_index w) (_pi_tomb w) (_block_start_offset w)
      (_block_next_start_offset w) (_first_clustering w) (Some info)
      (_desired_block_size w) in
  maybe_add_pi_block w.

(** [consume(rt_marker&&)]. *)
Definition consume_rt_marker (m : rt_marker) (w : writer_m) : writer_m :=
  write_clustered (mk_clustering_info (clustering m) (kind m)) (rec_rt_marker m) w.

(** [consume_new_partition(dk)]: the key has already been turned into
    bytes.  The summary, the filter and the metadata collector are not
    part of this state. *)
Definition consume_new_partition (key' : bytes) (w : writer_m) : result writer_m :=
  let off := data_offset w in
  rbind (check_truncate_and_assign 2 (Z.of_nat (length key'))) (λ len,
  let index' := _index w ++ (write_int 2 len ++ key') ++ write_vint off in
  let data' := _data w ++ [rec_partition_key key'] in
  Ok (mk_writer_m data' index' false false
        (uint64_t (Z.of_nat (length (data_bytes data')) - off)) off
        (Some key') (_end_open_marker w) off
        [] tombstone_empty (_block_start_offset w)
        (_block_next_start_offset w) None None (_desired_block_size w))).

(** [consume(tombstone t)]. *)
Definition consume_tombstone (t : tombstone) (w : writer_m) : writer_m :=
  let current_pos := data_offset w in
  let w1 := write_data (rec_deletion_time (to_deletion_time t)) w in
  mk_writer_m (_data w1) (_index w1) true
    (_static_row_written w1)
    (uint64_t (_partition_header_length w1 + uint64_t (data_offset w1 - current_pos)))
    (_prev_row_start w1)
    (_partition_key w1) (_end_open_marker w1) (_start_offset w1)
    (_promoted_index w1) t (_block_start_offset w1)
    (_block_next_start_offset w1) (_first_clustering w1) (_last_clustering w1)
    (_desired_block_size w1).

(** [ensure_tombstone_is_written]. *)
Definition ensure_tombstone_is_written (w : writer_m) : writer_m :=
  if _tombstone_written w then w else consume_tombstone tombstone_empty w.

Definition assertion_failed : exn := runtime_error "assertion failed".

(** [write_static_row]; a failed [assert] ends the write. *)
Definition write_static_row (s : schema) (static_row : row) (w : writer_m)
  : result writer_m :=
  if is_compound s then
    let current_pos := data_offset w in
    let w1 := write_data (rec_static_row static_row) w in
    Ok (mk_writer_m (_data w1) (_index w1) (_tombstone_written w1)
          (_static_row_written w1)
          (uint64_t (_partition_header_length w1
                     + uint64_t (data_offset w1 - current_pos)))
          (_prev_row_start w1)
          (_partition_key w1) (_end_open_marker w1) (_start_offset w1)
          (_promoted_index w1) (_pi_tomb w1) (_block_start_offset w1)
          (_block_next_start_offset w1) (_first_clustering w1) (_last_clustering w1)
          (_desired_block_size w1))
  else Throw assertion_failed.

(** [consume(static_row&& sr)]. *)
Definition consume_static_row (s : schema) (sr : row) (w : writer_m)
  : result writer_m :=
  let w := ensure_tombstone_is_written w in
  rbind (write_static_row s sr w) (λ w,
  Ok (mk_writer_m (_data w) (_index w) (_tombstone_written w)
        true (_partition_header_length w) (_prev_row_start w)
        (_partition_key w) (_end_open_marker w) (_start_offset w)
        (_promoted_index w) (_pi_tomb w) (_block_start_offset w)
        (_block_next_start_offset w) (_first_clustering w) (_last_clustering w)
        (_desired_block_size w))).

(** [ensure_static_row_is_written_if_needed]. *)
Definition ensure_static_row_is_written_if_needed (s : schema) (w : writer_m)
  : result writer_m :=
  if negb (static_columns_count s =? 0)%nat && negb (_static_row_written w)
  then consume_static_row s empty_row w
  else Ok w.

(** *** drain_tombstones *)

Definition get_rt_start (rt : range_tombstone) : rt_marker :=
  mk_rt_marker (rt_start rt) (to_bound_kind_m (rt_start_kind rt)) (rt_tomb rt) None.

Definition get_rt_end (rt : range_tombstone) : rt_marker :=
  mk_rt_marker (rt_end rt) (to_bound_kind_m (rt_end_kind rt)) (rt_tomb rt) None.

(** [flush_end_open_marker], called with the marker engaged. *)
Definition flush_end_open_marker (w : writer_m) : writer_m :=
  match _end_open_marker w with
  | Some m => consume_rt_marker m (set_end_open_marker None w)
  | None => w
  end.

(** [write_rt_boundary(rt)], called with the marker [open] engaged. *)
Definition write_rt_boundary (open : rt_marker) (rt : range_tombstone)
    (w : writer_m) : writer_m :=
  let boundary_kind :=
    if decide (rt_start_kind rt = bound_kind.incl_start)
    then bound_kind_m.excl_end_incl_start
    else bound_kind_m.incl_end_excl_start in
  let end_tomb := tomb open in
  let w := set_end_open_marker (Some (get_rt_end rt)) w in
  consume_rt_marker (mk_rt_marker (rt_start rt) boundary_kind end_tomb (Some (rt_tomb rt))) w.

(** One turn of the [while] loop, for the range tombstone [rt] that the
    stream has handed out.  The final [trim_front] and [apply] give
    the rest of [rt] back to the stream and leave the writer alone. *)
Definition drain_tombstone (w : writer_m) (rt : range_tombstone) : writer_m :=
  let '(w, need_write_start) :=
    match _end_open_marker w with
    | Some open =>
        if position_eq (rt_marker_position open) (range_tombstone_position rt) then
          (write_rt_boundary open rt w, false)
        else if position_less (range_tombstone_position rt) (rt_marker_position open) then
          if decide (tomb open ≠ rt_tomb rt) then
            (write_rt_boundary open rt w, false)
          else
            (set_end_open_marker (Some (get_rt_end rt)) w, false)
        else
          (flush_end_open_marker w, true)
    | None => (w, true)
    end in
  if need_write_start then
    consume_rt_marker (get_rt_start rt) (set_end_open_marker (Some (get_rt_end rt)) w)
  else w.

(** [drain_tombstones(pos)]: [rts] are the range tombstones that
    [_range_tombstones.get_next] hands out, in order, before it
    returns nothing. *)
Definition drain_tombstones (s : schema) (pos : option position_in_partition)
    (rts : list range_tombstone) (w : writer_m) : result writer_m :=
  let w := ensure_tombstone_is_written w in
  rbind (ensure_static_row_is_written_if_needed s w) (λ w,
  let w := fold_left drain_tombstone rts w in
  match _end_open_marker w with
  | Some open =>
      if match pos with
         | None => true
         | Some p => position_less (rt_marker_position open) p
         end
      then Ok (flush_end_open_marker w)
      else Ok w
  | None => Ok w
  end).

(** [consume(clustering_row&& cr)]. *)
Definition consume_clustering_row (s : schema) (cr : clustering_row)
    (rts : list range_tombstone) (w : writer_m) : result writer_m :=
  rbind (drain_tombstones s (Some (after_key (cr_key cr))) rts w) (λ w,
  Ok (write_clustered (mk_clustering_info (cr_key cr) bound_kind_m.clustering)
        (rec_clustering_row cr) w)).

(** [consume(range_tombstone&& rt)]; the [apply] hands [rt] to the
    stream. *)
Definition consume_range_tombstone (s : schema) (rt : range_tombstone)
    (rts : list range_tombstone) (w : writer_m) : result writer_m :=
  drain_tombstones s (Some (range_tombstone_position rt)) rts w.

(** *** The promoted index *)

Definition width_base : Z := 65536.

Definition pi_block_bytes (b : pi_block) : bytes :=
  write_clustering_prefix (ci_kind (pb_first b)) (ci_clustering (pb_first b)) ++
  write_clustering_prefix (ci_kind (pb_last b)) (ci_clustering (pb_last b)) ++
  write_vint (pb_offset b) ++
  write_signed_vint (int64_t (pb_width b - width_base)) ++
  write_int 1 (match pb_open_marker b with Some _ => 1 | None => 0 end) ++
  match pb_open_marker b with
  | Some t => write_deletion_time (to_deletion_time t)
  | None => []
  end.

(** The loop of [write_promoted_index]: [written] is
    [writer.offset() - start]. *)
Fixpoint write_pi_blocks (blocks : list pi_block) (written : Z)
  : bytes * list Z :=
  match blocks with
  | [] => ([], [])
  | b :: rest =>
      let bs := pi_block_bytes b in
      let '(out, offsets) := write_pi_blocks rest (written + Z.of_nat (length bs)) in
      (bs ++ out, uint32_t written :: offsets)
  end.

(** [write_promoted_index(writer)]: the bytes it appends. *)
Definition write_promoted_index (w : writer_m) : bytes :=
  let '(blocks, offsets) := write_pi_blocks (_promoted_index w) 0 in
  write_vint (_partition_header_length w) ++
  write_deletion_time (to_deletion_time (_pi_tomb w)) ++
  write_vint (Z.of_nat (length (_promoted_index w))) ++
  blocks ++
  concat (map (write_int 4) offsets).

(** [calculate_write_size(func)]: the number of bytes [func] writes. *)
Definition calculate_write_size (written : bytes) : Z :=
  uint64_t (Z.of_nat (length written)).

(** [consume_end_of_partition()], up to the index entry; the
    statistics, the large-partition report, the first and last keys
    (see [consume_partition]) and the returned [stop_iteration] are not
    part of this state. *)
Definition consume_end_of_partition (s : schema) (rts : list range_tombstone)
    (w : writer_m) : result writer_m :=
  rbind (drain_tombstones s None rts w) (λ w,
  let w := write_data rec_end_of_partition w in
  let w := if negb (bool_decide (_promoted_index w = [])) && bool_decide (is_Some (_first_clustering w))
           then add_pi_block w else w in
  if (length (_promoted_index w) <? 2)%nat then
    Ok (write_index (write_vint 0) w)
  else
    let pi_size := calculate_write_size (write_promoted_index w) in
    Ok (write_index (write_vint pi_size ++ write_promoted_index w) w)).

(** *** A partition as the writer receives it

    Modelled from the spec: the driver of the writer is outside
    sstables.cc.  Per partition it calls [consume_new_partition], then
    [consume(tombstone)] if the stream supplies a partition tombstone,
    then [consume(static_row)] if there is a static row, then
    [consume] for the clustering rows and range tombstones in order,
    and [consume_end_of_partition]. *)
Inductive clustered :=
| clustered_row (cr : clustering_row) (drained : list range_tombstone)
| clustered_range_tombstone (rt : range_tombstone) (drained : list range_tombstone).

Record partition := mk_partition {
  p_key : bytes;
  p_tombstone : option tombstone;
  p_static_row : option row;
  p_clustered : list clustered;
  p_drained_at_end : list range_tombstone
}.

Definition consume_clustered (s : schema) (w : result writer_m) (c : clustered)
  : result writer_m :=
  rbind w (λ w,
  match c with
  | clustered_row cr rts => consume_clustering_row s cr rts w
  | clustered_range_tombstone rt rts => consume_range_tombstone s rt rts w
  end).

Definition write_partition (s : schema) (p : partition) (w : writer_m)
  : result writer_m :=
  rbind (consume_new_partition (p_key p) w) (λ w,
  let w := match p_tombstone p with
           | Some t => consume_tombstone t w
           | None => w
           end in
  rbind (match p_static_row p with
         | Some sr => consume_static_row s sr w
         | None => Ok w
         end) (λ w,
  rbind (fold_left (consume_clustered s) (p_clustered p) (Ok w)) (λ w,
  consume_end_of_partition s (p_drained_at_end p) w))).

End WriterM.

(** ** The writer for the 'ka' and 'la' formats

    [components_writer], as far as the partition header goes: the data
    file as the records written, and [_tombstone_written].  The index
    file, the promoted index and the statistics are left out. *)

Module ComponentsWriter.

(** Rows and range tombstones with the bytes that
    [sstable::write_static_row], [sstable::write_clustered_row] and
    [components_writer::write_tombstone] emit for them. *)
Class env := mk_env {
  row : Type;
  clustering_row : Type;
  range_tombstone : Type;
  static_row_bytes : row → bytes;
  clustered_row_bytes : clustering_row → bytes;
  range_tombstone_bytes : range_tombstone → bytes
}.

Section Writer.

Context `{E : env}.

Inductive data_record :=
| rec_partition_key (k : bytes)
| rec_deletion_time (d : deletion_time)
| rec_static_row (r : row)
| rec_clustered_row (cr : clustering_row)
| rec_range_tombstone (rt : range_tombstone)
| rec_end_of_row.

Definition encode_record (r : data_record) : bytes :=
  match r with
  | rec_partition_key k => write_int 2 (Z.of_nat (length k)) ++ k
  | rec_deletion_time d => write_deletion_time d
  | rec_static_row r => static_row_bytes r
  | rec_clustered_row cr => clustered_row_bytes cr
  | rec_range_tombstone rt => range_tombstone_bytes rt
  | rec_end_of_row => write_int 2 0
  end.

Record components_writer := mk_components_writer {
  _out : list data_record;
  _tombstone_written : bool
}.

(** [components_writer::consume_new_partition(dk)]. *)
Definition consume_new_partition (key' : bytes) (w : components_writer)
  : result components_writer :=
  rbind (check_truncate_and_assign 2 (Z.of_nat (length key'))) (λ _,
  Ok (mk_components_writer (_out w ++ [rec_partition_key key']) false)).

(** [components_writer::consume(tombstone t)]. *)
Definition consume_tombstone (t : tombstone) (w : components_writer)
  : components_writer :=
  let d :=
    if tombstone_bool t
    then mk_deletion_time (int32_t (tomb_deletion_time t)) (timestamp t)
    else mk_deletion_time int32_max int64_min in
  mk_components_writer (_out w ++ [rec_deletion_time d]) true.

(** Modelled from the spec: [components_writer::ensure_tombstone_is_written]
    is declared outside sstables.cc; like its namesake in the 'mc'
    writer it consumes an empty tombstone unless one has been written. *)
Definition ensure_tombstone_is_written (w : components_writer) : components_writer :=
  if _tombstone_written w then w else consume_tombstone tombstone_empty w.

(** [components_writer::consume(static_row&&)]. *)
Definition consume_static_row (sr : row) (w : components_writer) : components_writer :=
  let w := ensure_tombstone_is_written w in
  mk_components_writer (_out w ++ [rec_static_row sr]) (_tombstone_written w).

(** [components_writer::write_tombstone]. *)
Definition write_tombstone (w : components_writer) (rt : range_tombstone)
  : components_writer :=
  mk_components_writer (_out w ++ [rec_range_tombstone rt]) (_tombstone_written w).

(** [components_writer::drain_tombstones], with or without a position:
    [rts] are the range tombstones the accumulator hands out. *)
Definition drain_tombstones (rts : list range_tombstone) (w : components_writer)
  : components_writer :=
  fold_left write_tombstone rts (ensure_tombstone_is_written w).

(** [components_writer::consume(clustering_row&&)]. *)
Definition consume_clustering_row (cr : clustering_row) (rts : list range_tombstone)
    (w : components_writer) : components_writer :=
  let w := drain_tombstones rts w in
  mk_components_writer (_out w ++ [rec_clustered_row cr]) (_tombstone_written w).

(** [components_writer::consume(range_tombstone&&)]; the range
    tombstone itself goes to the accumulator. *)
Definition consume_range_tombstone (rts : list range_tombstone)
    (w : components_writer) : components_writer :=
  drain_tombstones rts w.

(** [components_writer::consume_end_of_partition()]. *)
Definition consume_end_of_partition (rts : list range_tombstone)
    (w : components_writer) : components_writer :=
  let w := drain_tombstones rts w in
  mk_components_writer (_out w ++ [rec_end_of_row]) (_tombstone_written w).

(** A partition as the writer receives it (see [write_partition] of
    the 'mc' writer for the calls of the driver). *)
Inductive clustered :=
| clustered_row (cr : clustering_row) (drained : list range_tombstone)
| clustered_range_tombstone (drained : list range_tombstone).

Record partition := mk_partition {
  p_key : bytes;
  p_tombstone : option tombstone;
  p_static_row : option row;
  p_clustered : list clustered;
  p_drained_at_end : list range_tombstone
}.

Definition consume_clustered (w : components_writer) (c : clustered)
  : components_writer :=
  match c with
  | clustered_row cr rts => consume_clustering_row cr rts w
  | clustered_range_tombstone rts => consume_range_tombstone rts w
  end.

Definition write_partition (p : partition) (w : components_writer)
  : result components_writer :=
  rbind (consume_new_partition (p_key p) w) (λ w,
  let w := match p_tombstone p with
           | Some t => consume_tombstone t w
           | None => w
           end in
  let w := match p_static_row p with
           | Some sr => consume_static_row sr w
           | None => w
           end in
  let w := fold_left consume_clustered (p_clustered p) w in
  Ok (consume_end_of_partition (p_drained_at_end p) w)).

Definition is_deletion_time_record (r : data_record) : bool :=
  match r with rec_deletion_time _ => true | _ => false end.

Definition is_partition_key_record (r : data_record) : bool :=
  match r with rec_partition_key _ => true | _ => false end.

Definition partition_tombstone (p : partition) : tombstone :=
  match p_tombstone p with
  | Some t => t
  | None => tombstone_empty
  end.

(** *** The shape of a partition in the data file *)

(** Neither a key nor a deletion time. *)
Definition past_header (r : data_record) : Prop :=
  is_deletion_time_record r = false ∧ is_partition_key_record r = false.

Definition pending (w : components_writer) : list data_record :=
  if _tombstone_written w then [] else [rec_deletion_time live_deletion_time].

Definition appends (w w' : components_writer) : Prop :=
  ∃ body, _out w' = _out w ++ body ∧ Forall past_header body ∧
          _tombstone_written w' = _tombstone_written w.

Definition grows (w w' : components_writer) : Prop :=
  ∃ body, _out w' = _out w ++ pending w ++ body ∧ Forall past_header body ∧
          _tombstone_written w' = true.

End Writer.

End ComponentsWriter.

(** *** The shape of a partition in the data file *)

Section WriterShape.

Context `{env : writer_env}.

(** Clustering rows, range-tombstone markers and the end-of-partition
    byte: what follows the partition header. *)
Definition is_body_record (r : data_record) : bool :=
  match r with
  | rec_clustering_row _ _ | rec_rt_marker _ _ | rec_end_of_partition => true
  | _ => false
  end.

Definition is_deletion_time_record (r : data_record) : bool :=
  match r with rec_deletion_time _ => true | _ => false end.

Definition is_static_row_record (r : data_record) : bool :=
  match r with rec_static_row _ => true | _ => false end.

Definition is_partition_key_record (r : data_record) : bool :=
  match r with rec_partition_key _ => true | _ => false end.

Definition has_static_columns (s : schema) : bool :=
  negb (static_columns_count s =? 0)%nat.

(** The header records a writer still owes before the first clustered
    record of the current partition. *)
Definition pending_header (s : schema) (w : writer_m) : list data_record :=
  (if _tombstone_written w then [] else [rec_deletion_time live_deletion_time]) ++
  (if has_static_columns s && negb (_static_row_written w)
   then [rec_static_row empty_row] else []).

(** The static row record of a partition, if it gets one. *)
Definition static_row_records (s : schema) (p : partition) : list data_record :=
  match p_static_row p with
  | Some sr => [rec_static_row sr]
  | None => if has_static_columns s then [rec_static_row empty_row] else []
  end.

(** The partition tombstone as [consume(tombstone)] receives it, from
    the stream or from [ensure_tombstone_is_written]. *)
Definition partition_tombstone (p : partition) : tombstone :=
  match p_tombstone p with
  | Some t => t
  | None => tombstone_empty
  end.

(** [w'] extends the data file of [w] by body records only and keeps
    the header flags and the index file. *)
Definition appends_body (w w' : writer_m) : Prop :=
  ∃ body, _data w' = _data w ++ body ∧
          Forall (λ r, is_body_record r = true) body ∧
          _tombstone_written w' = _tombstone_written w ∧
          _static_row_written w' = _static_row_written w ∧
          _index w' = _index w.

(** [w'] differs from [w] in the bookkeeping of the promoted index only. *)
Definition same_files (w w' : writer_m) : Prop :=
  _data w' = _data w ∧ _index w' = _index w ∧
  _tombstone_written w' = _tombstone_written w ∧
  _static_row_written w' = _static_row_written w ∧
  _end_open_marker w' = _end_open_marker w ∧
  _prev_row_start w' = _prev_row_start w.

(** [w'] extends the data file of [w] by the header records that were
    still owed, followed by body records. *)
Definition grows (s : schema) (w w' : writer_m) : Prop :=
  ∃ body, _data w' = _data w ++ pending_header s w ++ body ∧
          Forall (λ r, is_body_record r = true) body ∧
          _tombstone_written w' = true ∧
          _static_row_written w' = _static_row_written w || has_static_columns s ∧
          _index w' = _index w.

(** The state in which [consume_end_of_partition] writes the index
    entry: tombstones drained, end-of-partition byte written, a last
    incomplete block added to a promoted index that is not empty. *)
Definition before_index_entry (w : writer_m) : writer_m :=
  let w := write_data rec_end_of_partition w in
  if negb (bool_decide (_promoted_index w = []))
     && bool_decide (is_Some (_first_clustering w))
  then add_pi_block w else w.

End WriterShape.

(** ** Containers on disk *)

(** *** Arrays of integers

    [parse(v, in, Size& len, chunked_vector<Members>& arr)] and
    [write(v, out, const chunked_vector<Members>& arr)] for an unsigned
    integral [Members] of [m] bytes move at most
    [100000 / sizeof(Members)] members per turn of their loops. *)

Definition per_loop (m : nat) : nat := Z.to_nat (100000 / Z.of_nat m).

(** The [for] loop of [parse]: [now] members, most significant byte
    first, from the front of [buf]. *)
Fixpoint read_integers (m now : nat) (buf : bytes) : list Z :=
  match now with
  | O => []
  | S now' => be_combine (take m buf) :: read_integers m now' (drop m buf)
  end.

(** The [repeat] loop of [parse], with [done] members read so far into
    [arr].  The loop has no bound of its own: [fuel] counts the turns
    it is given, and [None] is a loop that has not stopped within
    them. *)
Fixpoint parse_integers_loop (fuel m len done : nat) (arr : list Z)
  : parser (option (list Z)) :=
  match fuel with
  | O => pret None
  | S fuel' =>
      let now := Nat.min (len - done)%nat (per_loop m) in
      let! buf := read_exactly (now * m)%nat in
      let! _ := check_buf_size buf (now * m)%nat in
      let arr' := arr ++ read_integers m now buf in
      let done' := (done + now)%nat in
      if (done' =? len)%nat then pret (Some arr')
      else parse_integers_loop fuel' m len done' arr'
  end.

(** [parse(v, in, disk_array<Size, Members>& arr)] with [Size] of [n]
    bytes, into an empty [arr.elements]. *)
Definition parse_disk_array_integral (fuel n m : nat) : parser (option (list Z)) :=
  let! len := parse_uint n in
  parse_integers_loop fuel m (Z.to_nat len) 0 [].

(** The [while] loop of [write]: [out] is what has been written when
    [idx] members are done. *)
Fixpoint write_integers_loop (fuel m : nat) (arr : list Z) (idx : nat) (out : bytes)
  : option bytes :=
  match fuel with
  | O => None
  | S fuel' =>
      if (idx =? length arr)%nat then Some out
      else
        let now := Nat.min (length arr - idx)%nat (per_loop m) in
        let tmp := map (write_int m) (take now (drop idx arr)) in
        write_integers_loop fuel' m arr (idx + now)%nat (out ++ concat tmp)
  end.

(** [write(v, out, const disk_array<Size, Members>& arr)]. *)
Definition write_disk_array_integral (fuel n m : nat) (arr : list Z)
  : result (option bytes) :=
  rbind (check_truncate_and_assign n (Z.of_nat (length arr))) (λ len,
  Ok (write_integers_loop fuel m arr 0 (write_int n len))).

(** *** Sets of tagged unions *)

Section TaggedUnion.

Context {value_type : Type}.

(** [single_tagged_union_member_serdes]: the parser, the sizer and the
    writer of one member. *)
Record member_serdes := mk_member_serdes {
  do_parse : sstable_version_types → parser value_type;
  do_size : sstable_version_types → value_type → Z;
  do_write : sstable_version_types → value_type → result bytes
}.

(** [serdes::map], from the tags of the members that are known. *)
Variable serdes_map : Z → option member_serdes.

(** [s.data.emplace(tag, value)]: a tag that is present keeps its value. *)
Definition emplace (tag : Z) (value : value_type) (data : gmap Z value_type)
  : gmap Z value_type :=
  match data !! tag with
  | Some _ => data
  | None => <[tag := value]> data
  end.

(** [serdes::lookup_and_parse]. *)
Definition lookup_and_parse (v : sstable_version_types) (tag size : Z)
    (data : gmap Z value_type) : parser (gmap Z value_type) :=
  match serdes_map tag with
  | None => let! _ := read_exactly (Z.to_nat size) in pret data
  | Some sd => let! value := do_parse sd v in pret (emplace tag value data)
  end.

(** The [do_for_each] over [nr_elements] elements.  Modelled from the
    spec: the key type is declared outside sstables.cc; the spec gives
    the count, the tag and the size as 32-bit integers. *)
Fixpoint parse_tagged_elements (v : sstable_version_types) (nr_elements : nat)
    (data : gmap Z value_type) : parser (gmap Z value_type) :=
  match nr_elements with
  | O => pret data
  | S n =>
      let! new_key := parse_uint 4 in
      let! new_size := parse_uint 4 in
      let! data' := lookup_and_parse v new_key new_size data in
      parse_tagged_elements v n data'
  end.

(** [parse(v, in, disk_set_of_tagged_union<TagType, Members...>& s)]. *)
Definition parse_disk_set_of_tagged_union (v : sstable_version_types)
    (data : gmap Z value_type) : parser (gmap Z value_type) :=
  let! nr_elements := parse_uint 4 in
  parse_tagged_elements v (Z.to_nat nr_elements) data.

Definition unknown_tag : exn := out_of_range "unordered_map::at".

(** The loop of [write] over [s.data], given as the pairs that the
    iteration over the map yields, in its order. *)
Fixpoint write_tagged_elements (v : sstable_version_types)
    (data : list (Z * value_type)) : result bytes :=
  match data with
  | [] => Ok []
  | (tag, value) :: rest =>
      match serdes_map tag with
      | None => Throw unknown_tag
      | Some sd =>
          rbind (do_write sd v value) (λ payload,
          rbind (write_tagged_elements v rest) (λ out,
          Ok (write_int 4 tag ++ write_int 4 (uint32_t (do_size sd v value))
                ++ payload ++ out)))
      end
  end.

(** [write(v, out, const disk_set_of_tagged_union<TagType, Members...>& s)]. *)
Definition write_disk_set_of_tagged_union (v : sstable_version_types)
    (data : list (Z * value_type)) : result bytes :=
  rbind (write_tagged_elements v data) (λ out,
  Ok (write_int 4 (uint32_t (Z.of_nat (length data))) ++ out)).

End TaggedUnion.

Arguments member_serdes : clear implicits.

(** *** utils::estimated_histogram *)

Record estimated_histogram := mk_estimated_histogram {
  bucket_offsets : list Z;   (* uint64_t *)
  buckets : list Z           (* uint64_t *)
}.

(** The [do_until] loop of [parse], [n] turns away from
    [eh.buckets.size() == length]; [buf] is the rest of the buffer at
    index [j]. *)
Fixpoint read_histogram_elements (n : nat) (buf : bytes) (eh : estimated_histogram)
  : estimated_histogram :=
  match n with
  | O => eh
  | S n' =>
      let offset := be_combine (take 8 buf) in
      let bucket := be_combine (take 8 (drop 8 buf)) in
      let offsets' :=
        if (0 <? length (buckets eh))%nat then bucket_offsets eh ++ [offset]
        else bucket_offsets eh in
      read_histogram_elements n' (drop 16 buf)
        (mk_estimated_histogram offsets' (buckets eh ++ [bucket]))
  end.

Definition zero_size_histogram : exn :=
  malformed_sstable_exception "Estimated histogram with zero size found. Can't continue!".

(** [parse(v, in, utils::estimated_histogram& eh)]. *)
Definition parse_estimated_histogram (v : sstable_version_types)
  : parser estimated_histogram :=
  let! len := parse_uint 4 in
  if len =? 0 then pthrow zero_size_histogram
  else
    let length := Z.to_nat len in
    let! buf := read_exactly (length * 16)%nat in
    let! _ := check_buf_size buf (length * 16)%nat in
    pret (read_histogram_elements length buf (mk_estimated_histogram [] [])).

(** The [for] loop of [write] from index [i] on.  For [i] it takes the
    offset at [i == 0 ? 0 : i - 1]; [None] is a read past the end of
    [bucket_offsets], which the source does not guard against. *)
Fixpoint write_histogram_elements (eh : estimated_histogram) (i : nat)
    (rest : list Z) : option bytes :=
  match rest with
  | [] => Some []
  | bucket :: rest' =>
      match bucket_offsets eh !! (if (i =? 0)%nat then 0%nat else (i - 1)%nat) with
      | None => None
      | Some offset =>
          match write_histogram_elements eh (S i) rest' with
          | None => None
          | Some out => Some (write_int 8 offset ++ write_int 8 bucket ++ out)
          end
      end
  end.

(** [write(v, out, const utils::estimated_histogram& eh)]. *)
Definition write_estimated_histogram (v : sstable_version_types)
    (eh : estimated_histogram) : result (option bytes) :=
  rbind (check_truncate_and_assign 4 (Z.of_nat (length (buckets eh)))) (λ len,
  Ok (match write_histogram_elements eh 0 (buckets eh) with
      | None => None
      | Some out => Some (write_int 4 len ++ out)
      end)).

(** *** Reverse lookup in the name tables *)

(** [reverse_map(value, map)]: [map] is given as the pairs that the
    iteration over it yields, in its order. *)
Fixpoint reverse_map {K V : Type} `{EqDecision V} (value : V) (map : list (K * V))
  : result K :=
  match map with
  | [] => Throw (out_of_range "unable to reverse map")
  | kv :: rest =>
      if decide (kv.2 = value) then Ok kv.1 else reverse_map value rest
  end.

(** [Map::at(key)]. *)
Fixpoint map_at {K V : Type} `{EqDecision K} (key : K) (map : list (K * V))
  : result V :=
  match map with
  | [] => Throw unknown_tag
  | kv :: rest => if decide (kv.1 = key) then Ok kv.2 else map_at key rest
  end.

(** [sstable::_version_string], as the pairs of the map. *)
Definition _version_string : list (sstable_version_types * string) :=
  [(ka, "ka"%string); (la, "la"%string); (mc, "mc"%string)].

#[global] Instance sstable_version_types_eq_dec : EqDecision sstable_version_types.
Proof. solve_decision. Defined.

(** [sstable::version_from_sstring]. *)
Definition version_from_sstring (s : string) : result sstable_version_types :=
  match reverse_map s _version_string with
  | Ok v => Ok v
  | Throw _ => Throw (out_of_range ("Unknown sstable version: " ++ s))
  end.

(** *** Writers and readers of a set of tagged unions

    A file written with one table of members may be read with another:
    [member_written] is an element whose tag the writer knows, with a
    payload of the size that the sizer announces and that any reader
    knowing the tag parses back. *)

Section TaggedUnionVersions.

Context {value_type : Type}.
Variables writer reader : Z → option (member_serdes value_type).
Variable v : sstable_version_types.

Definition parses_back (rd : member_serdes value_type) (payload : bytes)
    (value : value_type) : Prop :=
  ∀ data p, at_pos data p payload →
    do_parse rd v (mk_reader data p) = Ok (value, mk_reader data (p + length payload)).

Definition member_written (kv : Z * value_type) : Prop :=
  0 ≤ kv.1 < 2 ^ 32 ∧
  ∃ wr payload, writer kv.1 = Some wr ∧ do_write wr v kv.2 = Ok payload ∧
                do_size wr v kv.2 = Z.of_nat (length payload) ∧
                Z.of_nat (length payload) < 2 ^ 32 ∧
                ∀ rd, reader kv.1 = Some rd → parses_back rd payload kv.2.

(** The reader knows the tag of the element. *)
Definition known (kv : Z * value_type) : Prop := is_Some (reader kv.1).

#[global] Instance known_dec kv : Decision (known kv).
Proof. unfold known. apply _. Defined.

End TaggedUnionVersions.

(** The elements that [write] emits for a histogram: an offset and a
    bucket, eight bytes each. *)
Fixpoint histogram_pairs (os bs : list Z) : bytes :=
  match os, bs with
  | o :: os', b :: bs' => write_int 8 o ++ write_int 8 b ++ histogram_pairs os' bs'
  | _, _ => []
  end.

(** ** The TOC file *)

Definition newline : Ascii.ascii := Ascii.ascii_of_nat 10.

(** [boost::split(comps, buf, boost::is_any_of(sep))]: the tokens
    between the separators; an empty input gives one empty token. *)
Fixpoint split_on (sep : Ascii.ascii) (s : string) : list string :=
  match s with
  | EmptyString => [EmptyString]
  | String c s' =>
      if Ascii.eqb c sep then EmptyString :: split_on sep s'
      else
        match split_on sep s' with
        | [] => [String c EmptyString]
        | t :: ts => String c t :: ts
        end
  end.

(** Whether [c] occurs in [s]. *)
Fixpoint has_char (c : Ascii.ascii) (s : string) : bool :=
  match s with
  | EmptyString => false
  | String c' s' => Ascii.eqb c' c || has_char c s'
  end.

(** [_recognized_components] and [_unrecognized_components] of an
    sstable. *)
Record toc_components := mk_toc_components {
  _recognized_components : gset component_type;
  _unrecognized_components : list string
}.

Section Toc.

(** [sstable_version_constants::get_component_map(_version)], declared
    outside sstables.cc, as the pairs of the map. *)
Variable component_map : list (component_type * string).

(** The body of the [for] loop of [read_toc] for the line [c]. *)
Definition read_toc_line (st : toc_components) (c : string) : toc_components :=
  if String.eqb c "" then st
  else
    match reverse_map c component_map with
    | Ok t =>
        mk_toc_components (_recognized_components st ∪ {[t]})
          (_unrecognized_components st)
    | Throw _ =>
        mk_toc_components (_recognized_components st)
          (_unrecognized_components st ++ [c])
    end.

(** [sstable::read_toc()]: [file] is the content of the TOC file, or
    [None] when opening it fails with [ENOENT]; [dma_read] fills at
    most 4096 bytes.  The messages are given without the size and the
    file path that the source splices in. *)
Definition read_toc (file : option string) (st : toc_components)
  : result toc_components :=
  if negb (bool_decide (_recognized_components st = ∅)) then Ok st
  else
    match file with
    | None => Throw (malformed_sstable_exception "file not found")
    | Some content =>
        let size := Nat.min (String.length content) 4096 in
        if (4096 <=? size)%nat
        then Throw (malformed_sstable_exception "SSTable too big")
        else
          let comps := split_on newline (substring 0 size content) in
          let st' := fold_left read_toc_line comps st in
          if bool_decide (_recognized_components st' = ∅)
          then Throw (malformed_sstable_exception "Empty TOC")
          else Ok st'
    end.

(** The [for] loop of [write_toc] over the recognized components, in
    the order of the iteration. *)
Fixpoint write_toc_lines (keys : list component_type) : result string :=
  match keys with
  | [] => Ok EmptyString
  | key :: rest =>
      rbind (map_at key component_map) (λ name,
      rbind (write_toc_lines rest) (λ out,
      Ok (name ++ String newline EmptyString ++ out)%string))
  end.

(** [sstable::write_toc(pc)]: what is written to the temporary TOC
    file; [toc_exists] tells whether the sstable has a TOC file
    already, and [recognized] is [_recognized_components] as the
    components that the iteration over the set yields, in its order. *)
Definition write_toc (toc_exists : bool) (recognized : list component_type)
  : result string :=
  if toc_exists
  then Throw (runtime_error "SSTable write failed due to existence of TOC file")
  else write_toc_lines recognized.

(** Names that can be told apart in a TOC file: no two components
    share one, none is empty and none holds a line break. *)
Definition distinct_line_names : Prop :=
  NoDup (component_map.*2) ∧
  Forall (λ kv, kv.2 ≠ EmptyString ∧ has_char newline kv.2 = false) component_map.

End Toc.

(** ** Writing the Statistics component *)

(** [validation_metadata::describe_type] lists the partitioner and the
    filter chance, as [parse_validation_metadata] reads them. *)
Definition write_validation_metadata (v : sstable_version_types)
    (m : validation_metadata) : result bytes :=
  rbind (write_disk_string 2 (partitioner m)) (λ p,
  Ok (p ++ write_int 8 (filter_chance m))).

(** Modelled from the spec: [serialized_size] is declared outside
    sstables.cc; for the offsets table it is the size of the layout
    that the spec gives, a 32-bit count and a 32-bit tag and a 32-bit
    offset per entry. *)
Definition offsets_serialized_size (elements : list (metadata_type * Z)) : Z :=
  4 + 8 * Z.of_nat (length elements).

Section StatisticsWrite.

Context {compaction_metadata stats_metadata serialization_header : Type}.

(** The writers and the sizers of the metadata kinds are declared
    outside sstables.cc. *)
Variable write_compaction_metadata :
  sstable_version_types → compaction_metadata → result bytes.
Variable write_stats_metadata :
  sstable_version_types → stats_metadata → result bytes.
Variable write_serialization_header :
  sstable_version_types → serialization_header → result bytes.
Variable validation_serialized_size : sstable_version_types → validation_metadata → Z.
Variable compaction_serialized_size : sstable_version_types → compaction_metadata → Z.
Variable stats_serialized_size : sstable_version_types → stats_metadata → Z.
Variable header_serialized_size : sstable_version_types → serialization_header → Z.

Abbreviation metadata' :=
  (@metadata compaction_metadata stats_metadata serialization_header).
Abbreviation statistics' :=
  (@statistics compaction_metadata stats_metadata serialization_header).

(** [metadata::write(v, out)]. *)
Definition write_metadata (v : sstable_version_types) (m : metadata') : result bytes :=
  match m with
  | metadata_validation m => write_validation_metadata v m
  | metadata_compaction m => write_compaction_metadata v m
  | metadata_stats m => write_stats_metadata v m
  | metadata_serialization m => write_serialization_header v m
  end.

(** [metadata::serialized_size(v)]. *)
Definition metadata_serialized_size (v : sstable_version_types) (m : metadata') : Z :=
  match m with
  | metadata_validation m => validation_serialized_size v m
  | metadata_compaction m => compaction_serialized_size v m
  | metadata_stats m => stats_serialized_size v m
  | metadata_serialization m => header_serialized_size v m
  end.

(** [write(v, out, s.offsets)]: the count, then a tag and an offset per
    element. *)
Definition write_offsets (v : sstable_version_types)
    (elements : list (metadata_type * Z)) : result bytes :=
  rbind (check_truncate_and_assign 4 (Z.of_nat (length elements))) (λ len,
  Ok (write_int 4 len
      ++ concat (map (λ e, write_int 4 e.1 ++ write_int 4 e.2) elements))).

(** The loop of [write(v, out, const statistics& s)]:
    [s.contents.at(e.first)->write(v, out)] for every element. *)
Fixpoint write_contents (v : sstable_version_types)
    (elements : list (metadata_type * Z)) (c : gmap Z metadata') : result bytes :=
  match elements with
  | [] => Ok []
  | e :: rest =>
      match c !! e.1 with
      | None => Throw unknown_tag
      | Some m =>
          rbind (write_metadata v m) (λ b,
          rbind (write_contents v rest c) (λ bs, Ok (b ++ bs)))
      end
  end.

(** [write(v, out, const statistics& s)]. *)
Definition write_statistics (v : sstable_version_types) (s : statistics')
  : result bytes :=
  rbind (write_offsets v (offsets s)) (λ table,
  rbind (write_contents v (offsets s) (contents s)) (λ body,
  Ok (table ++ body))).

(** The second loop of [populate_statistics_offsets]: every type gets
    the running offset, cut to 32 bits, and the offset advances by the
    size of the type's metadata. *)
Fixpoint assign_offsets (v : sstable_version_types) (types : list metadata_type)
    (offset : Z) (c : gmap Z metadata') : list (metadata_type * Z) :=
  match types with
  | [] => []
  | t :: rest =>
      (t, uint32_t offset)
      :: assign_offsets v rest
           (uint64_t (offset + match c !! t with
                              | Some m => metadata_serialized_size v m
                              | None => 0
                              end)) c
  end.

(** [populate_statistics_offsets(v, s)].  The types are the keys of
    [s.contents], sorted; the size of the table is taken with one
    entry per type added to the entries that [s.offsets] holds
    already. *)
Definition populate_statistics_offsets (v : sstable_version_types) (s : statistics')
  : statistics' :=
  let types := merge_sort Z.le (map fst (map_to_list (contents s))) in
  let sized := offsets s ++ map (λ t, (t, uint32_t (-1))) types in
  let offset := uint64_t (offsets_serialized_size sized) in
  mk_statistics (assign_offsets v types offset (contents s)) (contents s).

(** [seal_statistics(v, s, collector, partitioner, bloom_filter_fp_chance,
    schema, first_key, last_key, enc_stats)]: [compaction] and [stats]
    are what the collector constructs and [header] is the result of
    [make_serialization_header]. *)
Definition seal_statistics (v : sstable_version_types) (s : statistics')
    (partitioner' : bytes) (bloom_filter_fp_chance : Z)
    (compaction : compaction_metadata) (stats : stats_metadata)
    (header : serialization_header) : statistics' :=
  let validation := mk_validation_metadata partitioner' bloom_filter_fp_chance in
  let c := <[Validation := metadata_validation validation]> (contents s) in
  let c := <[Compaction := metadata_compaction compaction]> c in
  let c := <[Stats := metadata_stats stats]> c in
  let c := if is_mc v then <[Serialization := metadata_serialization header]> c else c in
  populate_statistics_offsets v (mk_statistics (offsets s) c).

End StatisticsWrite.

(** A member of the Statistics component whose bytes come back as the
    member from wherever they lie in a file. *)
Definition member_roundtrip {A : Type} (write : result bytes) (size : Z)
    (parse : parser A) (m : A) : Prop :=
  ∃ b, write = Ok b ∧ size = Z.of_nat (length b) ∧
       ∀ data p, at_pos data p b →
         ∃ r', parse (mk_reader data p) = Ok (m, r') ∧ file_data r' = data.

(** The metadata types that [parse(v, in, statistics&)] has a case for. *)
Definition known_metadata_type (t : metadata_type) : Prop :=
  t = Validation ∨ t = Compaction ∨ t = Stats ∨ t = Serialization.

(** ** Generating a summary from the index file *)

(** What [generate_summary] uses of an [index_entry]: the key and the
    position of the partition in the data file. *)
Record index_entry := mk_index_entry {
  ie_key : bytes;
  ie_position : Z   (* uint64_t *)
}.

(** The [summary_generator] of [sstable::generate_summary]. *)
Record summary_generator := mk_summary_generator {
  sg_summary : summary;
  sg_state : index_sampling_state;
  sg_first_key : option bytes;
  sg_last_key : option bytes
}.

Section GenerateSummary.

Variable get_token : bytes → bytes.
Variable get_size_at_full_sampling : Z → Z → Z.
Variable BASE_SAMPLING_LEVEL : Z.

(** [summary_generator::consume_entry(ie, index_offset)]. *)
Definition consume_entry (g : summary_generator) (e : index_entry * Z)
  : summary_generator :=
  let token' := get_token (ie_key e.1) in
  let '(s, st) := maybe_add_summary_entry (sg_summary g) token' (ie_key e.1)
                    (ie_position e.1) e.2 (sg_state g) in
  match sg_first_key g with
  | None => mk_summary_generator s st (Some (ie_key e.1)) (sg_last_key g)
  | Some _ => mk_summary_generator s st (sg_first_key g) (Some (ie_key e.1))
  end.

(** The generator as [generate_summary] constructs it on the prepared
    summary [s0]. *)
Definition summary_generator_init (s0 : summary) (cost : Z) : summary_generator :=
  mk_summary_generator s0 (mk_index_sampling_state 0 0 cost) None None.

(** [consume_input] over the entries of the index file, each with its
    offset in that file, and the [seal_summary] that follows. *)
Definition generated_summary (s0 : summary) (cost : Z)
    (index : list (index_entry * Z)) : option summary :=
  let g := fold_left consume_entry index (summary_generator_init s0 cost) in
  seal_summary get_size_at_full_sampling (sg_summary g) (sg_first_key g)
    (sg_last_key g) (sg_state g).

(** [sstable::generate_summary(pc)] for an sstable whose summary is not
    loaded: [index_size] is the size of the index file. *)
Definition generate_summary (s : summary) (index_size : Z) (min_index_interval' : Z)
    (cost : Z) (index : list (index_entry * Z)) : option (result summary) :=
  let estimated_partitions := index_size / Z.of_nat sizeof_u64 in
  match prepare_summary BASE_SAMPLING_LEVEL s estimated_partitions min_index_interval' with
  | None => None
  | Some (Throw e) => Some (Throw e)
  | Some (Ok s0) =>
      match generated_summary s0 cost index with
      | None => None
      | Some s' => Some (Ok s')
      end
  end.

End GenerateSummary.

(** *** A partition as the writers start it

    [consume_new_partition] offers the partition to
    [maybe_add_summary_entry] with [get_data_offset()] (the mc writer)
    or [get_offset()] (the ka and la writer) and with the offset of
    the index writer, and then writes the index entry with the offset
    of the data writer as its position. *)

(** [get_data_offset()] and [get_offset()]: the length of the
    compressed file when the sstable has a CompressionInfo component,
    else the offset of the data writer. *)
Definition get_data_offset (has_compression_info : bool)
    (compressed_file_length writer_offset : Z) : Z :=
  if has_compression_info then compressed_file_length else writer_offset.

Record written_partition := mk_written_partition {
  wp_token : bytes;
  wp_key : bytes;
  wp_writer_offset : Z;            (* _data_writer->offset(), _out.offset() *)
  wp_compressed_file_length : Z;   (* compression.compressed_file_length() *)
  wp_index_offset : Z              (* _index_writer->offset(), _index.offset() *)
}.

(** What the writer hands to [maybe_add_summary_entry]. *)
Definition partition_start_of (has_compression_info : bool) (p : written_partition)
  : partition_start :=
  mk_partition_start (wp_token p) (wp_key p)
    (get_data_offset has_compression_info (wp_compressed_file_length p)
       (wp_writer_offset p))
    (wp_index_offset p).

(** The index entry that the writer leaves behind for a partition, the
    key and the offset of the data writer, with the offset of the
    index writer at which the entry starts.  The reader of the index
    file, [index_consume_entry_context], is declared outside
    sstables.cc; it is taken to hand [consume_entry] every entry
    together with that offset. *)
Definition written_index_entry (p : written_partition) : index_entry * Z :=
  (mk_index_entry (wp_key p) (wp_writer_offset p), wp_index_offset p).

(** ** The index file of the 'ka' and 'la' formats *)

(** [write_index_header(v, out, key, pos)]. *)
Definition write_index_header (v : sstable_version_types) (key' : bytes) (pos : Z)
  : result bytes :=
  rbind (check_truncate_and_assign 2 (Z.of_nat (length key'))) (λ len,
  Ok (write_int 2 len ++ key' ++ write_int 8 pos)).

(** [write_index_promoted(v, out, promoted_index, deltime, numblocks)]. *)
Definition write_index_promoted (v : sstable_version_types) (promoted_index : bytes)
    (deltime : deletion_time) (numblocks : Z) : bytes :=
  let promoted_index_size := uint32_t (Z.of_nat (length promoted_index)) in
  if negb (promoted_index_size =? 0) then
    let promoted_index_size := uint32_t (promoted_index_size + 16) in
    write_int 4 promoted_index_size ++ write_deletion_time deltime
      ++ write_int 4 numblocks ++ promoted_index
  else write_int 4 promoted_index_size.

(** * Sample inputs *)

Module Sample.

(** A partitioner stand-in: the token data is the key reversed. *)
Definition get_token (k : bytes) : bytes := rev k.

(** A stand-in for [sstable::get_size_at_full_sampling]. *)
Definition get_size_at_full_sampling (partition_count min_index_interval : Z) : Z :=
  partition_count.

Definition key_a : bytes := [Byte.x61].
Definition key_bc : bytes := [Byte.x62; Byte.x63].
Definition key_d : bytes := [Byte.x64].

(** A summary with one sampled entry, not sealed yet. *)
Definition one_entry : summary :=
  mk_summary (mk_summary_header 128 0 0 128 0) []
    [mk_summary_entry (get_token key_a) key_a 0] [] [].

(** A summary with two sampled entries, not sealed yet. *)
Definition two_entries : summary :=
  mk_summary (mk_summary_header 128 0 0 128 0) []
    [mk_summary_entry (get_token key_a) key_a 0;
     mk_summary_entry (get_token key_bc) key_bc 15] [] [].

Definition state_after_two : index_sampling_state :=
  mk_index_sampling_state 46000 2 2000.

(** [two_entries] as [seal_summary] leaves it. *)
Definition two_entries_sealed : summary :=
  mk_summary (mk_summary_header 128 2 27 128 2) [8; 17]
    [mk_summary_entry (get_token key_a) key_a 0;
     mk_summary_entry (get_token key_bc) key_bc 15] key_a key_bc.

End Sample.

Module SampleRun.

(** Three partitions of an uncompressed 'la' sstable without promoted
    indexes, so that an index entry takes 14 bytes and the key: the
    second partition starts 30000 bytes into the data file, the third
    40 bytes later. *)
Definition p1 : partition_start :=
  mk_partition_start (Sample.get_token Sample.key_a) Sample.key_a 0 0.
Definition p2 : partition_start :=
  mk_partition_start (Sample.get_token Sample.key_bc) Sample.key_bc 30000 15.
Definition p3 : partition_start :=
  mk_partition_start (Sample.get_token Sample.key_d) Sample.key_d 30040 31.

Definition prepared : summary :=
  mk_summary (mk_summary_header 128 0 0 128 0) [] [] [] [].

End SampleRun.

Module SampleStatistics.

(** Stand-ins for the three metadata parsers that are parameters. *)
Definition parse_unit (v : sstable_version_types) : parser unit := pret tt.

Definition parse (v : sstable_version_types) : parser (@statistics unit unit unit) :=
  parse_statistics parse_unit parse_unit parse_unit v.

(** A Statistics file of an 'la' sstable cut short after its table:
    two entries, Validation and Serialization, both at offset 20,
    which is the end of the file. *)
Definition truncated : bytes :=
  write_int 4 2 ++ write_int 4 Validation ++ write_int 4 20
    ++ write_int 4 Serialization ++ write_int 4 20.

(** A Statistics file whose table holds a Serialization entry only. *)
Definition only_header : bytes :=
  write_int 4 1 ++ write_int 4 Serialization ++ write_int 4 12.

End SampleStatistics.

Module SampleWriter.

(** A one-column integer clustering key.  A position is three times
    the key, one less for a bound that sorts before the key and one
    more for a bound or row end that sorts after it.  Rows are kept as
    their bytes, and the variable-length integers are stood in for by
    fixed eight-byte ones. *)
Definition bound_weight (k : bound_kind.t) : Z :=
  match k with
  | bound_kind.incl_start | bound_kind.excl_end => -1
  | bound_kind.incl_end | bound_kind.excl_start => 1
  end.

Definition env : writer_env := {|
  clustering_key_prefix := Z;
  row := bytes;
  clustering_row := Z * bytes;
  position_in_partition := Z;
  position_less := Z.ltb;
  position_eq := Z.eqb;
  bound_position := λ ck k, 3 * ck + bound_weight k;
  after_key := λ ck, 3 * ck + 1;
  cr_key := fst;
  empty_row := [];
  write_vint := write_int 8;
  write_signed_vint := write_int 8;
  unsigned_vint_serialized_size := λ _, 8;
  write_delta_deletion_time := write_deletion_time;
  write_clustering_prefix := λ k ck, write_int 4 ck;
  static_row_bytes := λ r, Byte.x80 :: Byte.x01 :: r;
  clustering_row_bytes := λ cr prev, Byte.x00 :: write_int 4 cr.1 ++ cr.2
|}.

#[local] Existing Instance env.

Definition compound_with_static : schema := mk_schema 1 true.

Definition t1 : tombstone := mk_tombstone 1000 50.
Definition t2 : tombstone := mk_tombstone 2000 60.

(** A writer with nothing written yet and 64 KiB promoted-index blocks. *)
Definition fresh : writer_m :=
  mk_writer_m [] [] false false 0 0 None None 0 [] tombstone_empty 0 0 None None 65536.

(** Two range tombstones that share the bound 2: up to and including
    2 with [t1], from 2 exclusive onwards with [t2]. *)
Definition rt_upto_2 : range_tombstone :=
  mk_range_tombstone 0 bound_kind.incl_start 2 bound_kind.incl_end t1.
Definition rt_from_2 : range_tombstone :=
  mk_range_tombstone 2 bound_kind.excl_start 9 bound_kind.incl_end t2.

(** A partition with no partition tombstone and no static row: the
    two range tombstones, then a clustering row with key 15.  The
    accumulator hands out the first range tombstone when the second
    arrives, and the second when the row arrives. *)
Definition partition_5 : partition :=
  mk_partition [Byte.x35] None None
    [clustered_range_tombstone rt_upto_2 [];
     clustered_range_tombstone rt_from_2 [rt_upto_2];
     clustered_row (15, [Byte.x2a]) [rt_from_2]]
    [].

(** The writer while the first range tombstone is open. *)
Definition open_upto_2 : writer_m :=
  set_end_open_marker (Some (get_rt_end rt_upto_2)) fresh.

(** A writer that cuts a promoted-index block after every clustered
    record, with nothing written yet. *)
Definition small_blocks : writer_m :=
  mk_writer_m [] [] false false 0 0 None None 0 [] tombstone_empty 0 0 None None 1.

(** The same writer after a partition start and two clustering rows. *)
Definition after_two_rows : result writer_m :=
  rbind (consume_new_partition [Byte.x35] small_blocks) (λ w,
  rbind (consume_clustering_row compound_with_static (1, [Byte.x2a]) [] w) (λ w,
  consume_clustering_row compound_with_static (2, [Byte.x2b]) [] w)).

Definition two_blocks : writer_m :=
  match after_two_rows with
  | Ok w => w
  | Throw _ => small_blocks
  end.

(** What a run of the writer has left in the data file, in the index
    file and in the promoted index. *)
Definition written_data (r : result writer_m) : list data_record :=
  match r with Ok w => _data w | Throw _ => [] end.
Definition written_index (r : result writer_m) : bytes :=
  match r with Ok w => _index w | Throw _ => [] end.
Definition collected_blocks (r : result writer_m) : nat :=
  match r with Ok w => length (_promoted_index w) | Throw _ => 0%nat end.

End SampleWriter.

(** * Reading a written data file *)


Section WriterInvariants.

Context `{env : writer_env}.

(** The promoted-index block that is open once
    [maybe_set_pi_first_clustering] has run: where it starts, its
    first clustering and the offset at which it is to be closed. *)
Definition block_start_after (w : writer_m) : Z :=
  match _first_clustering w with
  | Some _ => _block_start_offset w
  | None => data_offset w
  end.

Definition first_after (info : clustering_info) (w : writer_m) : clustering_info :=
  match _first_clustering w with
  | Some f => f
  | None => info
  end.

Definition next_after (w : writer_m) : Z :=
  match _first_clustering w with
  | Some _ => _block_next_start_offset w
  | None => uint64_t (data_offset w + _desired_block_size w)
  end.

(** The tombstone of the range that is open in the data file. *)
Definition open_tomb (w : writer_m) : option tombstone :=
  match _end_open_marker w with
  | Some m => Some (tomb m)
  | None => None
  end.

Definition is_start_kind (k : bound_kind.t) : bool :=
  match k with
  | bound_kind.incl_start | bound_kind.excl_start => true
  | _ => false
  end.

Definition is_end_kind (k : bound_kind.t) : bool :=
  match k with
  | bound_kind.incl_end | bound_kind.excl_end => true
  | _ => false
  end.

(** A range tombstone that starts with a start bound and ends with an
    end bound. *)
Definition well_formed_range_tombstone (rt : range_tombstone) : Prop :=
  is_start_kind (rt_start_kind rt) = true ∧ is_end_kind (rt_end_kind rt) = true.

(** What a reader of the data file makes of one record when the range
    of the tombstone [st] is open ([None]: no range is open): a start
    bound opens a range, an end bound closes the open range, a
    boundary closes it and opens the next; the closing side names the
    tombstone of the open range.  [None] is a marker that does not fit. *)
Definition marker_step (st : option tombstone) (r : data_record)
  : option (option tombstone) :=
  match r with
  | rec_rt_marker m _ =>
      match kind m, st, boundary_tomb m with
      | (bound_kind_m.incl_start | bound_kind_m.excl_start), None, None =>
          Some (Some (tomb m))
      | (bound_kind_m.incl_end | bound_kind_m.excl_end), Some t, None =>
          if decide (t = tomb m) then Some None else None
      | (bound_kind_m.excl_end_incl_start | bound_kind_m.incl_end_excl_start),
        Some t, Some t' =>
          if decide (t = tomb m) then Some (Some t') else None
      | _, _, _ => None
      end
  | _ => Some st
  end.

Fixpoint markers_run (st : option tombstone) (rs : list data_record)
  : option (option tombstone) :=
  match rs with
  | [] => Some st
  | r :: rs' =>
      match marker_step st r with
      | Some st' => markers_run st' rs'
      | None => None
      end
  end.

(** The open end marker of a writer is an end bound. *)
Definition open_is_end (w : writer_m) : Prop :=
  ∀ m, _end_open_marker w = Some m →
    (kind m = bound_kind_m.incl_end ∨ kind m = bound_kind_m.excl_end) ∧
    boundary_tomb m = None.

(** From [w] to [w'] the data file grows by records whose markers
    fit, from the range open in [w] to the range open in [w']. *)
Definition runs (w w' : writer_m) : Prop :=
  ∃ recs, _data w' = _data w ++ recs ∧
          markers_run (open_tomb w) recs = Some (open_tomb w') ∧
          open_is_end w'.

Definition is_marker_record (r : data_record) : bool :=
  match r with rec_rt_marker _ _ => true | _ => false end.

(** The range tombstones that the accumulator hands out over a
    partition, in the order of the calls. *)
Definition drained_of (c : clustered) : list range_tombstone :=
  match c with
  | clustered_row _ drained => drained
  | clustered_range_tombstone _ drained => drained
  end.

Definition partition_range_tombstones (p : partition) : list range_tombstone :=
  concat (map drained_of (p_clustered p)) ++ p_drained_at_end p.

(** Promoted-index blocks that follow each other: the first starts at
    [from], each next one where the one before ends, and the last
    ends at [to], all in 64-bit arithmetic. *)
Fixpoint chained (from : Z) (blocks : list pi_block) (to : Z) : Prop :=
  match blocks with
  | [] => uint64_t from = uint64_t to
  | b :: rest => pb_offset b = uint64_t from ∧ chained (pb_offset b + pb_width b) rest to
  end.

(** How far, from the start of the partition, the collected blocks
    and the header reach: up to the start of the open block, or up to
    the end of the data file when no block is open. *)
Definition covered (w : writer_m) : Z := block_start_after w - _start_offset w.

(** The writer [w] is in the header of a partition that began at
    [w0]: only header records were written, their bytes are counted
    in [_partition_header_length], and no block is collected or open. *)
Definition hdr_inv (w0 w : writer_m) : Prop :=
  _start_offset w = data_offset w0 ∧
  _promoted_index w = [] ∧ _first_clustering w = None ∧
  ∃ hdr, _data w = _data w0 ++ hdr ∧
         Forall (λ r, is_body_record r = false) hdr ∧
         _partition_header_length w = uint64_t (Z.of_nat (length (data_bytes hdr))).

(** The writer [w] is in a partition that began at [w0]: header
    records, then body records; the header length counts the header
    bytes, the collected blocks follow each other from there, and
    header records are no longer owed once the body has begun. *)
Definition partition_inv (s : schema) (w0 w : writer_m) : Prop :=
  _start_offset w = data_offset w0 ∧
  (hdr_inv w0 w ∨ pending_header s w = []) ∧
  chained (_partition_header_length w) (_promoted_index w) (covered w) ∧
  (_first_clustering w = None ∨ is_Some (_last_clustering w)) ∧
  ∃ hdr body, _data w = _data w0 ++ hdr ++ body ∧
     Forall (λ r, is_body_record r = false) hdr ∧
     Forall (λ r, is_body_record r = true) body ∧
     _partition_header_length w = uint64_t (Z.of_nat (length (data_bytes hdr))).

(** As [partition_inv], with no header record owed. *)
Definition body_inv (s : schema) (w0 w : writer_m) : Prop :=
  partition_inv s w0 w ∧ pending_header s w = [].

End WriterInvariants.

(** * More sample inputs *)

Module SampleCodecs.

(** A string too long for a one-byte size field. *)
Definition long_string : bytes := List.repeat Byte.x00 256.

Definition histogram : estimated_histogram :=
  mk_estimated_histogram [1; 10] [5; 6; 7].

(** A member of a tagged union that holds a 32-bit integer. *)
Definition uint32_member : member_serdes Z :=
  mk_member_serdes (λ _, parse_uint 4) (λ _ _, 4) (λ _ x, Ok (write_int 4 x)).

(** The writer knows the tags 1 and 2, the reader the tag 1 only. *)
Definition writer_members (tag : Z) : option (member_serdes Z) :=
  if (tag =? 1) || (tag =? 2) then Some uint32_member else None.
Definition reader_members (tag : Z) : option (member_serdes Z) :=
  if tag =? 1 then Some uint32_member else None.

Definition elements : list (Z * Z) := [(1, 7); (2, 9)].

End SampleCodecs.

Module SampleToc.

(** Some of the component names of the 'la' format. *)
Definition component_map : list (component_type * string) :=
  [(Index, "Index.db"%string); (Data, "Data.db"%string); (TOC, "TOC.txt"%string);
   (Summary, "Summary.db"%string); (Filter, "Filter.db"%string);
   (Statistics, "Statistics.db"%string)].

Definition recognized : list component_type := [Data; Index; TOC].

Definition content : string :=
  match write_toc component_map false recognized with
  | Ok c => c
  | Throw _ => EmptyString
  end.

End SampleToc.

Module SampleStatisticsWrite.

(** Stand-ins for the metadata kinds declared elsewhere: integers of
    four, eight and two bytes. *)
Definition parse_c (v : sstable_version_types) : parser Z := parse_uint 4.
Definition parse_s (v : sstable_version_types) : parser Z := parse_uint 8.
Definition parse_h (v : sstable_version_types) : parser Z := parse_uint 2.
Definition write_c (v : sstable_version_types) (m : Z) : result bytes := Ok (write_int 4 m).
Definition write_s (v : sstable_version_types) (m : Z) : result bytes := Ok (write_int 8 m).
Definition write_h (v : sstable_version_types) (m : Z) : result bytes := Ok (write_int 2 m).
Definition size_v (v : sstable_version_types) (m : validation_metadata) : Z :=
  10 + Z.of_nat (length (partitioner m)).
Definition size_c (v : sstable_version_types) (m : Z) : Z := 4.
Definition size_s (v : sstable_version_types) (m : Z) : Z := 8.
Definition size_h (v : sstable_version_types) (m : Z) : Z := 2.

Definition partitioner_name : bytes := [Byte.x4d; Byte.x33].

(** A Statistics file whose table holds one entry, of a type that
    [parse] has no case for. *)
Definition unknown_type : bytes := write_int 4 1 ++ write_int 4 7 ++ write_int 4 12.

End SampleStatisticsWrite.

Module SampleStatisticsHeader.


End SampleStatisticsHeader.

Module SampleGenerate.

(** The three partitions of [SampleRun] as the writer starts them;
    compressed, the data file would be 100 and 120 bytes long where
    the second and the third partition start. *)
Definition wp1 : written_partition :=
  mk_written_partition (Sample.get_token Sample.key_a) Sample.key_a 0 0 0.
Definition wp2 : written_partition :=
  mk_written_partition (Sample.get_token Sample.key_bc) Sample.key_bc 30000 100 15.
Definition wp3 : written_partition :=
  mk_written_partition (Sample.get_token Sample.key_d) Sample.key_d 30040 120 31.

(** The size of their index file: 14 bytes and the key for every entry. *)
Definition index_size : Z := 46.

End SampleGenerate.

Module SampleWriterMore.

#[local] Existing Instance SampleWriter.env.

(** A range tombstone that starts after [SampleWriter.rt_upto_2] ends. *)
Definition rt_from_5 : range_tombstone :=
  mk_range_tombstone 5 bound_kind.incl_start 9 bound_kind.incl_end SampleWriter.t2.

(** A partition with a tombstone, a static row and three rows. *)
Definition partition_rows : partition :=
  mk_partition [Byte.x35] (Some SampleWriter.t1) (Some [Byte.x2a])
    [clustered_row (1, [Byte.x2a]) [];
     clustered_row (2, [Byte.x2b]) [];
     clustered_row (3, [Byte.x2c]) []]
    [].

(** A schema that is not compound and has static columns. *)
Definition not_compound : schema := mk_schema 1 false.

End SampleWriterMore.

(** * Properties *)

(** ** Codecs and the reader *)

Lemma length_be_split n z : length (be_split n z) = n.
Proof. unfold be_split. rewrite length_rev. apply length_le_split. Qed.

Lemma be_combine_split n z :
  be_combine (be_split n z) = z mod 2 ^ (Z.of_nat n * 8).
Proof.
  unfold be_combine, be_split. rewrite rev_involutive.
  apply le_combine_split.
Qed.

Lemma be_combine_split_small n z :
  0 ≤ z < 2 ^ (Z.of_nat n * 8) → be_combine (be_split n z) = z.
Proof. intros H. rewrite be_combine_split. apply Z.mod_small. exact H. Qed.

Lemma le_combine_split_small n z :
  0 ≤ z < 2 ^ (Z.of_nat n * 8) → le_combine (le_split n z) = z.
Proof. intros H. rewrite le_combine_split. apply Z.mod_small. exact H. Qed.

Lemma at_pos_whole data : at_pos data 0 data.
Proof. unfold at_pos. rewrite drop_0. apply firstn_all. Qed.

Lemma at_pos_app data p x y :
  at_pos data p (x ++ y) → at_pos data p x ∧ at_pos data (p + length x) y.
Proof.
  unfold at_pos. rewrite length_app. intros H. split.
  - transitivity (take (length x) (take (length x + length y) (drop p data))).
    + rewrite take_take. f_equal. lia.
    + rewrite H. apply take_app_length.
  - rewrite <- drop_drop. rewrite take_drop_commute. rewrite H.
    apply drop_app_length.
Qed.

Lemma read_exactly_at data p x :
  at_pos data p x →
  read_exactly (length x) (mk_reader data p) = Ok (x, mk_reader data (p + length x)).
Proof. unfold at_pos, read_exactly. simpl. intros ->. reflexivity. Qed.

Lemma check_buf_size_ok (buf : bytes) r :
  check_buf_size buf (length buf) r = Ok (tt, r).
Proof. unfold check_buf_size. rewrite Nat.ltb_irrefl. reflexivity. Qed.

Lemma parse_uint_at data p n z :
  at_pos data p (write_int n z) → 0 ≤ z < 2 ^ (Z.of_nat n * 8) →
  parse_uint n (mk_reader data p) = Ok (z, mk_reader data (p + n)).
Proof.
  intros Hat Hz. unfold parse_uint, pbind.
  pose proof (read_exactly_at _ _ _ Hat) as Hr.
  unfold write_int in Hr. rewrite length_be_split in Hr. rewrite Hr.
  rewrite <- (length_be_split n z) at 2. rewrite check_buf_size_ok.
  unfold pret. rewrite <- (length_be_split n z) at 1. rewrite firstn_all.
  rewrite be_combine_split_small by exact Hz. reflexivity.
Qed.

Lemma parse_bytes_at data p (x : bytes) :
  at_pos data p x →
  parse_bytes (length x) (mk_reader data p) = Ok (x, mk_reader data (p + length x)).
Proof.
  intros Hat. unfold parse_bytes, pbind.
  rewrite (read_exactly_at _ _ _ Hat), check_buf_size_ok.
  unfold pret. rewrite firstn_all. reflexivity.
Qed.

Lemma write_disk_string_ok n (s : bytes) :
  Z.of_nat (length s) < 2 ^ (Z.of_nat n * 8) →
  write_disk_string n s = Ok (write_int n (Z.of_nat (length s)) ++ s).
Proof.
  intros H. unfold write_disk_string, check_truncate_and_assign, wrap.
  rewrite Z.mod_small by lia. rewrite Z.eqb_refl. reflexivity.
Qed.

Lemma parse_disk_string_at data p n (s : bytes) :
  Z.of_nat (length s) < 2 ^ (Z.of_nat n * 8) →
  at_pos data p (write_int n (Z.of_nat (length s)) ++ s) →
  parse_disk_string n (mk_reader data p)
  = Ok (s, mk_reader data (p + n + length s)).
Proof.
  intros Hlen Hat. apply at_pos_app in Hat as [H1 H2].
  unfold parse_disk_string, pbind.
  rewrite (parse_uint_at _ _ _ _ H1) by lia.
  rewrite Nat2Z.id. unfold write_int in H2. rewrite length_be_split in H2.
  apply parse_bytes_at. exact H2.
Qed.

(** ** Summary: layout lemmas *)

Lemma entry_size_pos e : 8 ≤ entry_size e.
Proof. unfold entry_size. lia. Qed.

Lemma entries_size_nonneg es : 0 ≤ entries_size es.
Proof. induction es as [|e es IH]; simpl; [lia|]. pose proof (entry_size_pos e). lia. Qed.

Lemma entries_size_app es1 es2 :
  entries_size (es1 ++ es2) = entries_size es1 + entries_size es2.
Proof. induction es1 as [|e es1 IH]; simpl; lia. Qed.

Lemma length_entry_offsets b es : length (entry_offsets b es) = length es.
Proof. revert b. induction es as [|e es IH]; intros b; simpl; [|rewrite IH]; reflexivity. Qed.

Lemma entry_offsets_app b es1 es2 :
  entry_offsets b (es1 ++ es2)
  = entry_offsets b es1 ++ entry_offsets (b + entries_size es1) es2.
Proof.
  revert b. induction es1 as [|e es1 IH]; intros b; simpl.
  - f_equal. lia.
  - rewrite IH. do 3 f_equal. lia.
Qed.

Lemma entry_offsets_lookup b es i e :
  es !! i = Some e →
  entry_offsets b es !! i = Some (b + entries_size (take i es)).
Proof.
  revert b i. induction es as [|e' es IH]; intros b i H; [discriminate|].
  destruct i as [|i]; simpl in *.
  - f_equal. lia.
  - rewrite (IH _ _ H). f_equal. lia.
Qed.

Lemma entry_offsets_bounds b es :
  0 ≤ b → Forall (λ x, b ≤ x ≤ b + entries_size es) (entry_offsets b es).
Proof.
  revert b. induction es as [|e es IH]; intros b Hb; simpl; constructor.
  - pose proof (entries_size_nonneg es). pose proof (entry_size_pos e). lia.
  - pose proof (entry_size_pos e).
    eapply Forall_impl; [apply IH; lia|]. simpl. intros x Hx. lia.
Qed.

Lemma length_write_summary_entry v e :
  Z.of_nat (length (write_summary_entry v e)) = entry_size e.
Proof.
  unfold write_summary_entry, entry_size.
  rewrite length_app, length_le_split. unfold sizeof_u64. lia.
Qed.

Lemma length_write_summary_entries v es :
  Z.of_nat (length (concat (map (write_summary_entry v) es))) = entries_size es.
Proof.
  induction es as [|e es IH]; simpl; [reflexivity|].
  rewrite length_app, Nat2Z.inj_add, IH, length_write_summary_entry. reflexivity.
Qed.

Lemma length_write_positions (ps : list Z) :
  length (concat (map (le_split sizeof_u32) ps)) = (length ps * 4)%nat.
Proof.
  induction ps as [|x ps IH]; [reflexivity|].
  cbn [map concat]. rewrite length_app, length_le_split, IH. reflexivity.
Qed.

Lemma length_write_summary_header h : length (write_summary_header h) = 24%nat.
Proof.
  unfold write_summary_header, write_int.
  rewrite !length_app, !length_be_split. reflexivity.
Qed.

(** ** Summary: seal_summary *)

Lemma seal_positions_spec es : ∀ ps m,
  0 ≤ m → m + entries_size es < 2 ^ 32 →
  seal_positions es ps m = (ps ++ entry_offsets m es, m + entries_size es).
Proof.
  induction es as [|e es IH]; intros ps m Hm Hb; simpl.
  - rewrite app_nil_r. f_equal. lia.
  - pose proof (entries_size_nonneg es). pose proof (entry_size_pos e).
    simpl in Hb. unfold uint32_t, uint64_t, wrap, sizeof_u64.
    rewrite (Z.mod_small m) by lia.
    rewrite (Z.mod_small (m + _)) by (unfold entry_size in *; lia).
    rewrite IH by (unfold entry_size in *; lia).
    rewrite <- app_assoc. simpl. unfold entry_size.
    f_equal. lia.
Qed.

(** ** Summary: parse after write *)

Lemma read_positions_write (ps : list Z) :
  Forall (λ x, 0 ≤ x < 2 ^ 32) ps →
  read_positions (length ps) (concat (map (le_split sizeof_u32) ps)) = ps.
Proof.
  induction 1 as [|x ps Hx _ IH]; [reflexivity|].
  cbn [length map concat read_positions].
  rewrite take_app_length' by (rewrite length_le_split; reflexivity).
  rewrite drop_app_length' by (rewrite length_le_split; reflexivity).
  rewrite IH. f_equal. apply le_combine_split_small. exact Hx.
Qed.

Lemma parse_summary_header_at data p h :
  at_pos data p (write_summary_header h) →
  0 ≤ min_index_interval h < 2 ^ 32 → 0 ≤ size h < 2 ^ 32 →
  0 ≤ memory_size h < 2 ^ 64 → 0 ≤ sampling_level h < 2 ^ 32 →
  0 ≤ size_at_full_sampling h < 2 ^ 32 →
  parse_summary_header (mk_reader data p) = Ok (h, mk_reader data (p + 24)).
Proof.
  intros Hat H1 H2 H3 H4 H5. unfold write_summary_header in Hat.
  apply at_pos_app in Hat as [A1 Hat]. apply at_pos_app in Hat as [A2 Hat].
  apply at_pos_app in Hat as [A3 Hat]. apply at_pos_app in Hat as [A4 A5].
  unfold write_int in A2, A3, A4, A5. rewrite !length_be_split in *.
  unfold parse_summary_header, pbind.
  rewrite (parse_uint_at _ _ _ _ A1) by exact H1.
  rewrite (parse_uint_at _ _ _ _ A2) by exact H2.
  rewrite (parse_uint_at _ _ _ _ A3) by exact H3.
  rewrite (parse_uint_at _ _ _ _ A4) by exact H4.
  rewrite (parse_uint_at _ _ _ _ A5) by exact H5.
  unfold pret. destruct h; simpl. do 3 f_equal. lia.
Qed.

Section SummaryRoundTrip.

Variable get_token : bytes → bytes.

(** The positions the entries loop walks: the offsets of the entries
    followed by the boundary. *)
Lemma entry_bounds_cons b e es :
  entry_offsets b (e :: es) ++ [b + entries_size (e :: es)]
  = b :: (entry_offsets (b + entry_size e) es
          ++ [b + entry_size e + entries_size es]).
Proof. simpl. do 3 f_equal. lia. Qed.

Lemma entry_bounds_head b es :
  nth 0 (entry_offsets b es ++ [b + entries_size es]) 0
  = if es is [] then b + 0 else b.
Proof. destruct es; reflexivity. Qed.

Lemma parse_summary_entries_at v data es : ∀ pre b p,
  at_pos data p (concat (map (write_summary_entry v) es)) →
  Forall (λ e, token e = get_token (key e)) es →
  Forall (λ e, 0 ≤ position e < 2 ^ 64) es →
  0 ≤ b → b + entries_size es < 2 ^ 32 →
  parse_summary_entries get_token (length es)
    (pre ++ entry_offsets b es ++ [b + entries_size es]) (length pre)
    (mk_reader data p)
  = Ok (es, mk_reader data
              (p + length (concat (map (write_summary_entry v) es)))).
Proof.
  induction es as [|e es IH]; intros pre b p Hat Htok Hpos Hb Hlt.
  - simpl. unfold pret. do 3 f_equal. lia.
  - inversion Htok as [|? ? Ht Htok']; subst.
    inversion Hpos as [|? ? Hp Hpos']; subst.
    pose proof (entries_size_nonneg es) as Hes.
    pose proof (entry_size_pos e) as Hep.
    assert (Hlt' : b + entry_size e + entries_size es < 2 ^ 32)
      by (cbn [entries_size] in Hlt; lia).
    cbn [map concat] in Hat. apply at_pos_app in Hat as [Hat1 Hat2].
    rewrite entry_bounds_cons.
    cbn [length parse_summary_entries].
    replace (nth (length pre) (pre ++ b :: _) 0) with b
      by (rewrite app_nth2, Nat.sub_diag by lia; reflexivity).
    replace (nth (S (length pre))
               (pre ++ b :: entry_offsets (b + entry_size e) es
                         ++ [b + entry_size e + entries_size es]) 0)
      with (b + entry_size e).
    2:{ rewrite app_nth2 by lia.
        replace (S (length pre) - length pre)%nat with 1%nat by lia.
        cbn [nth]. rewrite entry_bounds_head. destruct es; lia. }
    assert (Hsz : uint32_t (b + entry_size e - b) = entry_size e).
    { unfold uint32_t, wrap. replace (b + entry_size e - b) with (entry_size e) by lia.
      apply Z.mod_small. lia. }
    rewrite Hsz.
    assert (Hlen : Z.to_nat (entry_size e) = length (write_summary_entry v e)).
    { rewrite <- length_write_summary_entry with (v := v). lia. }
    unfold pbind at 1. rewrite Hlen, (read_exactly_at _ _ _ Hat1).
    unfold pbind at 1. rewrite check_buf_size_ok.
    assert (Hks : Z.to_nat (uint32_t (entry_size e - 8)) = length (key e)).
    { unfold uint32_t, wrap, entry_size in *.
      rewrite Z.mod_small by lia. lia. }
    rewrite Hks.
    assert (Hk : take (length (key e)) (write_summary_entry v e) = key e)
      by apply take_app_length.
    assert (Hd : drop (length (key e)) (write_summary_entry v e)
                 = le_split sizeof_u64 (position e))
      by apply drop_app_length.
    rewrite Hk, Hd.
    rewrite (take_ge (le_split sizeof_u64 (position e)))
      by (rewrite length_le_split; reflexivity).
    rewrite le_combine_split_small by exact Hp.
    rewrite <- Ht.
    replace (pre ++ b :: entry_offsets (b + entry_size e) es
                       ++ [b + entry_size e + entries_size es])
      with ((pre ++ [b]) ++ entry_offsets (b + entry_size e) es
                       ++ [b + entry_size e + entries_size es])
      by (rewrite <- app_assoc; reflexivity).
    replace (S (length pre)) with (length (pre ++ [b]))
      by (rewrite length_app; simpl; lia).
    unfold pbind. rewrite (IH _ _ _ Hat2 Htok' Hpos').
    + unfold pret. destruct e; simpl. do 3 f_equal.
      rewrite length_app. lia.
    + lia.
    + lia.
Qed.

End SummaryRoundTrip.

(** ** Summary: the positions array after seal_summary *)

(** Two entries with keys of one and two bytes: the positions array
    takes 8 bytes, the entries 9 and 10. *)
Example seal_two_entries :
  seal_summary Sample.get_size_at_full_sampling Sample.two_entries
    (Some Sample.key_a) (Some Sample.key_bc) Sample.state_after_two
  = Some Sample.two_entries_sealed.
Proof. reflexivity. Qed.

(** C1 (as amended): after [seal_summary] on a summary whose positions
    are still empty, with [n] entries that fit the 32-bit positions,
    [positions[i]] is the byte offset of entry [i] measured from the
    start of the positions array, that is from the end of the header:
    [positions[i] = 4 * n + ] the sizes of the entries before [i], so
    that consecutive positions differ by [key_len(i) + 8]; and
    [memory_size] is the number of bytes of the positions array and the
    entries region together. *)
Theorem seal_summary_positions
    (get_size_at_full_sampling : Z → Z → Z)
    (s : summary) (fk : bytes) (lk : option bytes) (st : index_sampling_state) :
  positions s = [] →
  4 * Z.of_nat (length (entries s)) + entries_size (entries s) < 2 ^ 32 →
  ∃ s', seal_summary get_size_at_full_sampling s (Some fk) lk st = Some s' ∧
        entries s' = entries s ∧
        length (positions s') = length (entries s) ∧
        (∀ i e, entries s !! i = Some e →
           positions s' !! i
           = Some (4 * Z.of_nat (length (entries s)) + entries_size (take i (entries s)))) ∧
        (∀ i e a b, entries s !! i = Some e →
           positions s' !! i = Some a → positions s' !! S i = Some b →
           b = a + Z.of_nat (length (key e)) + 8) ∧
        memory_size (header s')
        = 4 * Z.of_nat (length (entries s)) + entries_size (entries s).
Proof.
  intros Hps Hlt. unfold seal_summary.
  pose proof (entries_size_nonneg (entries s)) as Hnn.
  assert (Hn : uint32_t (Z.of_nat (length (entries s))) = Z.of_nat (length (entries s))).
  { unfold uint32_t, wrap. apply Z.mod_small. lia. }
  rewrite Hn.
  assert (Hm : uint64_t (Z.of_nat (length (entries s)) * Z.of_nat sizeof_u32)
               = 4 * Z.of_nat (length (entries s))).
  { unfold uint64_t, wrap, sizeof_u32. rewrite Z.mod_small by lia. lia. }
  rewrite Hm, seal_positions_spec, Hps by lia.
  eexists. split; [reflexivity|]. cbn [entries positions header memory_size app].
  split; [reflexivity|]. split; [apply length_entry_offsets|].
  split; [intros i e He; apply (entry_offsets_lookup _ _ _ _ He)|].
  split; [|reflexivity].
  intros i e a b He Ha Hb.
  rewrite (entry_offsets_lookup _ _ _ _ He) in Ha.
  destruct (entries s !! S i) as [e'|] eqn:He'.
  - rewrite (entry_offsets_lookup _ _ _ _ He') in Hb.
    rewrite (take_S_r _ _ _ He), entries_size_app in Hb. simpl in Hb.
    inversion Ha; inversion Hb; subst. unfold entry_size. lia.
  - apply lookup_ge_None in He'.
    rewrite lookup_ge_None_2 in Hb by (rewrite length_entry_offsets; exact He').
    discriminate.
Qed.

(** What [seal_summary] produces is well-formed, as long as the
    summary fits the 32-bit positions and the entries and keys are
    what the writer puts there. *)
Lemma seal_summary_wf
    (get_token : bytes → bytes) (get_size_at_full_sampling : Z → Z → Z)
    (s s' : summary) (fk lk : option bytes) (st : index_sampling_state) :
  positions s = [] →
  0 ≤ min_index_interval (header s) < 2 ^ 32 →
  0 ≤ sampling_level (header s) < 2 ^ 32 →
  4 * Z.of_nat (length (entries s)) + entries_size (entries s) < 2 ^ 32 →
  Forall (λ e, token e = get_token (key e)) (entries s) →
  Forall (λ e, 0 ≤ position e < 2 ^ 64) (entries s) →
  (∀ k, fk = Some k ∨ lk = Some k → Z.of_nat (length k) < 2 ^ 32) →
  seal_summary get_size_at_full_sampling s fk lk st = Some s' →
  summary_wf get_token s'.
Proof.
  intros Hps Hmii Hsl Hlt Htok Hpos Hkeys. unfold seal_summary.
  pose proof (entries_size_nonneg (entries s)) as Hnn.
  assert (Hn : uint32_t (Z.of_nat (length (entries s))) = Z.of_nat (length (entries s)))
    by (unfold uint32_t, wrap; apply Z.mod_small; lia).
  rewrite Hn.
  assert (Hm : uint64_t (Z.of_nat (length (entries s)) * Z.of_nat sizeof_u32)
               = 4 * Z.of_nat (length (entries s)))
    by (unfold uint64_t, wrap, sizeof_u32; rewrite Z.mod_small by lia; lia).
  rewrite Hm, seal_positions_spec, Hps by lia.
  destruct fk as [k|]; [|discriminate]. intros [= <-].
  constructor; cbn [header positions entries first_key last_key min_index_interval
                    sampling_level size_at_full_sampling size memory_size app];
    try assumption; try reflexivity.
  - unfold uint32_t, wrap. apply Z.mod_pos_bound. lia.
  - apply Hkeys. left. reflexivity.
  - destruct lk as [k'|]; apply Hkeys; [right|left]; reflexivity.
Qed.

(** ** Summary: load and save *)

(** The layout on disk: a big-endian header, little-endian positions,
    the entries (key bytes and little-endian position), and the two
    keys with their 32-bit lengths. *)
Example write_two_entries_sealed :
  write_summary mc Sample.two_entries_sealed
  = Ok ([Byte.x00; Byte.x00; Byte.x00; Byte.x80] ++ [Byte.x00; Byte.x00; Byte.x00; Byte.x02]
        ++ [Byte.x00; Byte.x00; Byte.x00; Byte.x00; Byte.x00; Byte.x00; Byte.x00; Byte.x1b]
        ++ [Byte.x00; Byte.x00; Byte.x00; Byte.x80] ++ [Byte.x00; Byte.x00; Byte.x00; Byte.x02]
        ++ [Byte.x08; Byte.x00; Byte.x00; Byte.x00] ++ [Byte.x11; Byte.x00; Byte.x00; Byte.x00]
        ++ [Byte.x61] ++ [Byte.x00; Byte.x00; Byte.x00; Byte.x00; Byte.x00; Byte.x00; Byte.x00; Byte.x00]
        ++ [Byte.x62; Byte.x63]
        ++ [Byte.x0f; Byte.x00; Byte.x00; Byte.x00; Byte.x00; Byte.x00; Byte.x00; Byte.x00]
        ++ [Byte.x00; Byte.x00; Byte.x00; Byte.x01; Byte.x61]
        ++ [Byte.x00; Byte.x00; Byte.x00; Byte.x02; Byte.x62; Byte.x63]).
Proof. vm_compute. reflexivity. Qed.

(** A file cut off inside the positions array is refused. *)
Example parse_summary_short_read :
  run_parser (parse_summary Sample.get_token mc)
    (take 30 (match write_summary mc Sample.two_entries_sealed with
              | Ok b => b
              | Throw _ => []
              end))
  = Throw (bufsize_mismatch_exception 6 8).
Proof. vm_compute. reflexivity. Qed.

(** C2: for every well-formed summary [s], [write] succeeds and
    parsing its output yields [s] again; before the final [pop_back]
    the positions carry one more element, the boundary, equal to
    [header.memory_size], and the positions that are exposed have
    exactly [header.size] elements. *)
Theorem summary_parse_write_roundtrip
    (get_token : bytes → bytes) (v : sstable_version_types) (s : summary) :
  summary_wf get_token s →
  ∃ out, write_summary v s = Ok out ∧
         run_parser (parse_summary get_token v) out = Ok s ∧
         run_parser (parse_summary_load get_token v) out
         = Ok (set_positions s (positions s ++ [memory_size (header s)])) ∧
         Z.of_nat (length (positions s)) = size (header s).
Proof.
  intros [Hmii Hsl Hsafs Hsize Hmem Hmb Hpos Htok Hep Hfk Hlk].
  pose proof (entries_size_nonneg (entries s)) as Hnn.
  set (n := length (entries s)) in *.
  unfold write_summary.
  rewrite !write_disk_string_ok by assumption. cbn [rbind].
  eexists. split; [reflexivity|].
  match goal with |- run_parser _ ?d = _ ∧ _ => set (data := d) end.
  pose proof (at_pos_whole data) as Hat. unfold data at 2 in Hat.
  apply at_pos_app in Hat as [Ahdr Hat]. apply at_pos_app in Hat as [Apos Hat].
  apply at_pos_app in Hat as [Aent Hat]. apply at_pos_app in Hat as [Afk Alk].
  rewrite length_write_summary_header in *.
  rewrite length_write_positions in *.
  assert (Hlp : length (positions s) = n)
    by (rewrite Hpos; apply length_entry_offsets).
  rewrite Hlp in *.
  assert (Hle : length (concat (map (write_summary_entry v) (entries s)))
                = Z.to_nat (entries_size (entries s)))
    by (rewrite <- (length_write_summary_entries v); lia).
  assert (Hload :
    parse_summary_load get_token v (mk_reader data 0)
    = Ok (set_positions s (positions s ++ [memory_size (header s)]),
          mk_reader data (24 + n * 4 + Z.to_nat (entries_size (entries s))))).
  { unfold parse_summary_load. unfold pbind at 1.
    rewrite (parse_summary_header_at _ _ _ Ahdr) by lia.
    unfold pbind at 1. unfold parse_summary_positions, pbind at 1.
    replace (Z.to_nat (size (header s)) * sizeof_u32)%nat
      with (length (concat (map (le_split sizeof_u32) (positions s))))
      by (rewrite length_write_positions, Hlp, Hsize; unfold sizeof_u32; lia).
    rewrite (read_exactly_at _ _ _ Apos).
    unfold pbind at 1. rewrite check_buf_size_ok. unfold pret at 1.
    replace (Z.to_nat (size (header s))) with (length (positions s)) by lia.
    rewrite read_positions_write.
    2:{ rewrite Hpos. eapply Forall_impl; [apply entry_offsets_bounds; lia|].
        simpl. intros x Hx. fold n in Hx. lia. }
    assert (Hu : uint32_t (memory_size (header s)) = memory_size (header s))
      by (unfold uint32_t, wrap; apply Z.mod_small; lia).
    rewrite Hu.
    unfold pbind at 1, seek at 1. cbn [file_data].
    assert (Hseek : Z.to_nat (uint64_t (Z.of_nat sizeof_summary_header
                                        + memory_size (header s)))
                    = (0 + 24 + n * 4 + length (concat (map (write_summary_entry v)
                                                        (entries s))))%nat).
    { unfold uint64_t, wrap, sizeof_summary_header.
      rewrite Z.mod_small by lia. rewrite Hle. lia. }
    rewrite Hseek.
    unfold pbind at 1.
    rewrite (parse_disk_string_at data _ 4 (first_key s) Hfk Afk).
    unfold pbind at 1.
    unfold write_int in Alk. rewrite length_app, length_be_split in Alk.
    replace (0 + 24 + n * 4 + length (concat (map (write_summary_entry v) (entries s)))
             + 4 + length (first_key s))%nat
      with (0 + 24 + n * 4 + length (concat (map (write_summary_entry v) (entries s)))
             + (4 + length (first_key s)))%nat by lia.
    rewrite (parse_disk_string_at data _ 4 (last_key s) Hlk Alk).
    unfold pbind at 1, seek at 1. cbn [file_data].
    assert (H0 : nth 0 (positions s ++ [memory_size (header s)]) 0 = 4 * Z.of_nat n).
    { rewrite Hpos, Hmem. fold n. rewrite entry_bounds_head.
      destruct (entries s); lia. }
    rewrite H0.
    replace (Z.to_nat (4 * Z.of_nat n + Z.of_nat sizeof_summary_header))
      with (0 + 24 + n * 4)%nat by (unfold sizeof_summary_header; lia).
    pose proof (parse_summary_entries_at get_token v data (entries s) []
                  (4 * Z.of_nat n) _ Aent Htok Hep ltac:(lia) ltac:(lia)) as Hents.
    cbn [app length] in Hents. rewrite <- Hmem, <- Hpos in Hents.
    unfold pbind. rewrite Hlp. fold n in Hents. rewrite Hents.
    unfold pret, set_positions. rewrite Hle. destruct s; reflexivity. }
  split; [|split].
  - unfold run_parser, parse_summary, pbind. rewrite Hload. unfold pret.
    cbn [positions set_positions]. rewrite removelast_last.
    destruct s; reflexivity.
  - unfold run_parser. rewrite Hload. reflexivity.
  - lia.
Qed.

Lemma seal_summary_positions_witness :
  positions Sample.two_entries = [] ∧
  4 * Z.of_nat (length (entries Sample.two_entries))
    + entries_size (entries Sample.two_entries) < 2 ^ 32 ∧
  ∃ s', seal_summary Sample.get_size_at_full_sampling Sample.two_entries
          (Some Sample.key_a) (Some Sample.key_bc) Sample.state_after_two = Some s' ∧
        positions s' !! 0%nat = Some 8 ∧ positions s' !! 1%nat = Some 17 ∧
        memory_size (header s') = 27.
Proof.
  split; [reflexivity|]. split; [reflexivity|].
  destruct (seal_summary_positions Sample.get_size_at_full_sampling
              Sample.two_entries Sample.key_a (Some Sample.key_bc)
              Sample.state_after_two eq_refl eq_refl)
    as (s' & Hs & _ & _ & Hi & _ & Hm).
  exists s'. split; [exact Hs|]. split; [|split].
  - exact (Hi 0%nat _ eq_refl).
  - exact (Hi 1%nat _ eq_refl).
  - exact Hm.
Defined.

(** C1 (as stated) fails: with a single entry the first position is 4,
    the size of the positions array, and not 0. *)
Lemma seal_summary_first_position_not_zero :
  ∃ s', seal_summary Sample.get_size_at_full_sampling Sample.one_entry
          (Some Sample.key_a) None (mk_index_sampling_state 22000 1 2000) = Some s' ∧
        positions s' = [4] ∧ positions s' !! 0%nat ≠ Some 0 ∧
        memory_size (header s') = 13.
Proof.
  eexists. split; [reflexivity|]. split; [reflexivity|].
  split; [discriminate|reflexivity].
Qed.

Lemma summary_parse_write_roundtrip_witness :
  summary_wf Sample.get_token Sample.two_entries_sealed ∧
  ∃ out, write_summary mc Sample.two_entries_sealed = Ok out ∧
         run_parser (parse_summary Sample.get_token mc) out
         = Ok Sample.two_entries_sealed.
Proof.
  assert (Hwf : summary_wf Sample.get_token Sample.two_entries_sealed).
  { constructor; cbn; try (split; [discriminate|reflexivity]);
      try reflexivity; repeat constructor; discriminate. }
  split; [exact Hwf|].
  destruct (summary_parse_write_roundtrip Sample.get_token mc
              Sample.two_entries_sealed Hwf) as (out & Hw & Hp & _).
  exists out. split; [exact Hw|exact Hp].
Defined.

(** ** Summary: sampling *)

(** [prepare_summary] touches the header only: the writer starts from
    a summary without entries and positions. *)
Lemma prepare_summary_entries (level : Z) (s s' : summary) (n interval : Z) :
  prepare_summary level s n interval = Some (Ok s') →
  entries s' = entries s ∧ positions s' = positions s.
Proof.
  unfold prepare_summary. destruct (n <? 1); [discriminate|].
  destruct (_ >? _); [discriminate|]. intros [= <-]. split; reflexivity.
Qed.

Example prepare_summary_default :
  prepare_summary 128 summary_default 3 128 = Some (Ok SampleRun.prepared).
Proof. reflexivity. Qed.

(** C3: [maybe_add_summary_entry] always counts the partition; below
    the threshold it changes nothing else; at or above the threshold it
    appends exactly the entry [(token, key, index_offset)] and advances
    the threshold by [summary_byte_cost * (8 + 2 + key.len)] in 64-bit
    unsigned arithmetic, which is the plain sum when it fits 64 bits. *)
Theorem maybe_add_summary_entry_spec
    (s : summary) (tok k : bytes) (data_offset index_offset : Z)
    (st : index_sampling_state) :
  let r := maybe_add_summary_entry s tok k data_offset index_offset st in
  partition_count (snd r) = uint64_t (partition_count st + 1) ∧
  summary_byte_cost (snd r) = summary_byte_cost st ∧
  (data_offset < next_data_offset_to_write_summary st →
     fst r = s ∧
     next_data_offset_to_write_summary (snd r)
     = next_data_offset_to_write_summary st) ∧
  (next_data_offset_to_write_summary st ≤ data_offset →
     entries (fst r) = entries s ++ [mk_summary_entry tok k index_offset] ∧
     header (fst r) = header s ∧ positions (fst r) = positions s ∧
     first_key (fst r) = first_key s ∧ last_key (fst r) = last_key s ∧
     next_data_offset_to_write_summary (snd r)
     = uint64_t (next_data_offset_to_write_summary st
                 + summary_byte_cost st * (8 + 2 + Z.of_nat (length k))) ∧
     (0 ≤ next_data_offset_to_write_summary st → 0 ≤ summary_byte_cost st →
      next_data_offset_to_write_summary st
        + summary_byte_cost st * (8 + 2 + Z.of_nat (length k)) < 2 ^ 64 →
      next_data_offset_to_write_summary (snd r)
      = next_data_offset_to_write_summary st
        + summary_byte_cost st * (8 + 2 + Z.of_nat (length k)))).
Proof.
  unfold maybe_add_summary_entry.
  destruct (Z.geb_spec data_offset (next_data_offset_to_write_summary st)) as [Hge|Hlt];
    cbn [fst snd partition_count summary_byte_cost next_data_offset_to_write_summary].
  - split; [reflexivity|]. split; [reflexivity|]. split; [intros; lia|].
    intros _. cbn [set_entries entries header positions first_key last_key].
    repeat (split; [reflexivity|]).
    assert (Hw : uint64_t (next_data_offset_to_write_summary st
                   + uint64_t (summary_byte_cost st * (8 + 2 + Z.of_nat (length k))))
                 = uint64_t (next_data_offset_to_write_summary st
                   + summary_byte_cost st * (8 + 2 + Z.of_nat (length k)))).
    { unfold uint64_t, wrap. apply Zplus_mod_idemp_r. }
    split; [exact Hw|].
    intros H0 Hc Hfit. rewrite Hw. unfold uint64_t, wrap.
    apply Z.mod_small. split; [|exact Hfit].
    apply Z.add_nonneg_nonneg; [exact H0|]. apply Z.mul_nonneg_nonneg; lia.
  - split; [reflexivity|]. split; [reflexivity|].
    split; [intros _; split; reflexivity|]. intros; lia.
Qed.

Lemma maybe_add_summary_entry_spec_witness :
  let st := mk_index_sampling_state 22000 1 2000 in
  let r := maybe_add_summary_entry Sample.one_entry (Sample.get_token Sample.key_bc)
             Sample.key_bc 30000 15 st in
  entries (fst r) = entries Sample.two_entries ∧
  next_data_offset_to_write_summary (snd r) = 22000 + 2000 * (8 + 2 + 2).
Proof.
  pose proof (maybe_add_summary_entry_spec Sample.one_entry
                (Sample.get_token Sample.key_bc) Sample.key_bc 30000 15
                (mk_index_sampling_state 22000 1 2000)) as (_ & _ & _ & H).
  destruct H as (He & _ & _ & _ & _ & _ & Hn); [discriminate|].
  split; [exact He|]. apply Hn; [discriminate|discriminate|reflexivity].
Defined.

Section Sampling.

Variable get_size_at_full_sampling : Z → Z → Z.
Variable s0 : summary.
Variable cost : Z.

Lemma sampled_bytes_app es1 es2 :
  sampled_bytes (es1 ++ es2) = sampled_bytes es1 + sampled_bytes es2.
Proof. induction es1 as [|e es1 IH]; simpl; [reflexivity|]. rewrite IH. lia. Qed.

Lemma consume_partitions_snoc ps q :
  consume_partitions s0 cost (ps ++ [q])
  = consume_partition (consume_partitions s0 cost ps) q.
Proof. unfold consume_partitions. apply fold_left_app. Qed.

Lemma consume_partition_entries w q :
  entries (sw_summary (consume_partition w q))
  = entries (sw_summary w)
    ++ (if ps_data_offset q >=? next_data_offset_to_write_summary (sw_state w)
        then [index_entry_of q] else []).
Proof.
  unfold consume_partition, maybe_add_summary_entry.
  destruct (ps_data_offset q >=? _); cbn; [reflexivity|].
  symmetry. apply app_nil_r.
Qed.

Lemma consume_partition_positions w q :
  positions (sw_summary (consume_partition w q)) = positions (sw_summary w).
Proof.
  unfold consume_partition, maybe_add_summary_entry.
  destruct (ps_data_offset q >=? _); reflexivity.
Qed.

Lemma consume_partition_keys w q :
  sw_first_key (consume_partition w q)
  = Some (match sw_first_key w with None => ps_key q | Some k => k end) ∧
  sw_last_key (consume_partition w q) = Some (ps_key q).
Proof.
  unfold consume_partition.
  destruct (maybe_add_summary_entry _ _ _ _ _ _); cbn.
  destruct (sw_first_key w); split; reflexivity.
Qed.

Lemma consume_partition_threshold w q :
  threshold_inv cost w → threshold_inv cost (consume_partition w q).
Proof.
  intros [Hc Hn]. unfold threshold_inv, consume_partition, maybe_add_summary_entry.
  destruct (ps_data_offset q >=? _); cbn; split; try assumption.
  rewrite Hc, Hn, sampled_bytes_app. cbn [sampled_bytes fold_right key].
  unfold uint64_t, wrap. rewrite Zplus_mod_idemp_r, Zplus_mod_idemp_l.
  f_equal. ring.
Qed.

Lemma consume_partitions_threshold ps :
  entries s0 = [] → threshold_inv cost (consume_partitions s0 cost ps).
Proof.
  intros He. induction ps as [|q ps IH] using rev_ind.
  - split; [reflexivity|]. cbn. rewrite He. cbn.
    rewrite Z.mul_0_r. reflexivity.
  - rewrite consume_partitions_snoc. apply consume_partition_threshold, IH.
Qed.

Lemma consume_partitions_positions ps :
  positions (sw_summary (consume_partitions s0 cost ps)) = positions s0.
Proof.
  induction ps as [|q ps IH] using rev_ind; [reflexivity|].
  rewrite consume_partitions_snoc, consume_partition_positions. exact IH.
Qed.

Lemma consume_partitions_sublist ps :
  entries s0 = [] →
  sublist (entries (sw_summary (consume_partitions s0 cost ps)))
          (map index_entry_of ps).
Proof.
  intros He. induction ps as [|q ps IH] using rev_ind.
  - cbn. rewrite He. constructor.
  - rewrite consume_partitions_snoc, consume_partition_entries, map_app.
    apply sublist_app; [exact IH|].
    destruct (ps_data_offset q >=? _); [reflexivity|apply sublist_nil_l].
Qed.

Lemma consume_partitions_first p ps :
  entries s0 = [] → 0 ≤ ps_data_offset p →
  hd_error (entries (sw_summary (consume_partitions s0 cost (p :: ps))))
  = Some (index_entry_of p) ∧
  sw_first_key (consume_partitions s0 cost (p :: ps)) = Some (ps_key p) ∧
  sw_last_key (consume_partitions s0 cost (p :: ps)) = Some (ps_key (List.last ps p)).
Proof.
  intros He H0. induction ps as [|q ps IH] using rev_ind.
  - unfold consume_partitions. cbn [fold_left List.last].
    pose proof (consume_partition_entries (summary_writer_init s0 cost) p) as Hent.
    pose proof (consume_partition_keys (summary_writer_init s0 cost) p) as [Hf Hl].
    cbn [summary_writer_init sw_state sw_summary sw_first_key
         next_data_offset_to_write_summary] in Hent, Hf.
    rewrite He in Hent.
    destruct (Z.geb_spec (ps_data_offset p) 0) as [_|Hlt]; [|lia].
    rewrite Hent. repeat split; assumption.
  - destruct IH as (Hh & Hf & Hl).
    rewrite app_comm_cons, consume_partitions_snoc.
    pose proof (consume_partition_keys (consume_partitions s0 cost (p :: ps)) q)
      as [Hf' Hl'].
    rewrite consume_partition_entries, Hf', Hl', Hf. rewrite List.last_last.
    repeat split.
    destruct (entries (sw_summary (consume_partitions s0 cost (p :: ps))));
      [discriminate|exact Hh].
Qed.

End Sampling.

(** C8 (as amended): the sealed summary of a writer that consumed the
    partitions [p :: ps] starts with the first index entry, its entries
    are index entries in the order of the index, and its first and last
    keys are those of the first and last partitions; the last index
    entry need not be among the entries.  An index entry is sampled
    exactly when the data offset at the start of its partition has
    reached the threshold, and the threshold is [summary_byte_cost]
    times the [8 + 2 + key.len] bytes charged for the entries sampled
    so far (in 64-bit arithmetic): the sampling follows the data file,
    not the index. *)
Theorem sealed_summary_sampling
    (get_size_at_full_sampling : Z → Z → Z) (s0 : summary) (cost : Z)
    (p : partition_start) (ps : list partition_start) :
  entries s0 = [] → positions s0 = [] → 0 ≤ ps_data_offset p →
  ∃ s', sealed_summary get_size_at_full_sampling s0 cost (p :: ps) = Some s' ∧
        hd_error (entries s') = Some (index_entry_of p) ∧
        sublist (entries s') (map index_entry_of (p :: ps)) ∧
        first_key s' = ps_key p ∧
        last_key s' = ps_key (List.last ps p) ∧
        ∀ ps1 q ps2, p :: ps = ps1 ++ q :: ps2 →
          let w := consume_partitions s0 cost ps1 in
          next_data_offset_to_write_summary (sw_state w)
          = uint64_t (cost * sampled_bytes (entries (sw_summary w))) ∧
          entries (sw_summary (consume_partitions s0 cost (ps1 ++ [q])))
          = entries (sw_summary w)
            ++ (if ps_data_offset q >=? next_data_offset_to_write_summary (sw_state w)
                then [index_entry_of q] else []).
Proof.
  intros He Hp H0.
  destruct (consume_partitions_first s0 cost p ps He H0) as (Hh & Hf & Hl).
  unfold sealed_summary, seal_summary. rewrite Hf, Hl.
  destruct (seal_positions _ _ _) as [pos msize].
  eexists. split; [reflexivity|]. cbn [entries first_key last_key].
  split; [exact Hh|]. split; [apply consume_partitions_sublist, He|].
  split; [reflexivity|]. split; [reflexivity|].
  intros ps1 q ps2 _. cbn zeta. split.
  - apply (consume_partitions_threshold s0 cost ps1 He).
  - rewrite consume_partitions_snoc. apply consume_partition_entries.
Qed.

Lemma sealed_summary_sampling_witness :
  entries SampleRun.prepared = [] ∧ positions SampleRun.prepared = [] ∧
  0 ≤ ps_data_offset SampleRun.p1 ∧
  ∃ s', sealed_summary Sample.get_size_at_full_sampling SampleRun.prepared 2000
          [SampleRun.p1; SampleRun.p2; SampleRun.p3] = Some s' ∧
        hd_error (entries s') = Some (index_entry_of SampleRun.p1) ∧
        first_key s' = Sample.key_a ∧ last_key s' = Sample.key_d.
Proof.
  split; [reflexivity|]. split; [reflexivity|]. split; [discriminate|].
  destruct (sealed_summary_sampling Sample.get_size_at_full_sampling
              SampleRun.prepared 2000 SampleRun.p1 [SampleRun.p2; SampleRun.p3]
              eq_refl eq_refl ltac:(discriminate))
    as (s' & Hs & Hh & _ & Hf & Hl & _).
  exists s'. repeat split; assumption.
Defined.

(** C8 (as stated) fails.  With a byte cost of 2000 the first
    partition raises the threshold to 22000 and the second, at data
    offset 30000, to 46000; the third starts below it.  The sealed
    summary holds the first two index entries and not the last one,
    and its two samples are 15 bytes of index apart. *)
Lemma sealed_summary_misses_last_index_entry :
  ∃ s', sealed_summary Sample.get_size_at_full_sampling SampleRun.prepared 2000
          [SampleRun.p1; SampleRun.p2; SampleRun.p3] = Some s' ∧
        entries s' = [index_entry_of SampleRun.p1; index_entry_of SampleRun.p2] ∧
        ¬ In (index_entry_of SampleRun.p3) (entries s') ∧
        position (index_entry_of SampleRun.p2)
          - position (index_entry_of SampleRun.p1) = 15.
Proof.
  eexists. split; [reflexivity|]. split; [reflexivity|]. split; [|reflexivity].
  cbn. intros [H|[H|[]]]; discriminate.
Qed.

(** ** Statistics *)

#[local] Instance tag_le_total : Total tag_le.
Proof. intros e1 e2. unfold tag_le. lia. Qed.

#[local] Instance tag_le_trans : Transitive tag_le.
Proof. intros e1 e2 e3. unfold tag_le. lia. Qed.


Section StatisticsProofs.

Context {compaction_metadata stats_metadata serialization_header : Type}.
Variable parse_compaction_metadata : sstable_version_types → parser compaction_metadata.
Variable parse_stats_metadata : sstable_version_types → parser stats_metadata.
Variable parse_serialization_header : sstable_version_types → parser serialization_header.

Abbreviation parse_entries :=
  (parse_statistics_entries parse_compaction_metadata parse_stats_metadata
     parse_serialization_header).
Abbreviation parse_stats :=
  (parse_statistics parse_compaction_metadata parse_stats_metadata
     parse_serialization_header).




End StatisticsProofs.

(** The same table is accepted from an 'mc' sstable. *)
Example parse_statistics_only_header_mc :
  match run_parser (SampleStatistics.parse mc) SampleStatistics.only_header with
  | Ok s => offsets s = [(Serialization, 12)] ∧
            contents s !! Serialization = Some (metadata_serialization tt)
  | Throw _ => False
  end.
Proof. vm_compute. split; reflexivity. Qed.


(** A Validation entry that cannot be read ends the parse before the
    Serialization entry is reached: the error is that of the
    Validation entry. *)
Example parse_statistics_truncated_validation :
  parse_offsets la (mk_reader SampleStatistics.truncated 0)
  = Ok ([(Validation, 20); (Serialization, 20)],
        mk_reader SampleStatistics.truncated 20) ∧
  run_parser (SampleStatistics.parse la) SampleStatistics.truncated
  = Throw (bufsize_mismatch_exception 0 2).
Proof. split; vm_compute; reflexivity. Qed.


(** ** Table of contents *)

Lemma generate_toc_crc_compression {compressor : Type} (c : option compressor)
    (fp : Z) (recognized : gset component_type) :
  CRC ∉ recognized → CompressionInfo ∉ recognized →
  (CRC ∈ generate_toc c fp recognized ↔ c = None) ∧
  (CompressionInfo ∈ generate_toc c fp recognized ↔ c ≠ None).
Proof.
  intros Hcrc Hci. unfold generate_toc.
  assert (Hne : ∀ a b : component_type, a ≠ b → a ∈ ({[b]} : gset component_type) → False)
    by (intros a b Hab Hin%elem_of_singleton; contradiction).
  destruct c as [x|]; destruct (fp =? double_one);
    rewrite !elem_of_union, !elem_of_singleton;
    (split; split;
     [intros Hx|intros Hx|intros Hx|intros Hx]);
    first [ discriminate | reflexivity | tauto
          | exfalso; apply Hx; reflexivity
          | exfalso; intuition (first [contradiction | discriminate]) ].
Qed.

(** C7: in the TOC a writer generates for the sstable it is to write,
    exactly one of CRC and CompressionInfo is present: CompressionInfo
    when a compressor is configured, CRC when none is; the writer's
    [_compression_enabled] agrees. *)
Theorem writer_toc_crc_xor_compression {compressor : Type}
    (c : option compressor) (filter_fp_chance : Z) :
  let toc := (writer_toc c filter_fp_chance).1 in
  (CRC ∈ toc ↔ c = None) ∧
  (CompressionInfo ∈ toc ↔ c ≠ None) ∧
  ¬ (CRC ∈ toc ∧ CompressionInfo ∈ toc) ∧
  (CRC ∈ toc ∨ CompressionInfo ∈ toc) ∧
  (writer_toc c filter_fp_chance).2 = bool_decide (CompressionInfo ∈ toc).
Proof.
  cbn zeta. unfold writer_toc. cbn [fst snd].
  destruct (generate_toc_crc_compression c filter_fp_chance fresh_components)
    as [Hcrc Hci]; [set_solver|set_solver|].
  split; [exact Hcrc|]. split; [exact Hci|].
  split; [rewrite Hcrc, Hci; tauto|].
  split; [rewrite Hcrc, Hci; destruct c; [right; discriminate|left; reflexivity]|].
  unfold has_component.
  destruct c as [x|].
  - rewrite bool_decide_eq_false_2, bool_decide_eq_true_2; [reflexivity| |].
    + apply Hci. discriminate.
    + rewrite Hcrc. discriminate.
  - rewrite bool_decide_eq_true_2, bool_decide_eq_false_2; [reflexivity| |].
    + rewrite Hci. tauto.
    + apply Hcrc. reflexivity.
Qed.

(** ** The 'mc' writer *)

Section WriterProofs.

Context `{env : writer_env}.

Lemma to_deletion_time_empty : to_deletion_time tombstone_empty = live_deletion_time.
Proof. reflexivity. Qed.

Lemma to_deletion_time_not_set t :
  tombstone_bool t = false → to_deletion_time t = live_deletion_time.
Proof. unfold to_deletion_time. intros ->. reflexivity. Qed.

Lemma appends_body_refl w : appends_body w w.
Proof. exists []. rewrite app_nil_r. repeat split. constructor. Qed.

Lemma appends_body_trans w1 w2 w3 :
  appends_body w1 w2 → appends_body w2 w3 → appends_body w1 w3.
Proof.
  intros (b1 & D1 & F1 & T1 & S1 & I1) (b2 & D2 & F2 & T2 & S2 & I2).
  exists (b1 ++ b2). rewrite D2, D1, <- app_assoc.
  repeat split; try congruence. apply Forall_app. split; assumption.
Qed.

Lemma same_files_data_offset w w' : same_files w w' → data_offset w' = data_offset w.
Proof. intros (D & _). unfold data_offset. rewrite D. reflexivity. Qed.

Lemma maybe_set_pi_first_clustering_same info w :
  same_files w (maybe_set_pi_first_clustering info w).
Proof.
  unfold maybe_set_pi_first_clustering, same_files.
  destruct (_first_clustering w); repeat split.
Qed.

Lemma add_pi_block_same_files w : same_files w (add_pi_block w).
Proof.
  unfold add_pi_block, same_files.
  destruct (_first_clustering w), (_last_clustering w); repeat split.
Qed.

Lemma maybe_add_pi_block_same w : same_files w (maybe_add_pi_block w).
Proof.
  unfold maybe_add_pi_block.
  destruct (data_offset w >=? _block_next_start_offset w); [|repeat split].
  destruct (add_pi_block_same_files w) as (D & I & T & S & E & P).
  repeat split; assumption.
Qed.

Lemma write_clustered_data info rec w :
  _data (write_clustered info rec w)
  = _data w ++ [rec (uint64_t (data_offset w - _prev_row_start w))] ∧
  _tombstone_written (write_clustered info rec w) = _tombstone_written w ∧
  _static_row_written (write_clustered info rec w) = _static_row_written w ∧
  _index (write_clustered info rec w) = _index w ∧
  _end_open_marker (write_clustered info rec w) = _end_open_marker w.
Proof.
  unfold write_clustered.
  pose proof (maybe_set_pi_first_clustering_same info w) as H0.
  pose proof (same_files_data_offset _ _ H0) as Hoff.
  destruct H0 as (D0 & I0 & T0 & S0 & E0 & P0).
  set (w0 := maybe_set_pi_first_clustering info w) in *.
  match goal with |- context [maybe_add_pi_block ?x] => set (w2 := x) end.
  destruct (maybe_add_pi_block_same w2) as (D & I & T & S & E & _).
  rewrite D, I, T, S, E. unfold w2.
  cbn [_data _index _tombstone_written _static_row_written _end_open_marker write_data].
  rewrite D0, I0, T0, S0, E0, P0, Hoff. repeat split.
Qed.

Lemma consume_rt_marker_data m w :
  _data (consume_rt_marker m w)
  = _data w ++ [rec_rt_marker m (uint64_t (data_offset w - _prev_row_start w))] ∧
  _tombstone_written (consume_rt_marker m w) = _tombstone_written w ∧
  _static_row_written (consume_rt_marker m w) = _static_row_written w ∧
  _index (consume_rt_marker m w) = _index w ∧
  _end_open_marker (consume_rt_marker m w) = _end_open_marker w.
Proof. apply write_clustered_data. Qed.

Lemma consume_rt_marker_appends m w : appends_body w (consume_rt_marker m w).
Proof.
  destruct (consume_rt_marker_data m w) as (D & T & S & I & _).
  eexists. split; [exact D|]. repeat split; try assumption.
  constructor; [reflexivity|constructor].
Qed.

Lemma set_end_open_marker_appends m w : appends_body w (set_end_open_marker m w).
Proof. exists []. rewrite app_nil_r. repeat split. constructor. Qed.

(** Setting the open end marker and then writing a marker. *)
Ltac set_then_consume :=
  eapply appends_body_trans;
    [apply set_end_open_marker_appends|apply consume_rt_marker_appends].

Lemma flush_end_open_marker_appends w : appends_body w (flush_end_open_marker w).
Proof.
  unfold flush_end_open_marker. destruct (_end_open_marker w) as [m|].
  - set_then_consume.
  - apply appends_body_refl.
Qed.

Lemma write_rt_boundary_appends open rt w :
  appends_body w (write_rt_boundary open rt w).
Proof. unfold write_rt_boundary. set_then_consume. Qed.

Lemma drain_tombstone_appends w rt : appends_body w (drain_tombstone w rt).
Proof.
  unfold drain_tombstone.
  destruct (_end_open_marker w) as [open|].
  - destruct (position_eq _ _); [apply write_rt_boundary_appends|].
    destruct (position_less _ _).
    + destruct (decide _);
        [apply write_rt_boundary_appends|apply set_end_open_marker_appends].
    + eapply appends_body_trans; [apply flush_end_open_marker_appends|].
      set_then_consume.
  - set_then_consume.
Qed.

Lemma drain_tombstone_fold_appends rts : ∀ w,
  appends_body w (fold_left drain_tombstone rts w).
Proof.
  induction rts as [|rt rts IH]; intros w; [apply appends_body_refl|].
  cbn [fold_left]. eapply appends_body_trans; [apply drain_tombstone_appends|apply IH].
Qed.

Lemma ensure_tombstone_is_written_data w :
  _data (ensure_tombstone_is_written w)
  = _data w ++ (if _tombstone_written w then []
                else [rec_deletion_time live_deletion_time]) ∧
  _tombstone_written (ensure_tombstone_is_written w) = true ∧
  _static_row_written (ensure_tombstone_is_written w) = _static_row_written w ∧
  _index (ensure_tombstone_is_written w) = _index w.
Proof.
  unfold ensure_tombstone_is_written.
  destruct (_tombstone_written w) eqn:Htw.
  - rewrite app_nil_r. repeat split. exact Htw.
  - repeat split.
Qed.

Lemma consume_static_row_data s sr w w' :
  consume_static_row s sr w = Ok w' →
  _data w' = _data w ++ (if _tombstone_written w then []
                         else [rec_deletion_time live_deletion_time])
                     ++ [rec_static_row sr] ∧
  _tombstone_written w' = true ∧ _static_row_written w' = true ∧
  _index w' = _index w.
Proof.
  unfold consume_static_row, write_static_row.
  destruct (ensure_tombstone_is_written_data w) as (D & T & S & I).
  destruct (is_compound s); [|discriminate].
  cbn [rbind]. intros [= <-].
  cbn [_data _tombstone_written _static_row_written _index write_data].
  rewrite D, T, I, <- app_assoc. repeat split.
Qed.

Lemma consume_static_row_ok s sr w :
  is_compound s = true → ∃ w', consume_static_row s sr w = Ok w'.
Proof.
  intros Hc. unfold consume_static_row, write_static_row. rewrite Hc.
  cbn [rbind]. eexists. reflexivity.
Qed.

Lemma grows_pending s w w' : grows s w w' → pending_header s w' = [].
Proof.
  intros (body & _ & _ & T & S & _). unfold pending_header. rewrite T, S.
  destruct (has_static_columns s), (_static_row_written w); reflexivity.
Qed.

Lemma grows_trans s w1 w2 w3 : grows s w1 w2 → grows s w2 w3 → grows s w1 w3.
Proof.
  intros H12 (b2 & D2 & F2 & T2 & S2 & I2).
  pose proof (grows_pending _ _ _ H12) as Hp.
  destruct H12 as (b1 & D1 & F1 & T1 & S1 & I1).
  exists (b1 ++ b2). rewrite D2, Hp, D1. cbn [app]. rewrite <- !app_assoc.
  repeat split; try congruence.
  - apply Forall_app. split; assumption.
  - rewrite S2, S1. destruct (_static_row_written w1), (has_static_columns s); reflexivity.
Qed.

Lemma grows_appends s w1 w2 w3 : grows s w1 w2 → appends_body w2 w3 → grows s w1 w3.
Proof.
  intros (b1 & D1 & F1 & T1 & S1 & I1) (b2 & D2 & F2 & T2 & S2 & I2).
  exists (b1 ++ b2). rewrite D2, D1, <- !app_assoc.
  repeat split; try congruence. apply Forall_app. split; assumption.
Qed.

Lemma ensure_static_row_is_written_if_needed_data s w w' :
  _tombstone_written w = true →
  ensure_static_row_is_written_if_needed s w = Ok w' →
  _data w' = _data w ++ (if has_static_columns s && negb (_static_row_written w)
                         then [rec_static_row empty_row] else []) ∧
  _tombstone_written w' = true ∧
  _static_row_written w' = _static_row_written w || has_static_columns s ∧
  _index w' = _index w.
Proof.
  intros Htw. unfold ensure_static_row_is_written_if_needed. fold (has_static_columns s).
  destruct (has_static_columns s) eqn:Hs, (_static_row_written w) eqn:Hsw; cbn [andb negb orb].
  - intros [= <-]. rewrite app_nil_r. repeat split; assumption.
  - intros H. destruct (consume_static_row_data _ _ _ _ H) as (D & T & S & I).
    rewrite Htw in D. repeat split; assumption.
  - intros [= <-]. rewrite app_nil_r. repeat split; assumption.
  - intros [= <-]. rewrite app_nil_r. repeat split; assumption.
Qed.

Lemma drain_tombstones_grows s pos rts w w' :
  drain_tombstones s pos rts w = Ok w' → grows s w w'.
Proof.
  unfold drain_tombstones.
  destruct (ensure_tombstone_is_written_data w) as (D0 & T0 & S0 & I0).
  destruct (ensure_static_row_is_written_if_needed s (ensure_tombstone_is_written w))
    as [w1|e] eqn:H1; [|discriminate].
  destruct (ensure_static_row_is_written_if_needed_data _ _ _ T0 H1) as (D1 & T1 & S1 & I1).
  cbn [rbind].
  assert (G1 : grows s w w1).
  { exists []. rewrite app_nil_r. unfold pending_header.
    rewrite D1, D0, S0, <- app_assoc. repeat split; try congruence. constructor. }
  pose proof (drain_tombstone_fold_appends rts w1) as A2.
  destruct (_end_open_marker (fold_left drain_tombstone rts w1)) as [open|].
  - destruct (match pos with Some p => _ | None => true end); intros [= <-].
    + eapply grows_appends; [eapply grows_appends; [exact G1|exact A2]|].
      apply flush_end_open_marker_appends.
    + eapply grows_appends; [exact G1|exact A2].
  - intros [= <-]. eapply grows_appends; [exact G1|exact A2].
Qed.

Lemma drain_tombstones_ok s pos rts w :
  is_compound s = true → ∃ w', drain_tombstones s pos rts w = Ok w'.
Proof.
  intros Hc. unfold drain_tombstones.
  assert (∃ w1, ensure_static_row_is_written_if_needed s
                  (ensure_tombstone_is_written w) = Ok w1) as [w1 ->].
  { unfold ensure_static_row_is_written_if_needed.
    destruct (_ && _); [apply consume_static_row_ok, Hc|eexists; reflexivity]. }
  cbn [rbind].
  destruct (_end_open_marker _); [|eexists; reflexivity].
  destruct (match pos with Some p => _ | None => true end); eexists; reflexivity.
Qed.

Lemma consume_clustered_grows s c w w' :
  consume_clustered s (Ok w) c = Ok w' → grows s w w'.
Proof.
  destruct c as [cr rts|rt rts]; cbn [consume_clustered rbind].
  - unfold consume_clustering_row.
    destruct (drain_tombstones _ _ _ _) as [w1|e] eqn:H1; [|discriminate].
    cbn [rbind]. intros [= <-].
    eapply grows_appends; [apply (drain_tombstones_grows _ _ _ _ _ H1)|].
    destruct (write_clustered_data
                (mk_clustering_info (cr_key cr) bound_kind_m.clustering)
                (rec_clustering_row cr) w1) as (D & T & S & I & _).
    eexists. split; [exact D|]. repeat split; try assumption.
    constructor; [reflexivity|constructor].
  - unfold consume_range_tombstone. apply drain_tombstones_grows.
Qed.

Lemma consume_clustered_throw s e c : consume_clustered s (Throw e) c = Throw e.
Proof. reflexivity. Qed.

Lemma consume_clustered_fold_throw s e cs :
  fold_left (consume_clustered s) cs (Throw e) = Throw e.
Proof. induction cs as [|c cs IH]; [reflexivity|exact IH]. Qed.

Lemma consume_clustered_fold_grows s cs : ∀ w w',
  fold_left (consume_clustered s) cs (Ok w) = Ok w' → w' = w ∨ grows s w w'.
Proof.
  induction cs as [|c cs IH]; intros w w' H.
  - left. cbn in H. congruence.
  - cbn [fold_left] in H.
    destruct (consume_clustered s (Ok w) c) as [w1|e] eqn:H1.
    + right. pose proof (consume_clustered_grows _ _ _ _ H1) as G1.
      destruct (IH _ _ H) as [->|G2]; [exact G1|].
      eapply grows_trans; eassumption.
    + rewrite consume_clustered_fold_throw in H. discriminate.
Qed.

Lemma consume_clustered_fold_ok s cs : ∀ w,
  is_compound s = true → ∃ w', fold_left (consume_clustered s) cs (Ok w) = Ok w'.
Proof.
  induction cs as [|c cs IH]; intros w Hc; [eexists; reflexivity|].
  cbn [fold_left].
  assert (∃ w1, consume_clustered s (Ok w) c = Ok w1) as [w1 ->].
  { destruct c as [cr rts|rt rts]; cbn [consume_clustered rbind].
    - unfold consume_clustering_row.
      destruct (drain_tombstones_ok s (Some (after_key (cr_key cr))) rts w Hc) as [w1 ->].
      eexists. reflexivity.
    - apply drain_tombstones_ok, Hc. }
  apply IH, Hc.
Qed.

Lemma add_pi_block_same w :
  _data (add_pi_block w) = _data w ∧ _index (add_pi_block w) = _index w ∧
  _tombstone_written (add_pi_block w) = _tombstone_written w ∧
  _static_row_written (add_pi_block w) = _static_row_written w.
Proof.
  unfold add_pi_block.
  destruct (_first_clustering w), (_last_clustering w); repeat split.
Qed.

Lemma write_promoted_index_write_index b w :
  write_promoted_index (write_index b w) = write_promoted_index w.
Proof. reflexivity. Qed.

Lemma consume_end_of_partition_unfold s rts w :
  consume_end_of_partition s rts w
  = rbind (drain_tombstones s None rts w) (λ w1,
      let w2 := before_index_entry w1 in
      Ok (write_index
            (if (length (_promoted_index w2) <? 2)%nat then write_vint 0
             else write_vint (calculate_write_size (write_promoted_index w2))
                    ++ write_promoted_index w2) w2)).
Proof.
  unfold consume_end_of_partition, before_index_entry.
  destruct (drain_tombstones s None rts w) as [w1|e]; [|reflexivity].
  cbn [rbind]. cbn zeta.
  destruct (length _ <? 2)%nat; reflexivity.
Qed.

Lemma before_index_entry_data w :
  _data (before_index_entry w) = _data w ++ [rec_end_of_partition] ∧
  _index (before_index_entry w) = _index w ∧
  _tombstone_written (before_index_entry w) = _tombstone_written w ∧
  _static_row_written (before_index_entry w) = _static_row_written w.
Proof.
  unfold before_index_entry. cbn zeta.
  destruct (_ && _).
  - destruct (add_pi_block_same (write_data rec_end_of_partition w)) as (D & I & T & S).
    rewrite D, I, T, S. repeat split.
  - repeat split.
Qed.

Lemma consume_end_of_partition_grows s rts w w' :
  consume_end_of_partition s rts w = Ok w' →
  ∃ body, _data w' = _data w ++ pending_header s w ++ body ∧
          Forall (λ r, is_body_record r = true) body.
Proof.
  rewrite consume_end_of_partition_unfold.
  destruct (drain_tombstones s None rts w) as [w1|e] eqn:H1; [|discriminate].
  cbn [rbind]. cbn zeta. intros [= <-].
  destruct (drain_tombstones_grows _ _ _ _ _ H1) as (body & D & F & _).
  destruct (before_index_entry_data w1) as (D2 & _).
  exists (body ++ [rec_end_of_partition]).
  cbn [_data write_index]. rewrite D2, D, <- !app_assoc. split; [reflexivity|].
  apply Forall_app. split; [exact F|]. constructor; [reflexivity|constructor].
Qed.

Lemma consume_end_of_partition_ok s rts w :
  is_compound s = true → ∃ w', consume_end_of_partition s rts w = Ok w'.
Proof.
  intros Hc. rewrite consume_end_of_partition_unfold.
  destruct (drain_tombstones_ok s None rts w Hc) as [w1 ->].
  cbn [rbind]. eexists. reflexivity.
Qed.

Lemma consume_new_partition_data k w w' :
  consume_new_partition k w = Ok w' →
  _data w' = _data w ++ [rec_partition_key k] ∧
  _tombstone_written w' = false ∧ _static_row_written w' = false.
Proof.
  unfold consume_new_partition.
  destruct (check_truncate_and_assign 2 _) as [len|e]; [|discriminate].
  cbn [rbind]. intros [= <-]. repeat split.
Qed.

Lemma consume_new_partition_ok k w :
  Z.of_nat (length k) < 2 ^ 16 → ∃ w', consume_new_partition k w = Ok w'.
Proof.
  intros Hk. unfold consume_new_partition, check_truncate_and_assign, wrap.
  change (Z.of_nat 2 * 8) with 16.
  rewrite Z.mod_small by lia. rewrite Z.eqb_refl. cbn [rbind].
  eexists. reflexivity.
Qed.

(** The records of one partition: the key, the deletion time, the
    static row if the partition gets one, and body records. *)
Lemma write_partition_data s p w w' :
  write_partition s p w = Ok w' →
  ∃ body, _data w' = _data w
                     ++ rec_partition_key (p_key p)
                     :: rec_deletion_time (to_deletion_time (partition_tombstone p))
                     :: static_row_records s p ++ body ∧
          Forall (λ r, is_body_record r = true) body.
Proof.
  unfold write_partition.
  destruct (consume_new_partition (p_key p) w) as [w1|e] eqn:H1; [|discriminate].
  destruct (consume_new_partition_data _ _ _ H1) as (D1 & T1 & S1).
  cbn [rbind].
  set (w2 := match p_tombstone p with Some t => consume_tombstone t w1 | None => w1 end).
  assert (H2 : _data w2 ++ pending_header s w2
               = _data w ++ rec_partition_key (p_key p)
                 :: rec_deletion_time (to_deletion_time (partition_tombstone p))
                 :: (if has_static_columns s then [rec_static_row empty_row] else []) ∧
               _data w2 ++ (if _tombstone_written w2 then []
                            else [rec_deletion_time live_deletion_time])
               = _data w ++ [rec_partition_key (p_key p);
                   rec_deletion_time (to_deletion_time (partition_tombstone p))] ∧
               _static_row_written w2 = false).
  { unfold w2, partition_tombstone, pending_header.
    destruct (p_tombstone p) as [t|];
      cbn [consume_tombstone write_data _data _tombstone_written _static_row_written].
    - rewrite D1, S1, andb_true_r, <- !app_assoc. repeat split.
    - rewrite D1, T1, S1, andb_true_r, <- !app_assoc. repeat split. }
  destruct H2 as (Hpend & Htomb & Hsw).
  clearbody w2.
  destruct (p_static_row p) as [sr|] eqn:Hsr.
  - destruct (consume_static_row s sr w2) as [w3|e] eqn:H3; [|discriminate].
    destruct (consume_static_row_data _ _ _ _ H3) as (D3 & T3 & S3 & _).
    cbn [rbind].
    destruct (fold_left (consume_clustered s) (p_clustered p) (Ok w3))
      as [w4|e] eqn:H4; [|discriminate].
    cbn [rbind]. intros H5.
    destruct (consume_end_of_partition_grows _ _ _ _ H5) as (b5 & D5 & F5).
    assert (Hp3 : pending_header s w3 = []).
    { unfold pending_header. rewrite T3, S3, andb_false_r. reflexivity. }
    assert (H34 : ∃ b4, _data w4 = _data w3 ++ b4 ∧
                        Forall (λ r, is_body_record r = true) b4 ∧
                        pending_header s w4 = []).
    { destruct (consume_clustered_fold_grows _ _ _ _ H4) as [->|G].
      - exists []. rewrite app_nil_r. repeat split; [constructor|exact Hp3].
      - pose proof (grows_pending _ _ _ G) as Hp4.
        destruct G as (b4 & D4 & F4 & _). rewrite Hp3 in D4.
        exists b4. repeat split; assumption. }
    destruct H34 as (b4 & D4 & F4 & Hp4).
    exists (b4 ++ b5). split; [|apply Forall_app; split; assumption].
    rewrite D5, Hp4, D4, D3. unfold static_row_records. rewrite Hsr.
    rewrite (app_assoc (_data w2)), Htomb. cbn [app]. rewrite <- !app_assoc.
    reflexivity.
  - cbn [rbind].
    destruct (fold_left (consume_clustered s) (p_clustered p) (Ok w2))
      as [w4|e] eqn:H4; [|discriminate].
    cbn [rbind]. intros H5.
    destruct (consume_end_of_partition_grows _ _ _ _ H5) as (b5 & D5 & F5).
    unfold static_row_records. rewrite Hsr.
    destruct (consume_clustered_fold_grows _ _ _ _ H4) as [->|G].
    + exists b5. split; [|exact F5].
      rewrite D5, app_assoc, Hpend. rewrite <- !app_assoc. reflexivity.
    + pose proof (grows_pending _ _ _ G) as Hp4.
      destruct G as (b4 & D4 & F4 & _).
      exists (b4 ++ b5). split; [|apply Forall_app; split; assumption].
      rewrite D5, Hp4, D4. rewrite (app_assoc (_data w2)), Hpend.
      cbn [app]. rewrite <- !app_assoc. reflexivity.
Qed.

Lemma write_partition_ok s p w :
  Z.of_nat (length (p_key p)) < 2 ^ 16 → is_compound s = true →
  ∃ w', write_partition s p w = Ok w'.
Proof.
  intros Hk Hc. unfold write_partition.
  destruct (consume_new_partition_ok (p_key p) w Hk) as [w1 ->]. cbn [rbind].
  set (w2 := match p_tombstone p with Some t => consume_tombstone t w1 | None => w1 end).
  clearbody w2.
  assert (∃ w3, match p_static_row p with
                | Some sr => consume_static_row s sr w2
                | None => Ok w2
                end = Ok w3) as [w3 ->].
  { destruct (p_static_row p); [apply consume_static_row_ok, Hc|eexists; reflexivity]. }
  cbn [rbind].
  destruct (consume_clustered_fold_ok s (p_clustered p) w3 Hc) as [w4 ->].
  cbn [rbind]. apply consume_end_of_partition_ok, Hc.
Qed.

End WriterProofs.

(** *** The bytes of the promoted index and of a marker *)

Section WriterBytes.

Context `{env : writer_env}.

Lemma data_bytes_snoc (d : list data_record) (r : data_record) :
  data_bytes (d ++ [r]) = data_bytes d ++ encode_record r.
Proof.
  unfold data_bytes. rewrite map_app, concat_app. cbn [map concat].
  rewrite app_nil_r. reflexivity.
Qed.

(** The loop of [write_promoted_index] writes the blocks one after the
    other and notes for each the number of bytes written before it. *)
Lemma write_pi_blocks_offsets blocks : ∀ written,
  write_pi_blocks blocks written
  = (concat (map pi_block_bytes blocks),
     map (λ i, uint32_t (written
                         + Z.of_nat (length (concat (map pi_block_bytes (take i blocks))))))
       (seq 0 (length blocks))).
Proof.
  induction blocks as [|b blocks IH]; intros written; [reflexivity|].
  cbn [write_pi_blocks]. rewrite IH. cbn [map concat length seq take].
  rewrite Z.add_0_r. f_equal. f_equal.
  rewrite <- seq_shift, map_map. apply map_ext. intros i.
  cbn [take map concat]. rewrite length_app. f_equal. lia.
Qed.

Lemma write_promoted_index_bytes w :
  write_promoted_index w
  = write_vint (_partition_header_length w)
    ++ write_deletion_time (to_deletion_time (_pi_tomb w))
    ++ write_vint (Z.of_nat (length (_promoted_index w)))
    ++ concat (map pi_block_bytes (_promoted_index w))
    ++ concat (map (write_int 4)
         (map (λ i, uint32_t (Z.of_nat (length (concat (map pi_block_bytes
                                                           (take i (_promoted_index w)))))))
            (seq 0 (length (_promoted_index w))))).
Proof. unfold write_promoted_index. rewrite write_pi_blocks_offsets. reflexivity. Qed.

(** What [consume_end_of_partition] appends to the index file. *)
Lemma consume_end_of_partition_index_written s rts w w' :
  consume_end_of_partition s rts w = Ok w' →
  (∃ w1, drain_tombstones s None rts w = Ok w1 ∧
         _promoted_index w' = _promoted_index (before_index_entry w1)) ∧
  _index w'
  = _index w ++
    (if (length (_promoted_index w') <? 2)%nat then write_vint 0
     else write_vint (uint64_t (Z.of_nat (length (write_promoted_index w'))))
            ++ write_promoted_index w').
Proof.
  rewrite consume_end_of_partition_unfold.
  destruct (drain_tombstones s None rts w) as [w1|e] eqn:H1; [|discriminate].
  cbn [rbind]. cbn zeta. intros [= <-].
  destruct (drain_tombstones_grows _ _ _ _ _ H1) as (_ & _ & _ & _ & _ & I1).
  destruct (before_index_entry_data w1) as (_ & I2 & _).
  split; [exists w1; split; reflexivity|].
  rewrite write_promoted_index_write_index.
  cbn [_index _promoted_index write_index]. rewrite I2, I1. reflexivity.
Qed.

End WriterBytes.

Section WriterClaims.

Context `{env : writer_env}.

(** C4: when the start position of the next range tombstone [rt]
    equals the position of the open end marker, the turn of the drain
    loop writes exactly one marker, a boundary at the start of [rt],
    and the data file grows by the bytes of that marker: the marker
    flag, the clustering prefix with the boundary kind, the body size
    and the size of the previous row as vints, then the deletion time
    of the tombstone that was open followed by the deletion time of
    the tombstone of [rt].  The writer stays open, with the end of
    [rt] as the pending end marker. *)
Theorem drain_tombstone_boundary (w : writer_m) (open : rt_marker)
    (rt : range_tombstone) :
  _end_open_marker w = Some open →
  position_eq (rt_marker_position open) (range_tombstone_position rt) = true →
  let boundary_kind :=
    if decide (rt_start_kind rt = bound_kind.incl_start)
    then bound_kind_m.excl_end_incl_start
    else bound_kind_m.incl_end_excl_start in
  let boundary := mk_rt_marker (rt_start rt) boundary_kind (tomb open) (Some (rt_tomb rt)) in
  let prev_row_size := uint64_t (data_offset w - _prev_row_start w) in
  let body :=
    write_delta_deletion_time (to_deletion_time (tomb open))
    ++ write_delta_deletion_time (to_deletion_time (rt_tomb rt)) in
  _data (drain_tombstone w rt) = _data w ++ [rec_rt_marker boundary prev_row_size] ∧
  data_bytes (_data (drain_tombstone w rt))
  = data_bytes (_data w)
    ++ [Byte.x02]
    ++ write_clustering_prefix boundary_kind (rt_start rt)
    ++ write_vint (uint64_t (Z.of_nat (length body)
                             + unsigned_vint_serialized_size prev_row_size))
    ++ write_vint prev_row_size
    ++ body ∧
  _end_open_marker (drain_tombstone w rt) = Some (get_rt_end rt).
Proof.
  intros Hopen Heq boundary_kind boundary prev_row_size body.
  assert (D : _data (drain_tombstone w rt)
              = _data w ++ [rec_rt_marker boundary prev_row_size] ∧
              _end_open_marker (drain_tombstone w rt) = Some (get_rt_end rt)).
  { unfold drain_tombstone. rewrite Hopen, Heq.
    unfold write_rt_boundary. fold boundary_kind. fold boundary.
    destruct (consume_rt_marker_data boundary
                (set_end_open_marker (Some (get_rt_end rt)) w)) as (D & _ & _ & _ & E).
    split; [exact D|exact E]. }
  destruct D as [D E]. split; [exact D|]. split; [|exact E].
  rewrite D, data_bytes_snoc. reflexivity.
Qed.

(** C5: at the end of a partition the writer appends to the index file
    the size of the promoted index as a vint and then the promoted
    index itself: the partition header length, the deletion time of
    the partition tombstone, the number of blocks, for every block its
    first and last clustering prefix, its offset, its width less
    65536, the flag of an open marker and the deletion time of that
    marker if there is one, and then for every block the 32-bit
    number of the bytes of the blocks before it.  When fewer than two
    blocks have been collected, the incomplete last block included,
    it appends a size of zero and nothing else. *)
Theorem consume_end_of_partition_promoted_index (s : schema)
    (rts : list range_tombstone) (w : writer_m) :
  (∀ w', consume_end_of_partition s rts w = Ok w' →
     let blocks := _promoted_index w' in
     let deletion_time_bytes := λ t : tombstone,
       write_int 4 (local_deletion_time (to_deletion_time t))
       ++ write_int 8 (marked_for_delete_at (to_deletion_time t)) in
     let block_bytes := λ b : pi_block,
       write_clustering_prefix (ci_kind (pb_first b)) (ci_clustering (pb_first b))
       ++ write_clustering_prefix (ci_kind (pb_last b)) (ci_clustering (pb_last b))
       ++ write_vint (pb_offset b)
       ++ write_signed_vint (int64_t (pb_width b - 65536))
       ++ write_int 1 (match pb_open_marker b with Some _ => 1 | None => 0 end)
       ++ match pb_open_marker b with
          | Some t => deletion_time_bytes t
          | None => []
          end in
     let block_offsets :=
       map (λ i, uint32_t (Z.of_nat (length (concat (map block_bytes (take i blocks))))))
         (seq 0 (length blocks)) in
     let promoted :=
       write_vint (_partition_header_length w')
       ++ deletion_time_bytes (_pi_tomb w')
       ++ write_vint (Z.of_nat (length blocks))
       ++ concat (map block_bytes blocks)
       ++ concat (map (write_int 4) block_offsets) in
     (∃ w1, drain_tombstones s None rts w = Ok w1 ∧
            _promoted_index w' = _promoted_index (before_index_entry w1)) ∧
     _index w'
     = _index w ++
       (if (length blocks <? 2)%nat then write_vint 0
        else write_vint (uint64_t (Z.of_nat (length promoted))) ++ promoted)) ∧
  (is_compound s = true → ∃ w', consume_end_of_partition s rts w = Ok w').
Proof.
  split; [|apply consume_end_of_partition_ok].
  intros w' H. cbn zeta.
  destruct (consume_end_of_partition_index_written _ _ _ _ H) as [Hblocks Hindex].
  split; [exact Hblocks|].
  rewrite (write_promoted_index_bytes w') in Hindex. exact Hindex.
Qed.

(** The partition header of the 'mc' writer: the data written for a
    partition is the partition key, then one [deletion_time], then the
    remaining records, none of which is a [deletion_time] or a key;
    without a partition tombstone from the stream, or with an empty
    one, the [deletion_time] is the live sentinel. *)
Lemma write_partition_deletion_time (s : schema) (p : partition) (w w' : writer_m) :
  write_partition s p w = Ok w' →
  ∃ d rest,
    _data w' = _data w ++ rec_partition_key (p_key p) :: rec_deletion_time d :: rest ∧
    Forall (λ r, is_deletion_time_record r = false ∧
                 is_partition_key_record r = false) rest ∧
    d = to_deletion_time (partition_tombstone p) ∧
    ((p_tombstone p = None ∨
      ∃ t, p_tombstone p = Some t ∧ tombstone_bool t = false) →
     local_deletion_time d = 2 ^ 31 - 1 ∧ marked_for_delete_at d = - 2 ^ 63).
Proof.
  intros H. destruct (write_partition_data _ _ _ _ H) as (body & D & F).
  exists (to_deletion_time (partition_tombstone p)), (static_row_records s p ++ body).
  split; [exact D|]. split; [|split; [reflexivity|]].
  - apply Forall_app. split.
    + unfold static_row_records.
      destruct (p_static_row p); [|destruct (has_static_columns s)];
        repeat constructor.
    + eapply Forall_impl; [exact F|]. intros [] Hr; try discriminate; split; reflexivity.
  - unfold partition_tombstone. intros [->|(t & -> & Ht)].
    + split; reflexivity.
    + rewrite (to_deletion_time_not_set _ Ht). split; reflexivity.
Qed.

(** C10: under a schema with a static column the 'mc' writer puts a
    static row right after the deletion time of every partition, the
    row of the stream or else an empty one, and only clustering rows,
    markers and the end of the partition follow it. *)
Theorem write_partition_static_row (s : schema) (p : partition) (w : writer_m) :
  has_static_columns s = true →
  (∀ w', write_partition s p w = Ok w' →
     ∃ body,
       _data w' = _data w
                  ++ rec_partition_key (p_key p)
                  :: rec_deletion_time (to_deletion_time (partition_tombstone p))
                  :: rec_static_row (match p_static_row p with
                                     | Some sr => sr
                                     | None => empty_row
                                     end)
                  :: body ∧
       Forall (λ r, is_body_record r = true) body) ∧
  (Z.of_nat (length (p_key p)) < 2 ^ 16 → is_compound s = true →
   ∃ w', write_partition s p w = Ok w').
Proof.
  intros Hs. split; [|apply write_partition_ok].
  intros w' H. destruct (write_partition_data _ _ _ _ H) as (body & D & F).
  exists body. split; [|exact F]. rewrite D. unfold static_row_records. rewrite Hs.
  destruct (p_static_row p); reflexivity.
Qed.

End WriterClaims.

(** ** The 'ka'/'la' writer *)

Module ComponentsWriterFacts.
Import ComponentsWriter.

Create HintDb k_l_writer.

Section Facts.

Context `{E : env}.

Lemma k_l_grows_appends w1 w2 w3 : grows w1 w2 → appends w2 w3 → grows w1 w3.
Proof.
  intros (b1 & D1 & F1 & T1) (b2 & D2 & F2 & T2).
  exists (b1 ++ b2). rewrite D2, D1, <- !app_assoc.
  repeat split; [|congruence]. apply Forall_app. split; assumption.
Qed.

Lemma k_l_grows_trans w1 w2 w3 : grows w1 w2 → grows w2 w3 → grows w1 w3.
Proof.
  intros G1 (b2 & D2 & F2 & T2). apply (k_l_grows_appends _ _ _ G1).
  destruct G1 as (_ & _ & _ & T1). unfold pending in D2. rewrite T1 in D2.
  exists b2. repeat split; [exact D2|exact F2|congruence].
Qed.

Lemma k_l_append_record_appends w r :
  past_header r →
  appends w (mk_components_writer (_out w ++ [r]) (_tombstone_written w)).
Proof. intros Hr. exists [r]. repeat split. constructor; [exact Hr|constructor]. Qed.

Lemma k_l_ensure_tombstone_is_written_grows w : grows w (ensure_tombstone_is_written w).
Proof.
  exists []. unfold ensure_tombstone_is_written, pending.
  destruct (_tombstone_written w) eqn:Htw; cbn; rewrite ?app_nil_r;
    repeat split; try assumption; constructor.
Qed.

Lemma k_l_write_tombstone_fold_appends rts : ∀ w,
  appends w (fold_left write_tombstone rts w).
Proof.
  induction rts as [|rt rts IH]; intros w.
  - exists []. rewrite app_nil_r. repeat split. constructor.
  - cbn [fold_left]. destruct (IH (write_tombstone w rt)) as (b & D & F & T).
    exists (rec_range_tombstone rt :: b). rewrite D, T. cbn. rewrite <- app_assoc.
    repeat split. constructor; [split; reflexivity|exact F].
Qed.

#[local] Hint Resolve k_l_ensure_tombstone_is_written_grows
  k_l_write_tombstone_fold_appends : k_l_writer.

Lemma k_l_drain_tombstones_grows rts w : grows w (drain_tombstones rts w).
Proof. unfold drain_tombstones. eauto using k_l_grows_appends with k_l_writer. Qed.

#[local] Hint Resolve k_l_drain_tombstones_grows : k_l_writer.

(** A record that is neither a key nor a deletion time, written after
    the header has been seen to. *)
Lemma k_l_grows_record w w1 r :
  grows w w1 → past_header r →
  grows w (mk_components_writer (_out w1 ++ [r]) (_tombstone_written w1)).
Proof. eauto using k_l_grows_appends, k_l_append_record_appends. Qed.

Lemma k_l_consume_static_row_grows sr w : grows w (consume_static_row sr w).
Proof.
  unfold consume_static_row. apply k_l_grows_record; [auto with k_l_writer|].
  split; reflexivity.
Qed.

Lemma k_l_consume_clustered_grows w c : grows w (consume_clustered w c).
Proof.
  destruct c as [cr rts|rts]; cbn [consume_clustered]; [|auto with k_l_writer].
  unfold consume_clustering_row. apply k_l_grows_record; [auto with k_l_writer|].
  split; reflexivity.
Qed.

Lemma k_l_consume_end_of_partition_grows rts w : grows w (consume_end_of_partition rts w).
Proof.
  unfold consume_end_of_partition. apply k_l_grows_record; [auto with k_l_writer|].
  split; reflexivity.
Qed.

Lemma k_l_consume_clustered_fold_grows cs : ∀ w,
  fold_left consume_clustered cs w = w ∨ grows w (fold_left consume_clustered cs w).
Proof.
  induction cs as [|c cs IH]; intros w; [left; reflexivity|].
  right. cbn [fold_left].
  destruct (IH (consume_clustered w c)) as [->|G].
  - apply k_l_consume_clustered_grows.
  - eapply k_l_grows_trans; [apply k_l_consume_clustered_grows|exact G].
Qed.

Lemma k_l_write_partition_data p w w' :
  write_partition p w = Ok w' →
  ∃ rest, _out w' = _out w ++ rec_partition_key (p_key p)
                    :: rec_deletion_time (to_deletion_time (partition_tombstone p))
                    :: rest ∧
          Forall past_header rest.
Proof.
  unfold write_partition, consume_new_partition.
  destruct (check_truncate_and_assign 2 _) as [len|e]; [|discriminate].
  cbn [rbind]. intros [= <-].
  set (w1 := mk_components_writer (_out w ++ [rec_partition_key (p_key p)]) false).
  set (w2 := match p_tombstone p with Some t => consume_tombstone t w1 | None => w1 end).
  set (w3 := match p_static_row p with Some sr => consume_static_row sr w2 | None => w2 end).
  set (w4 := fold_left consume_clustered (p_clustered p) w3).
  assert (H2 : _out w2 ++ pending w2
               = _out w ++ [rec_partition_key (p_key p);
                   rec_deletion_time (to_deletion_time (partition_tombstone p))]).
  { unfold w2, partition_tombstone, pending.
    destruct (p_tombstone p) as [t|]; cbn; rewrite <- ?app_assoc; cbn;
      rewrite ?app_nil_r; reflexivity. }
  assert (G : grows w2 (consume_end_of_partition (p_drained_at_end p) w4)).
  { assert (G3 : w3 = w2 ∨ grows w2 w3).
    { unfold w3. destruct (p_static_row p);
        [right; apply k_l_consume_static_row_grows|left; reflexivity]. }
    assert (G4 : w4 = w2 ∨ grows w2 w4).
    { unfold w4. destruct (k_l_consume_clustered_fold_grows (p_clustered p) w3) as [Heq|G4].
      - rewrite Heq. exact G3.
      - right. destruct G3 as [Heq|G3]; [rewrite <- Heq; exact G4|].
        eapply k_l_grows_trans; eassumption. }
    destruct G4 as [Heq|G4]; [rewrite Heq; apply k_l_consume_end_of_partition_grows|].
    eapply k_l_grows_trans; [exact G4|apply k_l_consume_end_of_partition_grows]. }
  destruct G as (body & D & F & _).
  exists body. split; [|exact F]. rewrite D, app_assoc, H2, <- app_assoc. reflexivity.
Qed.

Lemma k_l_write_partition_ok p w :
  Z.of_nat (length (p_key p)) < 2 ^ 16 → ∃ w', write_partition p w = Ok w'.
Proof.
  intros Hk. unfold write_partition, consume_new_partition,
    check_truncate_and_assign, wrap.
  change (Z.of_nat 2 * 8) with 16.
  rewrite Z.mod_small by lia. rewrite Z.eqb_refl. cbn [rbind].
  eexists. reflexivity.
Qed.

End Facts.

End ComponentsWriterFacts.

(** C9: in the data either writer emits for a partition, the partition
    key is followed at once by one [deletion_time], and no other
    [deletion_time] or key follows among the records of the partition:
    the static row, the clustering rows and the range tombstones all
    come after it.  When the stream supplies no partition tombstone,
    or an empty one, the [deletion_time] is the live sentinel:
    [local_deletion_time = 2^31 - 1], [marked_for_delete_at = -2^63].
    The writes succeed for keys shorter than 64 KiB (and, in the 'mc'
    writer, a compound schema). *)
Theorem partition_deletion_time
    `{env : writer_env} `{E : ComponentsWriter.env}
    (s : schema) (p : partition) (w : writer_m)
    (q : ComponentsWriter.partition) (u : ComponentsWriter.components_writer) :
  (∀ w', write_partition s p w = Ok w' →
     ∃ d rest,
       _data w' = _data w ++ rec_partition_key (p_key p) :: rec_deletion_time d :: rest ∧
       Forall (λ r, is_deletion_time_record r = false ∧
                    is_partition_key_record r = false) rest ∧
       d = to_deletion_time (partition_tombstone p) ∧
       ((p_tombstone p = None ∨
         ∃ t, p_tombstone p = Some t ∧ tombstone_bool t = false) →
        local_deletion_time d = 2 ^ 31 - 1 ∧ marked_for_delete_at d = - 2 ^ 63)) ∧
  (∀ u', ComponentsWriter.write_partition q u = Ok u' →
     ∃ d rest,
       ComponentsWriter._out u'
       = ComponentsWriter._out u
         ++ ComponentsWriter.rec_partition_key (ComponentsWriter.p_key q)
         :: ComponentsWriter.rec_deletion_time d :: rest ∧
       Forall (λ r, ComponentsWriter.is_deletion_time_record r = false ∧
                    ComponentsWriter.is_partition_key_record r = false) rest ∧
       d = to_deletion_time (ComponentsWriter.partition_tombstone q) ∧
       ((ComponentsWriter.p_tombstone q = None ∨
         ∃ t, ComponentsWriter.p_tombstone q = Some t ∧ tombstone_bool t = false) →
        local_deletion_time d = 2 ^ 31 - 1 ∧ marked_for_delete_at d = - 2 ^ 63)) ∧
  (Z.of_nat (length (p_key p)) < 2 ^ 16 → is_compound s = true →
   ∃ w', write_partition s p w = Ok w') ∧
  (Z.of_nat (length (ComponentsWriter.p_key q)) < 2 ^ 16 →
   ∃ u', ComponentsWriter.write_partition q u = Ok u').
Proof.
  split; [intros w'; apply write_partition_deletion_time|].
  split; [|split; [apply write_partition_ok|apply ComponentsWriterFacts.k_l_write_partition_ok]].
  intros u' H.
  destruct (ComponentsWriterFacts.k_l_write_partition_data _ _ _ H) as (rest & D & F).
  exists (to_deletion_time (ComponentsWriter.partition_tombstone q)), rest.
  split; [exact D|]. split; [exact F|]. split; [reflexivity|].
  unfold ComponentsWriter.partition_tombstone. intros [->|(t & -> & Ht)].
  - split; reflexivity.
  - rewrite (to_deletion_time_not_set _ Ht). split; reflexivity.
Qed.

(** ** The writers on sample inputs *)

#[local] Existing Instance SampleWriter.env.

(** The second scenario of the range-tombstone state machine: two
    range tombstones that meet at 2 give a start marker, one boundary
    at 2 with both tombstones, and an end marker, before the row. *)
Example write_partition_5_records :
  SampleWriter.written_data
    (write_partition SampleWriter.compound_with_static SampleWriter.partition_5
       SampleWriter.fresh)
  = [rec_partition_key [Byte.x35];
     rec_deletion_time live_deletion_time;
     rec_static_row [];
     rec_rt_marker (mk_rt_marker 0 bound_kind_m.incl_start SampleWriter.t1 None) 17;
     rec_rt_marker (mk_rt_marker 2 bound_kind_m.incl_end_excl_start
                      SampleWriter.t1 (Some SampleWriter.t2)) 33;
     rec_rt_marker (mk_rt_marker 9 bound_kind_m.incl_end SampleWriter.t2 None) 45;
     rec_clustering_row (15, [Byte.x2a]) 33;
     rec_end_of_partition].
Proof. reflexivity. Qed.

Lemma drain_tombstone_boundary_witness :
  _end_open_marker SampleWriter.open_upto_2
  = Some (get_rt_end SampleWriter.rt_upto_2) ∧
  position_eq (rt_marker_position (get_rt_end SampleWriter.rt_upto_2))
    (range_tombstone_position SampleWriter.rt_from_2) = true ∧
  data_bytes (_data (drain_tombstone SampleWriter.open_upto_2 SampleWriter.rt_from_2))
  = [Byte.x02] ++ write_int 4 2 ++ write_int 8 32 ++ write_int 8 0
    ++ write_deletion_time (to_deletion_time SampleWriter.t1)
    ++ write_deletion_time (to_deletion_time SampleWriter.t2) ∧
  _end_open_marker (drain_tombstone SampleWriter.open_upto_2 SampleWriter.rt_from_2)
  = Some (get_rt_end SampleWriter.rt_from_2).
Proof.
  split; [reflexivity|]. split; [reflexivity|].
  destruct (drain_tombstone_boundary SampleWriter.open_upto_2
              (get_rt_end SampleWriter.rt_upto_2) SampleWriter.rt_from_2
              eq_refl eq_refl) as (_ & Hbytes & Hopen).
  split; [exact Hbytes|exact Hopen].
Defined.

(** A promoted index of two blocks is written out after its size; one
    of no block is replaced by a size of zero. *)
Example consume_end_of_partition_two_blocks :
  SampleWriter.collected_blocks
    (consume_end_of_partition SampleWriter.compound_with_static []
       SampleWriter.two_blocks) = 2%nat.
Proof. reflexivity. Qed.

Example consume_end_of_partition_no_promoted_index :
  SampleWriter.written_index
    (write_partition SampleWriter.compound_with_static SampleWriter.partition_5
       SampleWriter.fresh)
  = write_int 2 1 ++ [Byte.x35] ++ write_vint 0 ++ write_vint 0.
Proof. reflexivity. Qed.

Lemma consume_end_of_partition_promoted_index_witness :
  is_compound SampleWriter.compound_with_static = true ∧
  ∃ w', consume_end_of_partition SampleWriter.compound_with_static []
          SampleWriter.two_blocks = Ok w' ∧
        length (_promoted_index w') = 2%nat ∧
        let blocks := _promoted_index w' in
        let deletion_time_bytes := λ t : tombstone,
          write_int 4 (local_deletion_time (to_deletion_time t))
          ++ write_int 8 (marked_for_delete_at (to_deletion_time t)) in
        let block_bytes := λ b : pi_block,
          write_int 4 (ci_clustering (pb_first b))
          ++ write_int 4 (ci_clustering (pb_last b))
          ++ write_int 8 (pb_offset b)
          ++ write_int 8 (int64_t (pb_width b - 65536))
          ++ write_int 1 (match pb_open_marker b with Some _ => 1 | None => 0 end)
          ++ match pb_open_marker b with
             | Some t => deletion_time_bytes t
             | None => []
             end in
        let block_offsets :=
          map (λ i, uint32_t (Z.of_nat (length (concat (map block_bytes (take i blocks))))))
            (seq 0 (length blocks)) in
        let promoted :=
          write_int 8 (_partition_header_length w')
          ++ deletion_time_bytes (_pi_tomb w')
          ++ write_int 8 (Z.of_nat (length blocks))
          ++ concat (map block_bytes blocks)
          ++ concat (map (write_int 4) block_offsets) in
        _index w'
        = _index SampleWriter.two_blocks
          ++ write_int 8 (uint64_t (Z.of_nat (length promoted))) ++ promoted.
Proof.
  split; [reflexivity|].
  destruct (consume_end_of_partition_promoted_index
              SampleWriter.compound_with_static [] SampleWriter.two_blocks)
    as [Hshape Hok].
  destruct (Hok eq_refl) as [w' Hw'].
  assert (Hn : SampleWriter.collected_blocks
                 (consume_end_of_partition SampleWriter.compound_with_static []
                    SampleWriter.two_blocks) = 2%nat) by reflexivity.
  rewrite Hw' in Hn.
  exists w'. split; [exact Hw'|]. split; [exact Hn|].
  destruct (Hshape w' Hw') as [_ Hidx]. cbn zeta in Hidx.
  assert (Hlt : (length (_promoted_index w') <? 2)%nat = false)
    by (apply Nat.ltb_ge; change (length (_promoted_index w') = 2%nat) in Hn; lia).
  rewrite Hlt in Hidx. exact Hidx.
Defined.

Lemma write_partition_static_row_witness :
  has_static_columns SampleWriter.compound_with_static = true ∧
  Z.of_nat (length (p_key SampleWriter.partition_5)) < 2 ^ 16 ∧
  is_compound SampleWriter.compound_with_static = true ∧
  ∃ w' body,
    write_partition SampleWriter.compound_with_static SampleWriter.partition_5
      SampleWriter.fresh = Ok w' ∧
    _data w' = rec_partition_key [Byte.x35]
               :: rec_deletion_time live_deletion_time
               :: rec_static_row empty_row :: body.
Proof.
  split; [reflexivity|]. split; [reflexivity|]. split; [reflexivity|].
  destruct (write_partition_static_row SampleWriter.compound_with_static
              SampleWriter.partition_5 SampleWriter.fresh eq_refl) as [Hshape Hok].
  destruct (Hok eq_refl eq_refl) as [w' Hw'].
  destruct (Hshape w' Hw') as (body & Hd & _).
  exists w', body. split; [exact Hw'|exact Hd].
Defined.

Lemma partition_deletion_time_witness :
  ∃ w' rest,
    write_partition SampleWriter.compound_with_static SampleWriter.partition_5
      SampleWriter.fresh = Ok w' ∧
    _data w' = rec_partition_key [Byte.x35]
               :: rec_deletion_time (mk_deletion_time (2 ^ 31 - 1) (- 2 ^ 63))
               :: rest.
Proof.
  pose (E := ComponentsWriter.mk_env bytes bytes bytes id id id).
  destruct (partition_deletion_time (E := E) SampleWriter.compound_with_static
              SampleWriter.partition_5 SampleWriter.fresh
              (ComponentsWriter.mk_partition [Byte.x35] None None [] [])
              (ComponentsWriter.mk_components_writer [] false))
    as (Hm & _ & Hok & _).
  destruct (Hok eq_refl eq_refl) as [w' Hw'].
  destruct (Hm w' Hw') as (d & rest & Hd & _ & Heq & Hlive).
  exists w', rest. split; [exact Hw'|].
  rewrite Hd. rewrite Heq. reflexivity.
Defined.

(** ** Codecs: what is written is what is read *)

Lemma at_pos_middle (before x after : bytes) :
  at_pos (before ++ x ++ after) (length before) x.
Proof. unfold at_pos. rewrite drop_app_length. apply take_app_length. Qed.

Lemma length_write_int n z : length (write_int n z) = n.
Proof. apply length_be_split. Qed.

Lemma write_int_wrap n z : write_int n (wrap (Z.of_nat n * 8) z) = write_int n z.
Proof. unfold write_int, be_split, wrap. rewrite <- le_split_mod. reflexivity. Qed.

Lemma wrap_range w z : 0 ≤ w → 0 ≤ wrap w z < 2 ^ w.
Proof. intros Hw. unfold wrap. apply Z.mod_pos_bound. apply Z.pow_pos_nonneg; lia. Qed.

Lemma check_buf_size_eq (buf : bytes) n r :
  length buf = n → check_buf_size buf n r = Ok (tt, r).
Proof. intros <-. apply check_buf_size_ok. Qed.

(** X1: an unsigned integer of [n] bytes written anywhere in a
    file is parsed back from there as the value it has in [8n] bits,
    and the reader ends right behind it. *)
Theorem parse_uint_write_int (n : nat) (z : Z) (before after : bytes) :
  let data := before ++ write_int n z ++ after in
  parse_uint n (mk_reader data (length before))
  = Ok (wrap (Z.of_nat n * 8) z, mk_reader data (length before + n)).
Proof.
  intros data. apply parse_uint_at.
  - rewrite write_int_wrap. apply at_pos_middle.
  - apply wrap_range. lia.
Qed.

Lemma to_signed_wrap n z :
  (0 < n)%nat → - 2 ^ (Z.of_nat n * 8 - 1) ≤ z < 2 ^ (Z.of_nat n * 8 - 1) →
  to_signed n (wrap (Z.of_nat n * 8) z) = z.
Proof.
  intros Hn Hz. unfold to_signed, swrap, wrap.
  set (w := Z.of_nat n * 8) in *.
  assert (Hw : 2 ^ w = 2 * 2 ^ (w - 1)).
  { rewrite <- Z.pow_succ_r by lia. f_equal. lia. }
  assert (0 < 2 ^ (w - 1)) by (apply Z.pow_pos_nonneg; lia).
  rewrite Zplus_mod_idemp_l. rewrite Z.mod_small by lia. lia.
Qed.

Lemma parse_int_at_write n z before after :
  (0 < n)%nat → - 2 ^ (Z.of_nat n * 8 - 1) ≤ z < 2 ^ (Z.of_nat n * 8 - 1) →
  parse_int n (mk_reader (before ++ write_int n z ++ after) (length before))
  = Ok (z, mk_reader (before ++ write_int n z ++ after) (length before + n)).
Proof.
  intros Hn Hz. unfold parse_int, pbind.
  rewrite (parse_uint_at _ _ n (wrap (Z.of_nat n * 8) z)).
  - unfold pret. rewrite to_signed_wrap by assumption. reflexivity.
  - rewrite write_int_wrap. apply at_pos_middle.
  - apply wrap_range. lia.
Qed.

(** X2: a signed integer of [n] bytes, negative ones included, is
    parsed back as itself from where it was written. *)
Theorem parse_int_write_int (n : nat) (z : Z) (before after : bytes) :
  (0 < n)%nat → - 2 ^ (Z.of_nat n * 8 - 1) ≤ z < 2 ^ (Z.of_nat n * 8 - 1) →
  let data := before ++ write_int n z ++ after in
  parse_int n (mk_reader data (length before))
  = Ok (z, mk_reader data (length before + n)).
Proof. intros Hn Hz data. apply parse_int_at_write; assumption. Qed.

Lemma read_exactly_short n data p :
  (length data - p < n)%nat →
  read_exactly n (mk_reader data p)
  = Ok (drop p data, mk_reader data (p + (length data - p))).
Proof.
  intros H. unfold read_exactly. cbn [file_data file_pos].
  rewrite take_ge by (rewrite length_drop; lia).
  rewrite length_drop. reflexivity.
Qed.

(** X3: when fewer than [n] bytes are left in the file, parsing
    an integer of [n] bytes or a string of [n] bytes throws
    [bufsize_mismatch_exception] with the number of bytes that were
    left and [n]; no shorter value is ever returned. *)
Theorem parse_short_read (n : nat) (data : bytes) (p : nat) :
  (length data - p < n)%nat →
  parse_uint n (mk_reader data p)
  = Throw (bufsize_mismatch_exception (length data - p) n) ∧
  parse_int n (mk_reader data p)
  = Throw (bufsize_mismatch_exception (length data - p) n) ∧
  parse_bytes n (mk_reader data p)
  = Throw (bufsize_mismatch_exception (length data - p) n).
Proof.
  intros H.
  assert (Hu : parse_uint n (mk_reader data p)
               = Throw (bufsize_mismatch_exception (length data - p) n)).
  { unfold parse_uint, pbind. rewrite read_exactly_short by exact H.
    unfold check_buf_size. rewrite length_drop.
    destruct (Nat.ltb_spec (length data - p) n); [reflexivity|lia]. }
  split; [exact Hu|]. split.
  - unfold parse_int, pbind. rewrite Hu. reflexivity.
  - unfold parse_bytes, pbind. rewrite read_exactly_short by exact H.
    unfold check_buf_size. rewrite length_drop.
    destruct (Nat.ltb_spec (length data - p) n); [reflexivity|lia].
Qed.

(** X4: a string whose length does not fit the [n]-byte
    size field is not written: [write] throws [std::overflow_error]. *)
Theorem write_disk_string_overflow (n : nat) (s : bytes) :
  2 ^ (Z.of_nat n * 8) ≤ Z.of_nat (length s) →
  write_disk_string n s = Throw (overflow_error "assigning U to T caused an overflow").
Proof.
  intros H. unfold write_disk_string, check_truncate_and_assign.
  pose proof (wrap_range (Z.of_nat n * 8) (Z.of_nat (length s)) ltac:(lia)).
  destruct (Z.eqb_spec (wrap (Z.of_nat n * 8) (Z.of_nat (length s))) (Z.of_nat (length s)));
    [lia|reflexivity].
Qed.

(** X5: a string that fits the size field is written as the
    size and the bytes, and is parsed back as itself from wherever it
    lies in a file, the reader ending right behind it. *)
Theorem disk_string_roundtrip (n : nat) (s before after : bytes) :
  Z.of_nat (length s) < 2 ^ (Z.of_nat n * 8) →
  ∃ out, write_disk_string n s = Ok out ∧
         length out = (n + length s)%nat ∧
         parse_disk_string n (mk_reader (before ++ out ++ after) (length before))
         = Ok (s, mk_reader (before ++ out ++ after) (length before + length out)).
Proof.
  intros H. eexists. split; [apply write_disk_string_ok, H|]. split.
  - rewrite length_app, length_write_int. reflexivity.
  - rewrite (parse_disk_string_at _ _ n s H) by apply at_pos_middle.
    rewrite length_app, length_write_int, Nat.add_assoc. reflexivity.
Qed.

(** X6: a deletion time takes twelve bytes and is parsed back
    as itself, the live sentinel and negative timestamps included. *)
Theorem deletion_time_roundtrip (v : sstable_version_types) (d : deletion_time)
    (before after : bytes) :
  - 2 ^ 31 ≤ local_deletion_time d < 2 ^ 31 →
  - 2 ^ 63 ≤ marked_for_delete_at d < 2 ^ 63 →
  let data := before ++ write_deletion_time d ++ after in
  length (write_deletion_time d) = 12%nat ∧
  parse_deletion_time v (mk_reader data (length before))
  = Ok (d, mk_reader data (length before + 12)).
Proof.
  intros Hl Hm data. split.
  { unfold write_deletion_time. rewrite length_app, !length_write_int. reflexivity. }
  unfold parse_deletion_time, pbind, data, write_deletion_time.
  rewrite <- (app_assoc _ _ after).
  rewrite (parse_int_at_write 4 _ before _) by (cbn; lia).
  pose proof (parse_int_at_write 8 (marked_for_delete_at d)
                (before ++ write_int 4 (local_deletion_time d)) after) as H8.
  rewrite <- !app_assoc in H8. rewrite length_app, length_write_int in H8.
  rewrite H8 by (cbn; lia). unfold pret. destruct d. cbn. do 3 f_equal. lia.
Qed.

(** ** Arrays of integers *)

Lemma length_concat_write_int m (xs : list Z) :
  length (concat (map (write_int m) xs)) = (length xs * m)%nat.
Proof.
  induction xs as [|x xs IH]; [reflexivity|].
  cbn [map concat length]. rewrite length_app, length_write_int, IH. lia.
Qed.

Lemma read_integers_write m (xs : list Z) (rest : bytes) :
  Forall (λ x, 0 ≤ x < 2 ^ (Z.of_nat m * 8)) xs →
  read_integers m (length xs) (concat (map (write_int m) xs) ++ rest) = xs.
Proof.
  induction 1 as [|x xs Hx _ IH]; [reflexivity|].
  cbn [map concat length read_integers]. rewrite <- app_assoc.
  rewrite take_app_length' by (symmetry; apply length_write_int).
  rewrite drop_app_length' by (symmetry; apply length_write_int).
  rewrite IH. unfold write_int. rewrite be_combine_split_small by exact Hx.
  reflexivity.
Qed.

Lemma per_loop_pos m : (0 < m)%nat → Z.of_nat m ≤ 100000 → (0 < per_loop m)%nat.
Proof.
  intros Hm Hb. unfold per_loop.
  assert (1 ≤ 100000 / Z.of_nat m); [|lia].
  apply Z.div_le_lower_bound; lia.
Qed.

Lemma write_integers_loop_spec m (arr : list Z) :
  (0 < per_loop m)%nat →
  ∀ fuel idx out, (idx ≤ length arr)%nat → (length arr - idx < fuel)%nat →
  write_integers_loop fuel m arr idx out
  = Some (out ++ concat (map (write_int m) (drop idx arr))).
Proof.
  intros Hp. induction fuel as [|fuel IH]; intros idx out Hi Hf; [lia|].
  cbn [write_integers_loop].
  destruct (Nat.eqb_spec idx (length arr)) as [->|Hne].
  - rewrite drop_all. cbn. rewrite app_nil_r. reflexivity.
  - set (now := Nat.min (length arr - idx) (per_loop m)).
    assert (Hnow : (0 < now ≤ length arr - idx)%nat) by (unfold now; lia).
    rewrite IH by lia. rewrite <- app_assoc. do 2 f_equal.
    rewrite <- concat_app, <- map_app. do 2 f_equal.
    rewrite <- drop_drop. apply take_drop.
Qed.

Lemma parse_integers_loop_spec m (arr : list Z) data :
  (0 < per_loop m)%nat →
  Forall (λ x, 0 ≤ x < 2 ^ (Z.of_nat m * 8)) arr →
  ∀ fuel done acc p, (done ≤ length arr)%nat → (length arr - done < fuel)%nat →
  at_pos data p (concat (map (write_int m) (drop done arr))) →
  parse_integers_loop fuel m (length arr) done acc (mk_reader data p)
  = Ok (Some (acc ++ drop done arr),
        mk_reader data (p + (length arr - done) * m)).
Proof.
  intros Hp Harr. induction fuel as [|fuel IH]; intros done acc p Hd Hf Hat; [lia|].
  cbn [parse_integers_loop].
  set (now := Nat.min (length arr - done) (per_loop m)).
  assert (Hnow : (now ≤ length arr - done)%nat) by (unfold now; lia).
  set (chunk := take now (drop done arr)).
  assert (Hlen : length chunk = now).
  { unfold chunk. rewrite length_take, length_drop. lia. }
  assert (Hsplit : drop done arr = chunk ++ drop (done + now) arr).
  { unfold chunk. rewrite <- drop_drop. symmetry. apply take_drop. }
  rewrite Hsplit, map_app, concat_app in Hat.
  apply at_pos_app in Hat as [Hat1 Hat2].
  rewrite length_concat_write_int, Hlen in Hat2.
  pose proof (read_exactly_at _ _ _ Hat1) as Hr.
  rewrite length_concat_write_int, Hlen in Hr.
  unfold pbind. rewrite Hr.
  rewrite check_buf_size_eq by (rewrite length_concat_write_int, Hlen; reflexivity).
  assert (Hread : read_integers m now (concat (map (write_int m) chunk)) = chunk).
  { rewrite <- Hlen.
    rewrite <- (app_nil_r (concat _)). apply read_integers_write.
    unfold chunk. apply Forall_take, Forall_drop, Harr. }
  rewrite Hread.
  destruct (Nat.eqb_spec (done + now) (length arr)) as [Heq|Hne].
  - unfold pret. rewrite Hsplit, Heq, drop_all, app_nil_r.
    do 3 f_equal. lia.
  - assert (0 < now)%nat by (unfold now; lia).
    rewrite IH by first [lia|exact Hat2].
    rewrite Hsplit, app_assoc. do 3 f_equal. lia.
Qed.

(** X7: an array of integers is written as its length and its
    members, each most significant byte first, whatever the number of
    turns the writer takes, and it is parsed back as itself whatever
    the number of turns the reader takes; both loops stop within
    [length arr + 1] turns. *)
Theorem disk_array_integral_roundtrip (fuel n m : nat) (arr : list Z)
    (before after : bytes) :
  (0 < m)%nat → Z.of_nat m ≤ 100000 →
  Forall (λ x, 0 ≤ x < 2 ^ (Z.of_nat m * 8)) arr →
  Z.of_nat (length arr) < 2 ^ (Z.of_nat n * 8) →
  (length arr < fuel)%nat →
  let out := write_int n (Z.of_nat (length arr)) ++ concat (map (write_int m) arr) in
  let data := before ++ out ++ after in
  write_disk_array_integral fuel n m arr = Ok (Some out) ∧
  parse_disk_array_integral fuel n m (mk_reader data (length before))
  = Ok (Some arr, mk_reader data (length before + length out)).
Proof.
  intros Hm Hb Harr Hlen Hf out data.
  pose proof (per_loop_pos m Hm Hb) as Hp. split.
  - unfold write_disk_array_integral, check_truncate_and_assign, wrap.
    rewrite Z.mod_small by lia. rewrite Z.eqb_refl. cbn [rbind].
    rewrite (write_integers_loop_spec m arr Hp) by lia. rewrite drop_0. reflexivity.
  - unfold parse_disk_array_integral, pbind.
    assert (Hat : at_pos data (length before) out) by apply at_pos_middle.
    apply at_pos_app in Hat as [Hat1 Hat2]. rewrite length_write_int in Hat2.
    rewrite (parse_uint_at _ _ _ _ Hat1) by lia.
    rewrite Nat2Z.id.
    rewrite (parse_integers_loop_spec m arr data Hp Harr) by
      first [lia|rewrite drop_0; exact Hat2].
    rewrite drop_0. cbn [app]. unfold out.
    rewrite length_app, length_write_int, length_concat_write_int.
    do 3 f_equal. lia.
Qed.

(** ** Estimated histograms *)

Lemma length_histogram_pairs os bs :
  length os = length bs → length (histogram_pairs os bs) = (length bs * 16)%nat.
Proof.
  revert bs. induction os as [|o os IH]; intros [|b bs] H; try discriminate; [reflexivity|].
  cbn [histogram_pairs length]. rewrite !length_app, !length_write_int, IH by (cbn in H; lia).
  lia.
Qed.

Lemma write_histogram_elements_spec eh rest : ∀ i os,
  drop i (bucket_offsets eh) = os → length os = length rest →
  write_histogram_elements eh (S i) rest = Some (histogram_pairs os rest).
Proof.
  induction rest as [|b rest IH]; intros i os Hd Hl.
  - destruct os; [reflexivity|discriminate].
  - destruct os as [|o os]; [discriminate|].
    cbn [write_histogram_elements Nat.eqb]. replace (S i - 1)%nat with i by lia.
    assert (Hi : bucket_offsets eh !! i = Some o).
    { rewrite <- (Nat.add_0_r i), <- lookup_drop, Hd. reflexivity. }
    rewrite Hi. rewrite (IH (S i) os); [reflexivity| |cbn in Hl; lia].
    replace (S i) with (i + 1)%nat by lia. rewrite <- drop_drop, Hd. reflexivity.
Qed.

Lemma histogram_pair_read o b (rest : bytes) :
  0 ≤ o < 2 ^ 64 → 0 ≤ b < 2 ^ 64 →
  be_combine (take 8 (write_int 8 o ++ write_int 8 b ++ rest)) = o ∧
  be_combine (take 8 (drop 8 (write_int 8 o ++ write_int 8 b ++ rest))) = b ∧
  drop 16 (write_int 8 o ++ write_int 8 b ++ rest) = rest.
Proof.
  intros Ho Hb.
  assert (H1 : drop 8 (write_int 8 o ++ write_int 8 b ++ rest) = write_int 8 b ++ rest).
  { apply drop_app_length'. symmetry. apply length_write_int. }
  split; [|split].
  - rewrite take_app_length' by (symmetry; apply length_write_int).
    apply be_combine_split_small. exact Ho.
  - rewrite H1, take_app_length' by (symmetry; apply length_write_int).
    apply be_combine_split_small. exact Hb.
  - change 16%nat with (8 + 8)%nat. rewrite <- drop_drop, H1.
    apply drop_app_length'. symmetry. apply length_write_int.
Qed.

Lemma read_histogram_elements_spec os : ∀ bs tail acc_o acc_b,
  length os = length bs → acc_b ≠ [] →
  Forall (λ x, 0 ≤ x < 2 ^ 64) os → Forall (λ x, 0 ≤ x < 2 ^ 64) bs →
  read_histogram_elements (length bs) (histogram_pairs os bs ++ tail)
    (mk_estimated_histogram acc_o acc_b)
  = mk_estimated_histogram (acc_o ++ os) (acc_b ++ bs).
Proof.
  induction os as [|o os IH]; intros [|b bs] tail acc_o acc_b Hl Hne Ho Hb;
    try discriminate.
  - cbn. rewrite !app_nil_r. reflexivity.
  - inversion Ho as [|? ? Ho1 Ho2]; subst. inversion Hb as [|? ? Hb1 Hb2]; subst.
    cbn [length histogram_pairs read_histogram_elements buckets bucket_offsets].
    rewrite <- !app_assoc.
    destruct (histogram_pair_read o b (histogram_pairs os bs ++ tail) Ho1 Hb1)
      as (-> & -> & ->).
    destruct acc_b as [|a acc_b]; [congruence|]. cbn [length Nat.ltb Nat.leb].
    rewrite IH; [|cbn in Hl; lia|discriminate|assumption|assumption].
    rewrite <- !app_assoc. reflexivity.
Qed.

(** X8: a histogram with [n + 1] buckets and [n >= 1]
    bucket offsets is written as its number of buckets and one offset
    and bucket per bucket, the first offset twice, and is parsed back
    as itself. *)
Theorem estimated_histogram_roundtrip (v : sstable_version_types)
    (eh : estimated_histogram) (before after : bytes) :
  bucket_offsets eh ≠ [] →
  length (buckets eh) = S (length (bucket_offsets eh)) →
  Forall (λ x, 0 ≤ x < 2 ^ 64) (bucket_offsets eh) →
  Forall (λ x, 0 ≤ x < 2 ^ 64) (buckets eh) →
  Z.of_nat (length (buckets eh)) < 2 ^ 32 →
  ∃ out, write_estimated_histogram v eh = Ok (Some out) ∧
         length out = (4 + 16 * length (buckets eh))%nat ∧
         parse_estimated_histogram v (mk_reader (before ++ out ++ after) (length before))
         = Ok (eh, mk_reader (before ++ out ++ after) (length before + length out)).
Proof.
  destruct eh as [os bs]. cbn [bucket_offsets buckets].
  intros Hne Hl Ho Hb Hn.
  destruct os as [|o os]; [congruence|]. destruct bs as [|b bs]; [discriminate|].
  assert (Hlen : length (o :: os) = length bs) by (cbn in Hl; cbn; lia).
  set (body := write_int 8 o ++ write_int 8 b ++ histogram_pairs (o :: os) bs).
  assert (Hbody : length body = (length (b :: bs) * 16)%nat).
  { unfold body. rewrite !length_app, !length_write_int, length_histogram_pairs by exact Hlen.
    cbn [length]. lia. }
  exists (write_int 4 (Z.of_nat (length (b :: bs))) ++ body).
  split; [|split].
  - unfold write_estimated_histogram, check_truncate_and_assign, wrap.
    cbn [buckets]. rewrite Z.mod_small by lia. rewrite Z.eqb_refl. cbn [rbind].
    cbn [write_histogram_elements Nat.eqb bucket_offsets lookup list_lookup].
    rewrite (write_histogram_elements_spec _ bs 0 (o :: os)); [reflexivity|reflexivity|exact Hlen].
  - rewrite length_app, length_write_int, Hbody. lia.
  - set (out := write_int 4 _ ++ body). set (data := before ++ out ++ after).
    assert (Hat : at_pos data (length before) out) by apply at_pos_middle.
    apply at_pos_app in Hat as [Hat1 Hat2]. rewrite length_write_int in Hat2.
    unfold parse_estimated_histogram, pbind.
    rewrite (parse_uint_at _ _ _ _ Hat1) by lia.
    destruct (Z.eqb_spec (Z.of_nat (length (b :: bs))) 0) as [H0|_]; [cbn in H0; lia|].
    rewrite Nat2Z.id. rewrite <- Hbody.
    rewrite (read_exactly_at _ _ _ Hat2), check_buf_size_ok. unfold pret.
    unfold body at 1.
    cbn [length read_histogram_elements buckets bucket_offsets Nat.ltb Nat.leb].
    inversion Hb as [|? ? Hb1 Hb2]; subst. inversion Ho as [|? ? Ho1 Ho2]; subst.
    rewrite <- (app_nil_r (histogram_pairs _ _)).
    destruct (histogram_pair_read o b (histogram_pairs (o :: os) bs ++ []) Ho1 Hb1)
      as (_ & -> & ->).
    cbn [app]. rewrite read_histogram_elements_spec;
      [|exact Hlen|discriminate|assumption|assumption].
    cbn [app]. unfold out. rewrite length_app, length_write_int.
    do 3 f_equal. lia.
Qed.

(** X9: a histogram without buckets is written, as a count
    of zero and nothing else, but it cannot be read back: the parser
    rejects a count of zero as a malformed sstable. *)
Theorem estimated_histogram_empty_unreadable (v : sstable_version_types)
    (offsets : list Z) (before after : bytes) :
  write_estimated_histogram v (mk_estimated_histogram offsets [])
  = Ok (Some (write_int 4 0)) ∧
  parse_estimated_histogram v
    (mk_reader (before ++ write_int 4 0 ++ after) (length before))
  = Throw zero_size_histogram.
Proof.
  split; [reflexivity|].
  unfold parse_estimated_histogram, pbind.
  rewrite (parse_uint_at _ _ 4 0) by first [apply at_pos_middle|lia].
  reflexivity.
Qed.

(** ** Sets of tagged unions *)

Section TaggedUnionProofs.

Context {V : Type}.
Variables writer reader : Z → option (member_serdes V).
Variable v : sstable_version_types.

Lemma emplace_union tag (value : V) (acc : gmap Z V) :
  emplace tag value acc = acc ∪ {[tag := value]}.
Proof.
  unfold emplace. destruct (acc !! tag) as [x|] eqn:H.
  - apply map_eq. intros i. rewrite lookup_union.
    destruct (decide (i = tag)) as [->|Hne].
    + rewrite H, lookup_singleton_eq. reflexivity.
    + rewrite lookup_singleton_ne by congruence. destruct (acc !! i); reflexivity.
  - apply insert_union_singleton_r. exact H.
Qed.

Lemma parse_tagged_elements_spec (l : list (Z * V)) : ∀ d p acc out,
  Forall (member_written writer reader v) l →
  write_tagged_elements writer v l = Ok out →
  at_pos d p out →
  parse_tagged_elements reader v (length l) acc (mk_reader d p)
  = Ok (acc ∪ list_to_map (filter (known reader) l), mk_reader d (p + length out)).
Proof.
  induction l as [|[tag value] l IH]; intros d p acc out Hl Hw Hat.
  - cbn in Hw. injection Hw as <-. cbn. unfold pret.
    rewrite (right_id_L ∅ (∪)), Nat.add_0_r. reflexivity.
  - inversion Hl as [|? ? Hkv Hl']; subst.
    destruct Hkv as (Htag & wr & payload & Hwr & Hpay & Hsize & Hbound & Hrd).
    cbn [fst snd] in *.
    cbn [write_tagged_elements] in Hw. rewrite Hwr, Hpay in Hw. cbn [rbind] in Hw.
    destruct (write_tagged_elements writer v l) as [rest|e] eqn:Hrest; [|discriminate].
    cbn [rbind] in Hw.
    assert (Hout : out = write_int 4 tag ++ write_int 4 (uint32_t (do_size wr v value))
                           ++ payload ++ rest) by congruence.
    subst out. clear Hw.
    apply at_pos_app in Hat as [Hat1 Hat]. rewrite length_write_int in Hat.
    apply at_pos_app in Hat as [Hat2 Hat]. rewrite length_write_int in Hat.
    apply at_pos_app in Hat as [Hat3 Hat4].
    cbn [length parse_tagged_elements]. unfold pbind at 1.
    rewrite (parse_uint_at _ _ _ _ Hat1) by exact Htag.
    unfold pbind at 1.
    assert (Hs32 : uint32_t (do_size wr v value) = Z.of_nat (length payload)).
    { rewrite Hsize. unfold uint32_t, wrap. apply Z.mod_small. lia. }
    rewrite Hs32 in Hat2.
    rewrite (parse_uint_at _ _ _ _ Hat2) by (change (Z.of_nat 4 * 8) with 32; lia).
    unfold pbind at 1, lookup_and_parse.
    rewrite !length_app, !length_write_int.
    destruct (reader tag) as [rd|] eqn:Hreader.
    + unfold pbind at 1. rewrite (Hrd rd eq_refl _ _ Hat3). unfold pret.
      rewrite (IH _ _ _ rest Hl' eq_refl Hat4).
      rewrite filter_cons_True by (unfold known; cbn; rewrite Hreader; eexists; reflexivity).
      cbn [list_to_map foldr fst snd uncurry].
      rewrite emplace_union, insert_union_singleton_l, (assoc_L (∪)).
      do 3 f_equal. lia.
    + unfold pbind at 1. rewrite Nat2Z.id, (read_exactly_at _ _ _ Hat3). unfold pret.
      rewrite (IH _ _ _ rest Hl' eq_refl Hat4).
      rewrite filter_cons_False
        by (unfold known; cbn; rewrite Hreader; intros [? ?]; discriminate).
      do 3 f_equal. lia.
Qed.

(** X10: a set of tagged unions written with one table of
    members is read with any other table as the elements whose tags the
    reader knows; the elements with tags it does not know are skipped
    by their announced sizes and do not stop the read. *)
Theorem tagged_union_forward_compatible (data : list (Z * V)) (before after : bytes) :
  Forall (member_written writer reader v) data →
  Z.of_nat (length data) < 2 ^ 32 →
  ∃ out, write_disk_set_of_tagged_union writer v data = Ok out ∧
         parse_disk_set_of_tagged_union reader v ∅
           (mk_reader (before ++ out ++ after) (length before))
         = Ok (list_to_map (filter (known reader) data),
               mk_reader (before ++ out ++ after) (length before + length out)).
Proof.
  intros Hl Hn.
  assert (Hw : ∃ body, write_tagged_elements writer v data = Ok body).
  { clear Hn. induction Hl as [|[tag value] l Hkv _ [body IH]]; [eexists; reflexivity|].
    destruct Hkv as (_ & wr & payload & Hwr & Hpay & _).
    cbn [fst snd] in *. cbn [write_tagged_elements]. rewrite Hwr, Hpay, IH.
    eexists. reflexivity. }
  destruct Hw as [body Hw].
  exists (write_int 4 (uint32_t (Z.of_nat (length data))) ++ body). split.
  - unfold write_disk_set_of_tagged_union. rewrite Hw. reflexivity.
  - set (out := _ ++ body). set (file := before ++ out ++ after).
    assert (Hat : at_pos file (length before) out) by apply at_pos_middle.
    apply at_pos_app in Hat as [Hat1 Hat2]. rewrite length_write_int in Hat2.
    unfold parse_disk_set_of_tagged_union, pbind.
    rewrite (parse_uint_at _ _ _ _ Hat1)
      by (apply (wrap_range 32); lia).
    unfold uint32_t, wrap. rewrite Z.mod_small by lia. rewrite Nat2Z.id.
    rewrite (parse_tagged_elements_spec data _ _ _ body Hl Hw Hat2).
    rewrite (left_id_L ∅ (∪)). unfold out.
    rewrite length_app, length_write_int. do 3 f_equal. lia.
Qed.

End TaggedUnionProofs.

(** ** Reverse lookup in the name tables *)

Lemma reverse_map_of_at {K V : Type} `{EqDecision K, EqDecision V}
    (map : list (K * V)) (k : K) (v : V) :
  NoDup (map.*2) → map_at k map = Ok v → reverse_map v map = Ok k.
Proof.
  induction map as [|[k' v'] map IH]; intros Hnd Hat; [discriminate|].
  cbn [fmap list_fmap snd] in Hnd. apply NoDup_cons in Hnd as [Hnotin Hnd].
  cbn [map_at reverse_map fst snd] in *.
  destruct (decide (k' = k)) as [->|Hk].
  - injection Hat as ->. rewrite decide_True by reflexivity. reflexivity.
  - destruct (decide (v' = v)) as [->|Hv]; [|apply IH; assumption].
    exfalso. apply Hnotin. clear -Hat.
    induction map as [|[k2 v2] map IH]; [discriminate|].
    cbn [map_at fst snd] in Hat. cbn [fmap list_fmap snd].
    destruct (decide (k2 = k)).
    + injection Hat as ->. left.
    + right. apply IH, Hat.
Qed.

Lemma map_at_of_reverse {K V : Type} `{EqDecision K, EqDecision V}
    (map : list (K * V)) (k : K) (v : V) :
  NoDup (map.*1) → reverse_map v map = Ok k → map_at k map = Ok v.
Proof.
  induction map as [|[k' v'] map IH]; intros Hnd Hr; [discriminate|].
  cbn [fmap list_fmap fst] in Hnd. apply NoDup_cons in Hnd as [Hnotin Hnd].
  cbn [map_at reverse_map fst snd] in *.
  destruct (decide (v' = v)) as [->|Hv].
  - injection Hr as ->. rewrite decide_True by reflexivity. reflexivity.
  - destruct (decide (k' = k)) as [->|Hk]; [|apply IH; assumption].
    exfalso. apply Hnotin. clear -Hr.
    induction map as [|[k2 v2] map IH]; [discriminate|].
    cbn [reverse_map fst snd] in Hr. cbn [fmap list_fmap fst].
    destruct (decide (v2 = v)).
    + injection Hr as ->. left.
    + right. apply IH, Hr.
Qed.

Lemma reverse_map_absent {K V : Type} `{EqDecision V} (map : list (K * V)) (v : V) :
  v ∉ map.*2 → reverse_map v map = Throw (out_of_range "unable to reverse map").
Proof.
  induction map as [|[k' v'] map IH]; intros Hn; [reflexivity|].
  cbn [fmap list_fmap snd] in Hn. apply not_elem_of_cons in Hn as [Hne Hn].
  cbn [reverse_map snd]. rewrite decide_False by congruence. apply IH, Hn.
Qed.

(** X11: over a table without repeated keys and without repeated
    values, [reverse_map] is the inverse of [at]: it returns the key
    of a value exactly when [at] returns the value for the key; for a
    value that the table does not hold it throws [out_of_range]. *)
Theorem reverse_map_inverts_at {K V : Type} `{EqDecision K, EqDecision V}
    (map : list (K * V)) (k : K) (v : V) :
  NoDup (map.*1) → NoDup (map.*2) →
  (map_at k map = Ok v ↔ reverse_map v map = Ok k) ∧
  (v ∉ map.*2 → reverse_map v map = Throw (out_of_range "unable to reverse map")).
Proof.
  intros H1 H2. split; [split|].
  - apply reverse_map_of_at, H2.
  - apply map_at_of_reverse, H1.
  - apply reverse_map_absent.
Qed.

Lemma reverse_map_inverts_at_witness :
  map_at mc _version_string = Ok "mc"%string ∧
  reverse_map "mc"%string _version_string = Ok mc ∧
  reverse_map "md"%string _version_string
  = Throw (out_of_range "unable to reverse map").
Proof.
  assert (H1 : NoDup (_version_string.*1)) by (apply (bool_decide_unpack _); vm_compute; exact I).
  assert (H2 : NoDup (_version_string.*2)) by (apply (bool_decide_unpack _); vm_compute; exact I).
  split; [reflexivity|]. split.
  - apply (reverse_map_inverts_at _version_string mc "mc"%string H1 H2). reflexivity.
  - apply (reverse_map_inverts_at _version_string mc "md"%string H1 H2).
    apply (bool_decide_unpack _). vm_compute. exact I.
Defined.

(** ** The TOC file *)
Lemma split_on_line name rest :
  has_char newline name = false →
  split_on newline (name ++ String newline rest) = name :: split_on newline rest.
Proof.
  induction name as [|c name IH]; intros H.
  - change (EmptyString ++ String newline rest)%string with (String newline rest).
    cbn [split_on]. rewrite Ascii.eqb_refl. reflexivity.
  - cbn [has_char] in H. apply orb_false_iff in H as [Hc Hn].
    change (String c name ++ String newline rest)%string
      with (String c (name ++ String newline rest)).
    cbn [split_on]. rewrite Hc, (IH Hn). reflexivity.
Qed.

Lemma substring_all s : substring 0 (String.length s) s = s.
Proof. induction s as [|c s IH]; [reflexivity|]. cbn. rewrite IH. reflexivity. Qed.

Lemma map_at_elem {K V : Type} `{EqDecision K} (map : list (K * V)) (key : K) (x : V) :
  map_at key map = Ok x → (key, x) ∈ map.
Proof.
  induction map as [|[k n] m IH]; [discriminate|].
  cbn [map_at fst snd]. destruct (decide (k = key)) as [->|].
  - intros [= ->]. left.
  - intros H. right. apply IH, H.
Qed.

Section TocProofs.
Variable component_map : list (component_type * string).
Hypothesis Hnames : distinct_line_names component_map.

Lemma read_written_lines keys : ∀ out st,
  write_toc_lines component_map keys = Ok out →
  fold_left (read_toc_line component_map) (split_on newline out) st
  = mk_toc_components (_recognized_components st ∪ list_to_set keys)
      (_unrecognized_components st).
Proof.
  destruct Hnames as [Hnd Hform].
  induction keys as [|key keys IH]; intros out st Hw.
  - injection Hw as <-. cbn. rewrite (right_id_L ∅ (∪)). destruct st; reflexivity.
  - cbn [write_toc_lines] in Hw.
    destruct (map_at key component_map) as [name|e] eqn:Hat; [|discriminate].
    cbn [rbind] in Hw.
    destruct (write_toc_lines component_map keys) as [out'|e] eqn:Hrest; [|discriminate].
    cbn [rbind] in Hw. injection Hw as <-.
    pose proof (map_at_elem _ _ _ Hat) as Hin.
    rewrite Forall_forall in Hform. destruct (Hform _ Hin) as [Hne Hnl]. cbn [snd] in *.
    change (String newline EmptyString ++ out')%string with (String newline out').
    rewrite split_on_line by exact Hnl.
    cbn [fold_left]. unfold read_toc_line at 2.
    destruct (String.eqb_spec name ""); [contradiction|].
    rewrite (reverse_map_of_at _ _ _ Hnd Hat).
    rewrite (IH out' _ eq_refl). cbn [_recognized_components _unrecognized_components].
    f_equal. cbn [list_to_set]. rewrite (assoc_L (∪)). reflexivity.
Qed.

(** X12: with component names that can be told apart, a TOC file
    written by [write_toc] for at least one component and shorter
    than 4096 bytes is read back by [read_toc] as the set of the
    components written, in whatever order they were written, with no
    unrecognized component. *)
Theorem toc_roundtrip (recognized : list component_type) (content : string) :
  recognized ≠ [] →
  write_toc component_map false recognized = Ok content →
  (String.length content < 4096)%nat →
  read_toc component_map (Some content) (mk_toc_components ∅ [])
  = Ok (mk_toc_components (list_to_set recognized) []).
Proof.
  intros Hne Hw Hlen. unfold write_toc in Hw. unfold read_toc.
  cbn [_recognized_components]. rewrite bool_decide_eq_true_2 by reflexivity.
  cbn [negb]. rewrite Nat.min_l by lia.
  destruct (Nat.leb_spec 4096 (String.length content)); [lia|].
  rewrite substring_all, (read_written_lines _ _ _ Hw).
  cbn [_recognized_components _unrecognized_components].
  rewrite (left_id_L ∅ (∪)).
  rewrite bool_decide_eq_false_2; [reflexivity|].
  destruct recognized as [|key keys]; [contradiction|].
  cbn [list_to_set]. set_solver.
Qed.
End TocProofs.

(** ** Writing the Statistics component *)

Lemma parse_offset_pairs_at data (els : list (metadata_type * Z)) : ∀ p,
  at_pos data p (concat (map (λ e, write_int 4 e.1 ++ write_int 4 e.2) els)) →
  Forall (λ e, 0 ≤ e.1 < 2 ^ 32 ∧ 0 ≤ e.2 < 2 ^ 32) els →
  parse_offset_pairs (length els) (mk_reader data p)
  = Ok (els, mk_reader data (p + 8 * length els)).
Proof.
  induction els as [|[t o] els IH]; intros p Hat Hr.
  - cbn. unfold pret. rewrite Nat.add_0_r. reflexivity.
  - inversion Hr as [|? ? [Ht Ho] Hr']; subst. cbn [fst snd] in *.
    cbn [map concat] in Hat. cbn [fst snd] in Hat. rewrite <- !app_assoc in Hat.
    apply at_pos_app in Hat as [H1 Hat]. rewrite length_write_int in Hat.
    apply at_pos_app in Hat as [H2 Hat]. rewrite length_write_int in Hat.
    cbn [length parse_offset_pairs]. unfold pbind.
    rewrite (parse_uint_at _ _ _ _ H1) by exact Ht.
    rewrite (parse_uint_at _ _ _ _ H2) by exact Ho.
    rewrite (IH _ Hat Hr'). unfold pret. do 3 f_equal. lia.
Qed.

Lemma sort_offsets_3 a b c :
  sort_offsets [(Validation, a); (Compaction, b); (Stats, c)]
  = [(Validation, a); (Compaction, b); (Stats, c)].
Proof. vm_compute. reflexivity. Qed.

Lemma sort_offsets_4 a b c d :
  sort_offsets [(Validation, a); (Compaction, b); (Stats, c); (Serialization, d)]
  = [(Validation, a); (Compaction, b); (Stats, c); (Serialization, d)].
Proof. vm_compute. reflexivity. Qed.

Section SortedTypes.
Context {compaction_metadata stats_metadata serialization_header : Type}.
Lemma sorted_types_3 (x y z : @metadata compaction_metadata stats_metadata serialization_header) :
  merge_sort Z.le (map fst (map_to_list (<[Stats := z]> (<[Compaction := y]> (<[Validation := x]> ∅)))))
  = [Validation; Compaction; Stats].
Proof. vm_compute. reflexivity. Qed.
Lemma sorted_types_4 (x y z w : @metadata compaction_metadata stats_metadata serialization_header) :
  merge_sort Z.le (map fst (map_to_list (<[Serialization := w]> (<[Stats := z]> (<[Compaction := y]> (<[Validation := x]> ∅))))))
  = [Validation; Compaction; Stats; Serialization].
Proof. vm_compute. reflexivity. Qed.
End SortedTypes.

Lemma uint64_small z : 0 ≤ z < 2 ^ 64 → uint64_t z = z.
Proof. intros H. unfold uint64_t, wrap. apply Z.mod_small. lia. Qed.
Lemma uint32_small z : 0 ≤ z < 2 ^ 32 → uint32_t z = z.
Proof. intros H. unfold uint32_t, wrap. apply Z.mod_small. lia. Qed.

Lemma parse_validation_metadata_at v data p (m : validation_metadata) b :
  write_validation_metadata v m = Ok b →
  0 ≤ filter_chance m < 2 ^ 64 →
  at_pos data p b →
  Z.of_nat (length b) = 10 + Z.of_nat (length (partitioner m)) ∧
  parse_validation_metadata v (mk_reader data p)
  = Ok (m, mk_reader data (p + length b)).
Proof.
  unfold write_validation_metadata, write_disk_string, check_truncate_and_assign.
  destruct (Z.eqb_spec (wrap (Z.of_nat 2 * 8) (Z.of_nat (length (partitioner m))))
              (Z.of_nat (length (partitioner m)))) as [Heq|]; [|discriminate].
  cbn [rbind]. intros Hb Hf Hat.
  assert (Hlen : Z.of_nat (length (partitioner m)) < 2 ^ (Z.of_nat 2 * 8)).
  { rewrite <- Heq. apply Z.mod_pos_bound. lia. }
  assert (b = (write_int 2 (Z.of_nat (length (partitioner m))) ++ partitioner m)
              ++ write_int 8 (filter_chance m)) as -> by (rewrite Heq in Hb; congruence).
  split.
  { rewrite !length_app, !length_write_int. lia. }
  apply at_pos_app in Hat as [H1 H2].
  unfold parse_validation_metadata, pbind.
  rewrite (parse_disk_string_at _ _ 2 _ Hlen H1).
  unfold parse_double.
  rewrite length_app, length_write_int in H2.
  replace (p + 2 + length (partitioner m))%nat
    with (p + (2 + length (partitioner m)))%nat by lia.
  rewrite (parse_uint_at _ _ _ _ H2) by (change (Z.of_nat 8 * 8) with 64; exact Hf).
  unfold pret. destruct m as [pt fc]. cbn [partitioner filter_chance].
  rewrite !length_app, !length_write_int. do 3 f_equal. lia.
Qed.

Section StatisticsRoundtrip.

Context {compaction_metadata stats_metadata serialization_header : Type}.
Variable parse_c : sstable_version_types → parser compaction_metadata.
Variable parse_s : sstable_version_types → parser stats_metadata.
Variable parse_h : sstable_version_types → parser serialization_header.
Variable write_c : sstable_version_types → compaction_metadata → result bytes.
Variable write_s : sstable_version_types → stats_metadata → result bytes.
Variable write_h : sstable_version_types → serialization_header → result bytes.
Variable size_v : sstable_version_types → validation_metadata → Z.
Variable size_c : sstable_version_types → compaction_metadata → Z.
Variable size_s : sstable_version_types → stats_metadata → Z.
Variable size_h : sstable_version_types → serialization_header → Z.

Abbreviation md := (@metadata compaction_metadata stats_metadata serialization_header).

Lemma parse_entry_validation v data (o : Z) (m : validation_metadata) b c r :
  write_validation_metadata v m = Ok b → 0 ≤ filter_chance m < 2 ^ 64 →
  at_pos data (Z.to_nat o) b →
  file_data r = data →
  ∃ r', parse_statistics_entry parse_c parse_s parse_h v (Validation, o) c r
        = Ok (<[Validation := metadata_validation m]> c, r') ∧ file_data r' = data.
Proof.
  intros Hw Hf Hat <-. unfold parse_statistics_entry, pbind, seek. cbn [fst snd].
  change (Validation =? Validation) with true. cbn match.
  destruct (parse_validation_metadata_at v _ _ m b Hw Hf Hat) as [_ ->].
  eexists. split; reflexivity.
Qed.


Lemma at_pos_file (data x : bytes) (o : Z) (p : nat) :
  at_pos data p x → o = Z.of_nat p → at_pos data (Z.to_nat o) x.
Proof. intros H ->. rewrite Nat2Z.id. exact H. Qed.

(** X13: the Statistics component that [seal_statistics] builds
    from an empty one is written by [write] and parsed back by [parse]
    as the same component, provided the partitioner name fits 16 bits,
    the sizers give the sizes of what the writers emit, the members
    parse back from their bytes and the file stays below 4 GiB. *)
Theorem statistics_roundtrip (v : sstable_version_types) (pt : bytes) (fp : Z)
    (compaction : compaction_metadata) (stats : stats_metadata)
    (header : serialization_header) :
  let s := seal_statistics size_v size_c size_s size_h v (mk_statistics [] ∅)
             pt fp compaction stats header in
  Z.of_nat (length pt) < 2 ^ 16 → 0 ≤ fp < 2 ^ 64 →
  size_v v (mk_validation_metadata pt fp) = 10 + Z.of_nat (length pt) →
  member_roundtrip (write_c v compaction) (size_c v compaction) (parse_c v) compaction →
  member_roundtrip (write_s v stats) (size_s v stats) (parse_s v) stats →
  (is_mc v = true →
   member_roundtrip (write_h v header) (size_h v header) (parse_h v) header) →
  36 + size_v v (mk_validation_metadata pt fp) + size_c v compaction + size_s v stats
    + (if is_mc v then size_h v header else 0) < 2 ^ 32 →
  ∃ out, write_statistics write_c write_s write_h v s = Ok out ∧
         run_parser (parse_statistics parse_c parse_s parse_h v) out = Ok s.
Proof.
  intros s Hpt Hfp Hsv (bc & Hwc & Hsc & Hpc) (bs & Hws & Hss & Hps) Hh Hbound.
  set (mv := mk_validation_metadata pt fp) in *.
  set (bv := (write_int 2 (Z.of_nat (length pt)) ++ pt) ++ write_int 8 fp).
  assert (Hwv : write_validation_metadata v mv = Ok bv).
  { unfold write_validation_metadata. cbn [partitioner filter_chance mv].
    rewrite write_disk_string_ok by exact Hpt. reflexivity. }
  assert (Hlv : Z.of_nat (length bv) = size_v v mv).
  { rewrite Hsv. unfold bv. rewrite !length_app, !length_write_int. lia. }
  destruct (is_mc v) eqn:Hv.
  - destruct (Hh eq_refl) as (bh & Hwh & Hsh & Hph).
    set (o0 := 36). set (o1 := o0 + size_v v mv).
    set (o2 := o1 + size_c v compaction). set (o3 := o2 + size_s v stats).
    set (els := [(Validation, o0); (Compaction, o1); (Stats, o2); (Serialization, o3)]).
    set (c := <[Serialization := metadata_serialization header]>
                (<[Stats := metadata_stats stats]>
                   (<[Compaction := metadata_compaction compaction]>
                      (<[Validation := metadata_validation mv]> (∅ : gmap Z md))))).
    assert (Hs : s = mk_statistics els c).
    { unfold s, seal_statistics, populate_statistics_offsets. rewrite Hv.
      cbn [contents offsets]. fold mv.
      rewrite !sorted_types_4. fold c. unfold offsets_serialized_size.
      cbn [app map length].
      f_equal. cbn [assign_offsets].
      change (c !! Validation) with (Some (metadata_validation mv : md)).
      change (c !! Compaction) with (Some (metadata_compaction compaction : md)).
      change (c !! Stats) with (Some (metadata_stats stats : md)).
      cbn [metadata_serialized_size].
      change (4 + 8 * Z.of_nat 4) with 36.
      rewrite (uint64_small 36) by lia. fold o0.
      rewrite (uint64_small (o0 + _)) by (unfold o0; lia). fold o1.
      rewrite (uint64_small (o1 + _)) by (unfold o1, o0; lia). fold o2.
      rewrite (uint64_small (o2 + _)) by (unfold o2, o1, o0; lia). fold o3.
      rewrite !uint32_small by (unfold o3, o2, o1, o0; lia). reflexivity. }
    set (table := write_int 4 4 ++ concat (map (λ e, write_int 4 e.1 ++ write_int 4 e.2) els)).
    exists (table ++ bv ++ bc ++ bs ++ bh). rewrite Hs. split.
    + unfold write_statistics. cbn [offsets contents].
      unfold write_offsets. change (check_truncate_and_assign 4 _) with (Ok 4 : result Z).
      cbn [rbind]. unfold els at 1. cbn [write_contents fst].
      change (c !! Validation) with (Some (metadata_validation mv : md)).
      change (c !! Compaction) with (Some (metadata_compaction compaction : md)).
      change (c !! Stats) with (Some (metadata_stats stats : md)).
      change (c !! Serialization) with (Some (metadata_serialization header : md)).
      cbn [write_metadata]. rewrite Hwv, Hwc, Hws, Hwh. cbn [rbind].
      rewrite app_nil_r. reflexivity.
    + set (data := table ++ bv ++ bc ++ bs ++ bh).
      assert (Hlt : length table = 36%nat) by reflexivity.
      pose proof (at_pos_whole data) as Hat. unfold data at 2 in Hat.
      apply at_pos_app in Hat as [Htab Hat]. rewrite Hlt in Hat. cbn [Nat.add] in Hat.
      apply at_pos_app in Hat as [Hav Hat].
      apply at_pos_app in Hat as [Hac Hat].
      apply at_pos_app in Hat as [Has Hah].
      unfold table in Htab. apply at_pos_app in Htab as [Hn Hpairs].
      rewrite length_write_int in Hpairs. cbn [Nat.add] in Hpairs.
      unfold run_parser, parse_statistics, pbind, parse_offsets, pbind.
      rewrite (parse_uint_at _ _ 4 4 Hn) by lia.
      change (0 + 4)%nat with 4%nat. change (Z.to_nat 4) with (length els).
      rewrite (parse_offset_pairs_at _ els _ Hpairs).
      2:{ unfold els, o3, o2, o1, o0. repeat constructor; cbn [fst snd];
            unfold Validation, Compaction, Stats, Serialization; lia. }
      unfold els. rewrite sort_offsets_4.
      cbn [parse_statistics_entries]. unfold pbind.
      edestruct (parse_entry_validation v data o0 mv bv ∅) as (r1 & -> & Hd1);
        [exact Hwv|exact Hfp| |reflexivity|].
      { apply (at_pos_file _ _ _ _ Hav). reflexivity. }
      (* compaction *)
      unfold parse_statistics_entry at 1. unfold pbind, seek. cbn [fst snd].
      change (Compaction =? Validation) with false.
      change (Compaction =? Compaction) with true. cbn match. rewrite Hd1.
      edestruct (Hpc data (Z.to_nat o1)) as (r2 & -> & Hd2).
      { apply (at_pos_file _ _ _ _ Hac). unfold o1, o0. lia. }
      unfold pret.
      (* stats *)
      unfold parse_statistics_entry at 1. unfold pbind, seek. cbn [fst snd].
      change (Stats =? Validation) with false.
      change (Stats =? Compaction) with false.
      change (Stats =? Stats) with true. cbn match. rewrite Hd2.
      edestruct (Hps data (Z.to_nat o2)) as (r3 & -> & Hd3).
      { apply (at_pos_file _ _ _ _ Has). unfold o2, o1, o0. lia. }
      unfold pret.
      (* header *)
      unfold parse_statistics_entry at 1. unfold pbind, seek. cbn [fst snd].
      change (Serialization =? Validation) with false.
      change (Serialization =? Compaction) with false.
      change (Serialization =? Stats) with false.
      change (Serialization =? Serialization) with true. cbn match. rewrite Hv, Hd3.
      edestruct (Hph data (Z.to_nat o3)) as (r4 & -> & Hd4).
      { apply (at_pos_file _ _ _ _ Hah). unfold o3, o2, o1, o0. lia. }
      unfold pret. reflexivity.
  - clear Hh. rewrite Z.add_0_r in Hbound.
    set (o0 := 28). set (o1 := o0 + size_v v mv).
    set (o2 := o1 + size_c v compaction).
    set (els := [(Validation, o0); (Compaction, o1); (Stats, o2)]).
    set (c := <[Stats := metadata_stats stats]>
                (<[Compaction := metadata_compaction compaction]>
                   (<[Validation := metadata_validation mv]> (∅ : gmap Z md)))).
    assert (Hs : s = mk_statistics els c).
    { unfold s, seal_statistics, populate_statistics_offsets. rewrite Hv.
      cbn [contents offsets]. fold mv.
      rewrite !sorted_types_3. fold c. unfold offsets_serialized_size.
      cbn [app map length].
      f_equal. cbn [assign_offsets].
      change (c !! Validation) with (Some (metadata_validation mv : md)).
      change (c !! Compaction) with (Some (metadata_compaction compaction : md)).
      cbn [metadata_serialized_size].
      change (4 + 8 * Z.of_nat 3) with 28.
      rewrite (uint64_small 28) by lia. fold o0.
      rewrite (uint64_small (o0 + _)) by (unfold o0; lia). fold o1.
      rewrite (uint64_small (o1 + _)) by (unfold o1, o0; lia). fold o2.
      rewrite !uint32_small by (unfold o2, o1, o0; lia). reflexivity. }
    set (table := write_int 4 3 ++ concat (map (λ e, write_int 4 e.1 ++ write_int 4 e.2) els)).
    exists (table ++ bv ++ bc ++ bs). rewrite Hs. split.
    + unfold write_statistics. cbn [offsets contents].
      unfold write_offsets. change (check_truncate_and_assign 4 _) with (Ok 3 : result Z).
      cbn [rbind]. unfold els at 1. cbn [write_contents fst].
      change (c !! Validation) with (Some (metadata_validation mv : md)).
      change (c !! Compaction) with (Some (metadata_compaction compaction : md)).
      change (c !! Stats) with (Some (metadata_stats stats : md)).
      cbn [write_metadata]. rewrite Hwv, Hwc, Hws. cbn [rbind].
      rewrite app_nil_r. reflexivity.
    + set (data := table ++ bv ++ bc ++ bs).
      assert (Hlt : length table = 28%nat) by reflexivity.
      pose proof (at_pos_whole data) as Hat. unfold data at 2 in Hat.
      apply at_pos_app in Hat as [Htab Hat]. rewrite Hlt in Hat. cbn [Nat.add] in Hat.
      apply at_pos_app in Hat as [Hav Hat].
      apply at_pos_app in Hat as [Hac Has].
      unfold table in Htab. apply at_pos_app in Htab as [Hn Hpairs].
      rewrite length_write_int in Hpairs. cbn [Nat.add] in Hpairs.
      unfold run_parser, parse_statistics, pbind, parse_offsets, pbind.
      rewrite (parse_uint_at _ _ 4 3 Hn) by lia.
      change (0 + 4)%nat with 4%nat. change (Z.to_nat 3) with (length els).
      rewrite (parse_offset_pairs_at _ els _ Hpairs).
      2:{ unfold els, o2, o1, o0. repeat constructor; cbn [fst snd];
            unfold Validation, Compaction, Stats; lia. }
      unfold els. rewrite sort_offsets_3.
      cbn [parse_statistics_entries]. unfold pbind.
      edestruct (parse_entry_validation v data o0 mv bv ∅) as (r1 & -> & Hd1);
        [exact Hwv|exact Hfp| |reflexivity|].
      { apply (at_pos_file _ _ _ _ Hav). reflexivity. }
      unfold parse_statistics_entry at 1. unfold pbind, seek. cbn [fst snd].
      change (Compaction =? Validation) with false.
      change (Compaction =? Compaction) with true. cbn match. rewrite Hd1.
      edestruct (Hpc data (Z.to_nat o1)) as (r2 & -> & Hd2).
      { apply (at_pos_file _ _ _ _ Hac). unfold o1, o0. lia. }
      unfold pret.
      unfold parse_statistics_entry at 1. unfold pbind, seek. cbn [fst snd].
      change (Stats =? Validation) with false.
      change (Stats =? Compaction) with false.
      change (Stats =? Stats) with true. cbn match. rewrite Hd2.
      edestruct (Hps data (Z.to_nat o2)) as (r3 & -> & Hd3).
      { apply (at_pos_file _ _ _ _ Has). unfold o2, o1, o0. lia. }
      unfold pret. reflexivity.
Qed.

End StatisticsRoundtrip.

Section StatisticsUnknown.
Context {compaction_metadata stats_metadata serialization_header : Type}.
Variable parse_c : sstable_version_types → parser compaction_metadata.
Variable parse_s : sstable_version_types → parser stats_metadata.
Variable parse_h : sstable_version_types → parser serialization_header.
Variable write_c : sstable_version_types → compaction_metadata → result bytes.
Variable write_s : sstable_version_types → stats_metadata → result bytes.
Variable write_h : sstable_version_types → serialization_header → result bytes.

Lemma parse_statistics_entry_unknown v val c r c' r' t :
  parse_statistics_entry parse_c parse_s parse_h v val c r = Ok (c', r') →
  ¬ known_metadata_type t → c' !! t = c !! t.
Proof.
  unfold parse_statistics_entry, pbind, seek, pret, pthrow, known_metadata_type.
  intros H Ht.
  destruct (Z.eqb_spec val.1 Validation) as [E|_].
  { destruct (parse_validation_metadata _ _) as [[m r1]|e]; [|discriminate].
    injection H as <- <-. apply lookup_insert_ne. rewrite E. intros <-. tauto. }
  destruct (Z.eqb_spec val.1 Compaction) as [E|_].
  { destruct (parse_c _ _) as [[m r1]|e]; [|discriminate].
    injection H as <- <-. apply lookup_insert_ne. rewrite E. intros <-. tauto. }
  destruct (Z.eqb_spec val.1 Stats) as [E|_].
  { destruct (parse_s _ _) as [[m r1]|e]; [|discriminate].
    injection H as <- <-. apply lookup_insert_ne. rewrite E. intros <-. tauto. }
  destruct (Z.eqb_spec val.1 Serialization) as [E|_].
  { destruct (is_mc v); [|discriminate].
    destruct (parse_h _ _) as [[m r1]|e]; [|discriminate].
    injection H as <- <-. apply lookup_insert_ne. rewrite E. intros <-. tauto. }
  injection H as <- <-. reflexivity.
Qed.

Lemma parse_statistics_entries_unknown v elements : ∀ c r c' r' t,
  parse_statistics_entries parse_c parse_s parse_h v elements c r = Ok (c', r') →
  ¬ known_metadata_type t → c' !! t = c !! t.
Proof.
  induction elements as [|val elements IH]; intros c r c' r' t H Ht.
  - injection H as <- <-. reflexivity.
  - cbn [parse_statistics_entries] in H. unfold pbind in H.
    destruct (parse_statistics_entry _ _ _ _ _ _ _) as [[c1 r1]|e] eqn:H1; [|discriminate].
    rewrite (IH _ _ _ _ _ H Ht). eapply parse_statistics_entry_unknown; eassumption.
Qed.

Lemma write_contents_missing v elements (c : gmap Z (@metadata compaction_metadata stats_metadata serialization_header)) t o :
  (t, o) ∈ elements → c !! t = None →
  ∀ out, write_contents write_c write_s write_h v elements c ≠ Ok out.
Proof.
  intros Hin Hc. induction elements as [|e elements IH]; [inversion Hin|].
  intros out. cbn [write_contents].
  apply elem_of_cons in Hin as [<-|Hin].
  - cbn [fst]. rewrite Hc. discriminate.
  - destruct (c !! e.1) as [m|]; [|discriminate].
    destruct (write_metadata _ _ _ _ _) as [b|]; [|discriminate]. cbn [rbind].
    destruct (write_contents _ _ _ _ _ _) as [bs|] eqn:Hw; [|discriminate].
    exfalso. exact (IH Hin bs eq_refl).
Qed.

(** X14: [parse] skips an entry of the offsets table whose type
    it has no case for but keeps it in the table, so the parsed
    component has no contents for that type and [write] of it fails
    at [contents.at]. *)
Theorem statistics_unknown_type_not_rewritable (v : sstable_version_types)
    (r r' : random_access_reader) s (t o : Z) :
  parse_statistics parse_c parse_s parse_h v r = Ok (s, r') →
  (t, o) ∈ offsets s → ¬ known_metadata_type t →
  contents s !! t = None ∧
  ∀ out, write_statistics write_c write_s write_h v s ≠ Ok out.
Proof.
  unfold parse_statistics, pbind. intros H Hin Ht.
  destruct (parse_offsets v r) as [[table r1]|e]; [|discriminate].
  destruct (parse_statistics_entries _ _ _ _ _ _ _) as [[c r2]|e] eqn:Hc; [|discriminate].
  unfold pret in H. injection H as <- <-. cbn [offsets contents] in *.
  assert (Hnone : c !! t = None).
  { etransitivity; [eapply parse_statistics_entries_unknown; eassumption|apply lookup_empty]. }
  split; [exact Hnone|]. intros out. unfold write_statistics. cbn [offsets contents].
  destruct (write_offsets _ _) as [tb|]; [|discriminate]. cbn [rbind].
  destruct (write_contents _ _ _ _ _ _) as [bs|] eqn:Hw; [|discriminate].
  exfalso. exact (write_contents_missing _ _ _ _ _ Hin Hnone bs Hw).
Qed.
End StatisticsUnknown.

(** ** Generating, preparing and laying out a summary *)

Section GenProofs.
Variable get_token : bytes → bytes.
Variable gsafs : Z → Z → Z.
Variable BASE_SAMPLING_LEVEL : Z.






End GenProofs.

Lemma ceil_div_bound n i m :
  0 ≤ n → 0 < i → 0 ≤ m →
  (n / i + (if n mod i =? 0 then 0 else 1) ≤ m ↔ n ≤ i * m).
Proof.
  intros Hn Hi Hm.
  pose proof (Z.div_mod n i ltac:(lia)) as Hdm.
  pose proof (Z.mod_pos_bound n i Hi) as Hmod.
  destruct (Z.eqb_spec (n mod i) 0) as [H0|H0]; split; intros H; nia.
Qed.

(** X16: for at least one expected partition and a positive
    32-bit interval, [prepare_summary] throws exactly when the
    partitions exceed the interval times the largest 32-bit number;
    otherwise it resets the header to the interval, the sampling
    level and a zero memory size and keeps the rest. *)
Theorem prepare_summary_threshold (level : Z) (s : summary) (n interval : Z) :
  1 ≤ n < 2 ^ 64 → 0 < interval < 2 ^ 32 →
  prepare_summary level s n interval
  = if n <=? interval * (2 ^ 32 - 1)
    then Some (Ok (mk_summary
                     (mk_summary_header interval (size (header s)) 0 level
                        (size_at_full_sampling (header s)))
                     (positions s) (entries s) (first_key s) (last_key s)))
    else Some (Throw (malformed_sstable_exception
                        "Current sampling level not enough to generate summary.")).
Proof.
  intros Hn Hi. unfold prepare_summary.
  destruct (Z.ltb_spec n 1); [lia|].
  set (m := n / interval + (if n mod interval =? 0 then 0 else 1)).
  assert (Hm : 0 ≤ m ≤ n).
  { unfold m. pose proof (Z.div_mod n interval ltac:(lia)).
    pose proof (Z.mod_pos_bound n interval ltac:(lia)).
    assert (0 ≤ n / interval) by (apply Z.div_pos; lia).
    destruct (Z.eqb_spec (n mod interval) 0); nia. }
  assert (Hu : uint64_t m = m) by (unfold uint64_t, wrap; apply Z.mod_small; lia).
  rewrite Hu.
  pose proof (ceil_div_bound n interval (2 ^ 32 - 1) ltac:(lia) ltac:(lia) ltac:(lia)) as Hc.
  fold m in Hc.
  destruct (Z.leb_spec n (interval * (2 ^ 32 - 1))) as [Hle|Hgt].
  - destruct (Z.gtb_spec m (2 ^ 32 - 1)) as [Hg|_]; [lia|]. reflexivity.
  - destruct (Z.gtb_spec m (2 ^ 32 - 1)) as [_|Hg]; [reflexivity|]. lia.
Qed.

Lemma at_pos_inside (a x b : bytes) (p : nat) :
  p = length a → at_pos (a ++ x ++ b) p x.
Proof. intros ->. apply at_pos_middle. Qed.

(** X17: the Summary file of a well-formed summary takes the
    24 bytes of the header, [memory_size] bytes and the two keys with
    their 32-bit lengths; entry [i] lies [positions[i]] bytes after
    the header, the first key [memory_size] bytes after it and the
    last key behind the first. *)
Theorem write_summary_layout (get_token : bytes → bytes) (v : sstable_version_types)
    (s : summary) :
  summary_wf get_token s →
  ∃ out, write_summary v s = Ok out ∧
    Z.of_nat (length out)
    = 24 + memory_size (header s)
      + (4 + Z.of_nat (length (first_key s))) + (4 + Z.of_nat (length (last_key s))) ∧
    (∀ i e, entries s !! i = Some e →
       ∃ pos, positions s !! i = Some pos ∧
              at_pos out (Z.to_nat (24 + pos)) (write_summary_entry v e)) ∧
    at_pos out (Z.to_nat (24 + memory_size (header s)))
      (write_int 4 (Z.of_nat (length (first_key s))) ++ first_key s) ∧
    at_pos out (Z.to_nat (24 + memory_size (header s) + 4 + Z.of_nat (length (first_key s))))
      (write_int 4 (Z.of_nat (length (last_key s))) ++ last_key s).
Proof.
  intros [Hmii Hsl Hsafs Hsize Hmem Hmb Hpos Htok Hep Hfk Hlk].
  pose proof (entries_size_nonneg (entries s)) as Hnn.
  set (n := length (entries s)) in *.
  unfold write_summary. rewrite !write_disk_string_ok by assumption. cbn [rbind].
  eexists. split; [reflexivity|].
  set (hdr := write_summary_header (header s)).
  set (posb := concat (map (le_split sizeof_u32) (positions s))).
  set (ents := concat (map (write_summary_entry v) (entries s))).
  set (fk := write_int 4 _ ++ first_key s). set (lk := write_int 4 _ ++ last_key s).
  assert (Lh : length hdr = 24%nat) by apply length_write_summary_header.
  assert (Lp : length posb = (n * 4)%nat).
  { unfold posb. rewrite length_write_positions, Hpos, length_entry_offsets. reflexivity. }
  assert (Le : Z.of_nat (length ents) = entries_size (entries s))
    by apply length_write_summary_entries.
  assert (Lf : length fk = (4 + length (first_key s))%nat)
    by (unfold fk; rewrite length_app, length_write_int; reflexivity).
  assert (Ll : length lk = (4 + length (last_key s))%nat)
    by (unfold lk; rewrite length_app, length_write_int; reflexivity).
  split; [|split; [|split]].
  - rewrite !length_app, Lh, Lp, Lf, Ll, Hmem. fold n. lia.
  - intros i e Hi.
    pose proof (entry_offsets_lookup (4 * Z.of_nat n) _ _ _ Hi) as Hp.
    rewrite <- Hpos in Hp. eexists. split; [exact Hp|].
    assert (Hsplit : entries s = take i (entries s) ++ e :: drop (S i) (entries s)).
    { symmetry. apply take_drop_middle. exact Hi. }
    unfold ents. rewrite Hsplit at 1. rewrite map_app, concat_app.
    cbn [map concat].
    set (pre := concat (map (write_summary_entry v) (take i (entries s)))).
    assert (Lpre : Z.of_nat (length pre) = entries_size (take i (entries s)))
      by apply length_write_summary_entries.
    pose proof (entries_size_nonneg (take i (entries s))).
    replace (hdr ++ posb ++ (pre ++ write_summary_entry v e ++ _) ++ fk ++ lk)
      with ((hdr ++ posb ++ pre) ++ write_summary_entry v e
              ++ (concat (map (write_summary_entry v) (drop (S i) (entries s))) ++ fk ++ lk))
      by (rewrite <- !app_assoc; reflexivity).
    apply at_pos_inside. rewrite !length_app, Lh, Lp. lia.
  - replace (hdr ++ posb ++ ents ++ fk ++ lk)
      with ((hdr ++ posb ++ ents) ++ fk ++ lk) by (rewrite <- !app_assoc; reflexivity).
    apply at_pos_inside. rewrite !length_app, Lh, Lp, Hmem. fold n. lia.
  - replace (hdr ++ posb ++ ents ++ fk ++ lk)
      with ((hdr ++ posb ++ ents ++ fk) ++ lk ++ []) by (rewrite <- !app_assoc, app_nil_r; reflexivity).
    apply at_pos_inside. rewrite !length_app, Lh, Lp, Lf, Hmem. fold n. lia.
Qed.

(** ** More on the writer for the mc format *)

Section WriterMore.
Context `{env : writer_env}.

Ltac fields :=
  cbn [_data _index _tombstone_written _static_row_written _partition_header_length
       _prev_row_start _partition_key _end_open_marker _start_offset _promoted_index
       _pi_tomb _block_start_offset _block_next_start_offset _first_clustering
       _last_clustering _desired_block_size].

Lemma data_offset_eq w w' : _data w' = _data w → data_offset w' = data_offset w.
Proof. unfold data_offset. intros ->. reflexivity. Qed.

Lemma data_offset_snoc w w' r :
  _data w' = _data w ++ [r] →
  data_offset w' = data_offset w + Z.of_nat (length (encode_record r)).
Proof.
  unfold data_offset, data_bytes. intros ->.
  rewrite map_app, concat_app, length_app. cbn [map concat]. rewrite app_nil_r. lia.
Qed.

Lemma write_clustered_pi info rec w :
  let w' := write_clustered info rec w in
  let r := rec (uint64_t (data_offset w - _prev_row_start w)) in
  let pos' := data_offset w + Z.of_nat (length (encode_record r)) in
  let bs := block_start_after w in
  _data w' = _data w ++ [r] ∧
  _start_offset w' = _start_offset w ∧
  _partition_header_length w' = _partition_header_length w ∧
  _prev_row_start w' = data_offset w ∧
  _last_clustering w' = Some info ∧
  _block_start_offset w' = bs ∧
  _desired_block_size w' = _desired_block_size w ∧
  _end_open_marker w' = _end_open_marker w ∧
  _tombstone_written w' = _tombstone_written w ∧
  _static_row_written w' = _static_row_written w ∧
  if pos' >=? next_after w
  then _promoted_index w'
       = _promoted_index w
         ++ [mk_pi_block (first_after info w) info
               (uint64_t (bs - _start_offset w)) (uint64_t (pos' - bs)) (open_tomb w)] ∧
       _first_clustering w' = None
  else _promoted_index w' = _promoted_index w ∧
       _first_clustering w' = Some (first_after info w).
Proof.
  cbn zeta. 
  set (r := rec (uint64_t (data_offset w - _prev_row_start w))).
  set (w1 := maybe_set_pi_first_clustering info w).
  assert (H1 : _data w1 = _data w ∧ _start_offset w1 = _start_offset w ∧
               _partition_header_length w1 = _partition_header_length w ∧
               _prev_row_start w1 = _prev_row_start w ∧
               _desired_block_size w1 = _desired_block_size w ∧
               _end_open_marker w1 = _end_open_marker w ∧
               _tombstone_written w1 = _tombstone_written w ∧
               _static_row_written w1 = _static_row_written w ∧
               _promoted_index w1 = _promoted_index w ∧
               _first_clustering w1 = Some (first_after info w) ∧
               _block_start_offset w1 = block_start_after w ∧
               _block_next_start_offset w1 = next_after w).
  { unfold w1, maybe_set_pi_first_clustering, first_after, block_start_after, next_after.
    destruct (_first_clustering w) eqn:Hf; fields; rewrite ?Hf; repeat split. }
  destruct H1 as (D1 & S1 & P1 & R1 & B1 & E1 & T1 & St1 & I1 & F1 & Bs1 & N1).
  assert (Ho1 : data_offset w1 = data_offset w) by (apply data_offset_eq, D1).
  unfold write_clustered. fold w1. rewrite Ho1, R1. fold r.
  match goal with |- context [maybe_add_pi_block ?x] => set (w3 := x) end.
  assert (H3 : _data w3 = _data w ++ [r] ∧ _start_offset w3 = _start_offset w ∧
               _partition_header_length w3 = _partition_header_length w ∧
               _prev_row_start w3 = data_offset w ∧
               _desired_block_size w3 = _desired_block_size w ∧
               _end_open_marker w3 = _end_open_marker w ∧
               _tombstone_written w3 = _tombstone_written w ∧
               _static_row_written w3 = _static_row_written w ∧
               _promoted_index w3 = _promoted_index w ∧
               _first_clustering w3 = Some (first_after info w) ∧
               _last_clustering w3 = Some info ∧
               _block_start_offset w3 = block_start_after w ∧
               _block_next_start_offset w3 = next_after w).
  { unfold w3. fields. unfold write_data. fields. rewrite D1.
    repeat split; assumption. }
  clearbody w3. clear w1 D1 S1 P1 R1 B1 E1 T1 St1 I1 F1 Bs1 N1 Ho1.
  destruct H3 as (D3 & S3 & P3 & R3 & B3 & E3 & T3 & St3 & I3 & F3 & L3 & Bs3 & N3).
  pose proof (data_offset_snoc _ _ _ D3) as Ho3.
  unfold maybe_add_pi_block. rewrite Ho3, N3.
  destruct (_ >=? _) eqn:Hc.
  - unfold add_pi_block. rewrite F3, L3. fields. rewrite Ho3, Bs3, S3, I3.
    unfold open_tomb. rewrite E3. repeat split; assumption.
  - repeat split; assumption.
Qed.

(** *** The open end marker at the end of a partition *)
Lemma consume_rt_marker_open m w :
  _end_open_marker (consume_rt_marker m w) = _end_open_marker w.
Proof. apply (write_clustered_pi _ (rec_rt_marker m) w). Qed.

Lemma flush_end_open_marker_none w : _end_open_marker (flush_end_open_marker w) = None.
Proof.
  unfold flush_end_open_marker. destruct (_end_open_marker w) as [m|] eqn:H; [|exact H].
  rewrite consume_rt_marker_open. reflexivity.
Qed.

Lemma drain_tombstones_at_end_closed s rts w w' :
  drain_tombstones s None rts w = Ok w' → _end_open_marker w' = None.
Proof.
  unfold drain_tombstones.
  destruct (ensure_static_row_is_written_if_needed _ _) as [w1|e]; [|discriminate].
  cbn [rbind].
  destruct (_end_open_marker (fold_left drain_tombstone rts w1)) as [open|] eqn:Ho.
  - intros [= <-]. apply flush_end_open_marker_none.
  - intros [= <-]. exact Ho.
Qed.

Lemma before_index_entry_open w :
  _end_open_marker (before_index_entry w) = _end_open_marker w.
Proof.
  unfold before_index_entry. cbn zeta. destruct (_ && _); [|reflexivity].
  destruct (add_pi_block_same_files (write_data rec_end_of_partition w))
    as (_ & _ & _ & _ & E & _).
  rewrite E. reflexivity.
Qed.

Lemma consume_end_of_partition_closed s rts w w' :
  consume_end_of_partition s rts w = Ok w' → _end_open_marker w' = None.
Proof.
  rewrite consume_end_of_partition_unfold.
  destruct (drain_tombstones s None rts w) as [w1|e] eqn:H1; [|discriminate].
  cbn [rbind]. cbn zeta. intros [= <-]. cbn [_end_open_marker write_index].
  rewrite before_index_entry_open. eapply drain_tombstones_at_end_closed, H1.
Qed.

(** X18: whatever range was open and whatever range tombstones are
    left, a successful [consume_end_of_partition] leaves no end marker
    open. *)
Theorem end_of_partition_closes_range_tombstones (s : schema)
    (rts : list range_tombstone) (w w' : writer_m) :
  consume_end_of_partition s rts w = Ok w' → _end_open_marker w' = None.
Proof. apply consume_end_of_partition_closed. Qed.

(** *** The index entry of a partition *)
Lemma consume_new_partition_index k w w' :
  consume_new_partition k w = Ok w' →
  _index w' = _index w ++ (write_int 2 (Z.of_nat (length k)) ++ k)
                ++ write_vint (data_offset w) ∧
  Z.of_nat (length k) < 2 ^ 16.
Proof.
  unfold consume_new_partition, check_truncate_and_assign.
  destruct (Z.eqb_spec (wrap (Z.of_nat 2 * 8) (Z.of_nat (length k))) (Z.of_nat (length k)))
    as [Heq|]; [|discriminate].
  cbn [rbind]. intros [= <-]. cbn [_index]. rewrite Heq. split; [reflexivity|].
  rewrite <- Heq. apply Z.mod_pos_bound. lia.
Qed.

Lemma consume_tombstone_index t w : _index (consume_tombstone t w) = _index w.
Proof. reflexivity. Qed.

Lemma consume_clustered_fold_index s cs : ∀ w w',
  fold_left (consume_clustered s) cs (Ok w) = Ok w' → _index w' = _index w.
Proof.
  intros w w' H. destruct (consume_clustered_fold_grows _ _ _ _ H) as [->|G];
    [reflexivity|]. destruct G as (_ & _ & _ & _ & _ & I). exact I.
Qed.

(** X19: a partition adds one entry to the index file: the key
    with its 16-bit length, the length of the data file before the
    partition as a vint, and the promoted index, which is a size of
    zero when fewer than two blocks were collected and else the size
    followed by the header length, the deletion time of the partition
    tombstone, the number of blocks, the blocks and their 32-bit
    offsets.  At the offset named in the entry the data file holds
    the key. *)
Theorem write_partition_index_entry (s : schema) (p : partition) (w w' : writer_m) :
  write_partition s p w = Ok w' →
  let key_bytes := write_int 2 (Z.of_nat (length (p_key p))) ++ p_key p in
  let start := length (data_bytes (_data w)) in
  let blocks := _promoted_index w' in
  let deletion_time_bytes := λ t : tombstone,
    write_int 4 (local_deletion_time (to_deletion_time t))
    ++ write_int 8 (marked_for_delete_at (to_deletion_time t)) in
  let block_bytes := λ b : pi_block,
    write_clustering_prefix (ci_kind (pb_first b)) (ci_clustering (pb_first b))
    ++ write_clustering_prefix (ci_kind (pb_last b)) (ci_clustering (pb_last b))
    ++ write_vint (pb_offset b)
    ++ write_signed_vint (int64_t (pb_width b - 65536))
    ++ write_int 1 (match pb_open_marker b with Some _ => 1 | None => 0 end)
    ++ match pb_open_marker b with
       | Some t => deletion_time_bytes t
       | None => []
       end in
  let block_offsets :=
    map (λ i, uint32_t (Z.of_nat (length (concat (map block_bytes (take i blocks))))))
      (seq 0 (length blocks)) in
  let promoted :=
    write_vint (_partition_header_length w')
    ++ deletion_time_bytes (_pi_tomb w')
    ++ write_vint (Z.of_nat (length blocks))
    ++ concat (map block_bytes blocks)
    ++ concat (map (write_int 4) block_offsets) in
  _index w'
  = _index w ++ key_bytes ++ write_vint (Z.of_nat start)
    ++ (if (length blocks <? 2)%nat then write_vint 0
        else write_vint (uint64_t (Z.of_nat (length promoted))) ++ promoted) ∧
  at_pos (data_bytes (_data w')) start key_bytes.
Proof.
  intros H. cbn zeta. destruct (write_partition_data _ _ _ _ H) as (body & D & _).
  revert H. unfold write_partition.
  destruct (consume_new_partition (p_key p) w) as [w1|e] eqn:H1; [|discriminate].
  destruct (consume_new_partition_index _ _ _ H1) as [I1 _]. cbn [rbind].
  set (w2 := match p_tombstone p with Some t => consume_tombstone t w1 | None => w1 end).
  assert (I2 : _index w2 = _index w1) by (unfold w2; destruct (p_tombstone p); reflexivity).
  clearbody w2.
  destruct (match p_static_row p with Some _ => _ | None => _ end) as [w3|e] eqn:H3;
    [|discriminate]. cbn [rbind].
  assert (I3 : _index w3 = _index w2).
  { destruct (p_static_row p) as [sr|].
    - apply (consume_static_row_data _ _ _ _ H3).
    - congruence. }
  destruct (fold_left _ _ _) as [w4|e] eqn:H4; [|discriminate]. cbn [rbind].
  pose proof (consume_clustered_fold_index _ _ _ _ H4) as I4.
  intros H5. destruct (consume_end_of_partition_index_written _ _ _ _ H5) as (_ & I5).
  rewrite (write_promoted_index_bytes w') in I5.
  split.
  - rewrite I5, I4, I3, I2, I1, <- !app_assoc. reflexivity.
  - rewrite D. unfold data_bytes. rewrite map_app, concat_app.
    cbn [map concat encode_record]. apply at_pos_middle.
Qed.

(** *** Which partitions the writer accepts *)
Lemma consume_static_row_not_compound s sr w :
  is_compound s = false → consume_static_row s sr w = Throw assertion_failed.
Proof. intros Hc. unfold consume_static_row, write_static_row. rewrite Hc. reflexivity. Qed.

Lemma drain_tombstones_not_compound s pos rts w :
  is_compound s = false → has_static_columns s = true → _static_row_written w = false →
  drain_tombstones s pos rts w = Throw assertion_failed.
Proof.
  intros Hc Hs Hw. unfold drain_tombstones, ensure_static_row_is_written_if_needed.
  destruct (ensure_tombstone_is_written_data w) as (_ & _ & S & _).
  fold (has_static_columns s). rewrite Hs, S, Hw. cbn [negb andb].
  rewrite consume_static_row_not_compound by exact Hc. reflexivity.
Qed.

Lemma drain_tombstones_no_static s pos rts w :
  has_static_columns s = false → ∃ w', drain_tombstones s pos rts w = Ok w'.
Proof.
  intros Hs. unfold drain_tombstones, ensure_static_row_is_written_if_needed.
  fold (has_static_columns s). rewrite Hs. cbn [andb rbind].
  destruct (_end_open_marker _); [|eexists; reflexivity].
  destruct (match pos with Some p => _ | None => true end); eexists; reflexivity.
Qed.

Lemma consume_clustered_no_static s c w :
  has_static_columns s = false → ∃ w', consume_clustered s (Ok w) c = Ok w'.
Proof.
  intros Hs. destruct c as [cr rts|rt rts]; cbn [consume_clustered rbind].
  - unfold consume_clustering_row.
    destruct (drain_tombstones_no_static s (Some (after_key (cr_key cr))) rts w Hs) as [w1 ->].
    eexists. reflexivity.
  - apply drain_tombstones_no_static, Hs.
Qed.

Lemma consume_clustered_fold_no_static s cs : ∀ w,
  has_static_columns s = false → ∃ w', fold_left (consume_clustered s) cs (Ok w) = Ok w'.
Proof.
  induction cs as [|c cs IH]; intros w Hs; [eexists; reflexivity|].
  cbn [fold_left]. destruct (consume_clustered_no_static s c w Hs) as [w1 ->].
  apply IH, Hs.
Qed.

Lemma consume_end_of_partition_no_static s rts w :
  has_static_columns s = false → ∃ w', consume_end_of_partition s rts w = Ok w'.
Proof.
  intros Hs. rewrite consume_end_of_partition_unfold.
  destruct (drain_tombstones_no_static s None rts w Hs) as [w1 ->].
  cbn [rbind]. eexists. reflexivity.
Qed.

Lemma consume_tombstone_static_row_written t w :
  _static_row_written (consume_tombstone t w) = _static_row_written w.
Proof. reflexivity. Qed.

(** X20: [write_partition] throws [overflow_error] for a key of
    2^16 bytes or more; for a shorter key it fails the assertion of
    [write_static_row] when the schema is not compound and a static
    row is given or the schema has static columns; in every other
    case it succeeds. *)
Theorem write_partition_outcome (s : schema) (p : partition) (w : writer_m) :
  (2 ^ 16 ≤ Z.of_nat (length (p_key p)) →
   write_partition s p w = Throw (overflow_error "assigning U to T caused an overflow")) ∧
  (Z.of_nat (length (p_key p)) < 2 ^ 16 → is_compound s = false →
   p_static_row p ≠ None ∨ has_static_columns s = true →
   write_partition s p w = Throw assertion_failed) ∧
  (Z.of_nat (length (p_key p)) < 2 ^ 16 →
   is_compound s = true ∨ (p_static_row p = None ∧ has_static_columns s = false) →
   ∃ w', write_partition s p w = Ok w').
Proof.
  split; [|split].
  - intros Hk. unfold write_partition, consume_new_partition, check_truncate_and_assign.
    assert (0 ≤ wrap (Z.of_nat 2 * 8) (Z.of_nat (length (p_key p))) < 2 ^ 16)
      by (unfold wrap; apply Z.mod_pos_bound; lia).
    destruct (Z.eqb_spec (wrap (Z.of_nat 2 * 8) (Z.of_nat (length (p_key p))))
                (Z.of_nat (length (p_key p)))); [lia|reflexivity].
  - intros Hk Hc Hst. unfold write_partition.
    destruct (consume_new_partition_ok (p_key p) w Hk) as [w1 H1]. rewrite H1.
    destruct (consume_new_partition_data _ _ _ H1) as (_ & _ & S1). cbn [rbind].
    set (w2 := match p_tombstone p with Some t => consume_tombstone t w1 | None => w1 end).
    assert (S2 : _static_row_written w2 = false)
      by (unfold w2; destruct (p_tombstone p); exact S1).
    clearbody w2.
    destruct (p_static_row p) as [sr|] eqn:Hsr.
    + rewrite consume_static_row_not_compound by exact Hc. reflexivity.
    + destruct Hst as [Hst|Hst]; [congruence|]. cbn [rbind].
      destruct (p_clustered p) as [|c cs].
      * cbn [fold_left rbind]. rewrite consume_end_of_partition_unfold.
        rewrite drain_tombstones_not_compound by assumption. reflexivity.
      * cbn [fold_left].
        assert (Hthrow : consume_clustered s (Ok w2) c = Throw assertion_failed).
        { destruct c as [cr rts|rt rts]; cbn [consume_clustered rbind].
          - unfold consume_clustering_row.
            rewrite drain_tombstones_not_compound by assumption. reflexivity.
          - unfold consume_range_tombstone.
            apply drain_tombstones_not_compound; assumption. }
        rewrite Hthrow, consume_clustered_fold_throw. reflexivity.
  - intros Hk [Hc|[Hsr Hs]]; [apply write_partition_ok; assumption|].
    unfold write_partition.
    destruct (consume_new_partition_ok (p_key p) w Hk) as [w1 ->]. cbn [rbind].
    rewrite Hsr. cbn [rbind].
    destruct (consume_clustered_fold_no_static s (p_clustered p)
                (match p_tombstone p with Some t => consume_tombstone t w1 | None => w1 end)
                Hs) as [w4 ->].
    cbn [rbind]. apply consume_end_of_partition_no_static, Hs.
Qed.

(** *** The size of the previous row *)
(** X21: of two clustered records written one after the other,
    the second carries the encoded size of the first as its
    [prev_row_size]. *)
Theorem write_clustered_prev_row_size (info1 info2 : clustering_info)
    (rec1 rec2 : Z → data_record) (w : writer_m) :
  let r1 := rec1 (uint64_t (data_offset w - _prev_row_start w)) in
  _data (write_clustered info2 rec2 (write_clustered info1 rec1 w))
  = _data w ++ [r1; rec2 (uint64_t (Z.of_nat (length (encode_record r1))))].
Proof.
  cbn zeta.
  destruct (write_clustered_pi info1 rec1 w) as (D1 & _ & _ & R1 & _).
  pose proof (data_offset_snoc _ _ _ D1) as O1.
  destruct (write_clustered_pi info2 rec2 (write_clustered info1 rec1 w)) as (D2 & _).
  rewrite D2, D1, R1, O1, <- app_assoc. cbn [app].
  replace (data_offset w + _ - data_offset w)
    with (Z.of_nat (length (encode_record
            (rec1 (uint64_t (data_offset w - _prev_row_start w)))))) by lia.
  reflexivity.
Qed.

(** *** One turn of the loop of [drain_tombstones] *)
Lemma set_end_open_marker_offsets m w :
  data_offset (set_end_open_marker m w) = data_offset w ∧
  _prev_row_start (set_end_open_marker m w) = _prev_row_start w ∧
  _data (set_end_open_marker m w) = _data w.
Proof. repeat split. Qed.

Lemma drain_tombstone_data (w : writer_m) (rt : range_tombstone) :
  let prev := uint64_t (data_offset w - _prev_row_start w) in
  (_end_open_marker w = None →
   _data (drain_tombstone w rt) = _data w ++ [rec_rt_marker (get_rt_start rt) prev]) ∧
  (∀ open, _end_open_marker w = Some open →
     position_eq (rt_marker_position open) (range_tombstone_position rt) = false →
     position_less (range_tombstone_position rt) (rt_marker_position open) = true →
     tomb open = rt_tomb rt →
     _data (drain_tombstone w rt) = _data w) ∧
  (∀ open, _end_open_marker w = Some open →
     position_eq (rt_marker_position open) (range_tombstone_position rt) = false →
     position_less (range_tombstone_position rt) (rt_marker_position open) = false →
     _data (drain_tombstone w rt)
     = _data w ++ [rec_rt_marker open prev;
                   rec_rt_marker (get_rt_start rt)
                     (uint64_t (Z.of_nat (length (rt_marker_bytes open prev))))]) ∧
  _end_open_marker (drain_tombstone w rt) = Some (get_rt_end rt).
Proof.
  cbn zeta. split; [|split; [|split]].
  - intros Ho. unfold drain_tombstone. rewrite Ho.
    apply (consume_rt_marker_data (get_rt_start rt)
             (set_end_open_marker (Some (get_rt_end rt)) w)).
  - intros open Ho He Hl Ht. unfold drain_tombstone. rewrite Ho, He, Hl.
    rewrite decide_False by (intros Hne; apply Hne, Ht). reflexivity.
  - intros open Ho He Hl. unfold drain_tombstone. rewrite Ho, He, Hl.
    unfold flush_end_open_marker. rewrite Ho. unfold consume_rt_marker.
    set (w0 := set_end_open_marker None w).
    set (w1 := write_clustered _ (rec_rt_marker open) w0).
    destruct (write_clustered_pi (mk_clustering_info (clustering open) (kind open))
                (rec_rt_marker open) w0) as (D1 & _ & _ & R1 & _ & _ & _ & _).
    fold w1 in D1, R1. pose proof (data_offset_snoc _ _ _ D1) as O1.
    set (w2 := set_end_open_marker (Some (get_rt_end rt)) w1).
    destruct (write_clustered_pi
                (mk_clustering_info (clustering (get_rt_start rt)) (kind (get_rt_start rt)))
                (rec_rt_marker (get_rt_start rt)) w2) as (D2 & _).
    rewrite D2. change (_data w2) with (_data w1).
    change (data_offset w2) with (data_offset w1).
    change (_prev_row_start w2) with (_prev_row_start w1).
    rewrite D1, R1, O1. change (_data w0) with (_data w).
    change (data_offset w0) with (data_offset w).
    change (_prev_row_start w0) with (_prev_row_start w).
    rewrite <- app_assoc. cbn [app encode_record]. do 2 f_equal.
    f_equal. f_equal. f_equal. lia.
  - unfold drain_tombstone.
    destruct (_end_open_marker w) as [open|] eqn:Ho.
    + destruct (position_eq _ _).
      { unfold write_rt_boundary. rewrite consume_rt_marker_open. reflexivity. }
      destruct (position_less _ _).
      * destruct (decide _); [|reflexivity].
        unfold write_rt_boundary. rewrite consume_rt_marker_open. reflexivity.
      * rewrite consume_rt_marker_open. reflexivity.
    + rewrite consume_rt_marker_open. reflexivity.
Qed.

(** X22: one turn of the loop of [drain_tombstones] for the
    range tombstone [rt].  With no range open it writes the start
    marker of [rt]; with an open range that ends after the start of
    [rt] and has the tombstone of [rt] it writes nothing; with an open
    range that ends before the start of [rt] it writes the open end
    marker and then the start marker, which carries the size of the
    end marker as its [prev_row_size].  In every case the end of [rt]
    is the open end marker afterwards. *)
Theorem drain_tombstone_turn (w : writer_m) (rt : range_tombstone) :
  let prev := uint64_t (data_offset w - _prev_row_start w) in
  (_end_open_marker w = None →
   _data (drain_tombstone w rt) = _data w ++ [rec_rt_marker (get_rt_start rt) prev]) ∧
  (∀ open, _end_open_marker w = Some open →
     position_eq (rt_marker_position open) (range_tombstone_position rt) = false →
     position_less (range_tombstone_position rt) (rt_marker_position open) = true →
     tomb open = rt_tomb rt →
     _data (drain_tombstone w rt) = _data w) ∧
  (∀ open, _end_open_marker w = Some open →
     position_eq (rt_marker_position open) (range_tombstone_position rt) = false →
     position_less (range_tombstone_position rt) (rt_marker_position open) = false →
     _data (drain_tombstone w rt)
     = _data w ++ [rec_rt_marker open prev;
                   rec_rt_marker (get_rt_start rt)
                     (uint64_t (Z.of_nat (length (rt_marker_bytes open prev))))]) ∧
  _end_open_marker (drain_tombstone w rt) = Some (get_rt_end rt).
Proof. exact (drain_tombstone_data w rt). Qed.

(** *** The promoted index *)
Lemma write_pi_blocks_spec blocks : ∀ written,
  (write_pi_blocks blocks written).1 = concat (map pi_block_bytes blocks) ∧
  length (write_pi_blocks blocks written).2 = length blocks ∧
  ∀ i b, blocks !! i = Some b →
    (write_pi_blocks blocks written).2 !! i
    = Some (uint32_t (written
                      + Z.of_nat (length (concat (map pi_block_bytes (take i blocks)))))).
Proof.
  induction blocks as [|b0 blocks IH]; intros written.
  - cbn. repeat split. intros i b Hi. discriminate.
  - cbn [write_pi_blocks].
    specialize (IH (written + Z.of_nat (length (pi_block_bytes b0)))).
    destruct (write_pi_blocks blocks _) as [out offs]. cbn [fst snd] in *.
    destruct IH as (IH1 & IH2 & IH3). split; [|split].
    + cbn [map concat]. rewrite IH1. reflexivity.
    + cbn [length]. rewrite IH2. reflexivity.
    + intros [|i] b Hi.
      * cbn. rewrite Z.add_0_r. reflexivity.
      * change ((b0 :: blocks) !! S i) with (blocks !! i) in Hi.
        change ((uint32_t written :: offs) !! S i) with (offs !! i).
        rewrite (IH3 i b Hi).
        cbn [take map concat]. rewrite length_app. do 2 f_equal. lia.
Qed.

(** X23: [write_promoted_index] writes the header length, the
    partition tombstone, the number of blocks, the blocks and one
    32-bit offset per block; offset [i] is the position of block [i]
    among the blocks, cut to 32 bits. *)
Theorem write_promoted_index_offsets (w : writer_m) :
  let blocks := _promoted_index w in
  let body := concat (map pi_block_bytes blocks) in
  ∃ offsets,
    write_promoted_index w
    = write_vint (_partition_header_length w)
      ++ write_deletion_time (to_deletion_time (_pi_tomb w))
      ++ write_vint (Z.of_nat (length blocks))
      ++ body ++ concat (map (write_int 4) offsets) ∧
    length offsets = length blocks ∧
    ∀ i b, blocks !! i = Some b →
      ∃ pos, offsets !! i = Some (uint32_t (Z.of_nat pos)) ∧
             at_pos body pos (pi_block_bytes b).
Proof.
  cbn zeta. unfold write_promoted_index.
  destruct (write_pi_blocks_spec (_promoted_index w) 0) as (H1 & H2 & H3).
  destruct (write_pi_blocks (_promoted_index w) 0) as [out offs]. cbn [fst snd] in *.
  exists offs. rewrite H1. split; [reflexivity|]. split; [exact H2|].
  intros i b Hi.
  exists (length (concat (map pi_block_bytes (take i (_promoted_index w))))).
  split; [rewrite (H3 i b Hi); reflexivity|].
  rewrite <- (take_drop_middle _ _ _ Hi) at 1.
  rewrite map_app, concat_app. cbn [map concat].
  unfold at_pos. rewrite drop_app_length. apply take_app_length.
Qed.

(** *** Range-tombstone markers fit together *)
Lemma markers_run_app st rs1 rs2 :
  markers_run st (rs1 ++ rs2)
  = match markers_run st rs1 with
    | Some st' => markers_run st' rs2
    | None => None
    end.
Proof.
  revert st. induction rs1 as [|r rs1 IH]; intros st; [reflexivity|].
  cbn [app markers_run]. destruct (marker_step st r); [apply IH|reflexivity].
Qed.

Lemma runs_refl w : open_is_end w → runs w w.
Proof.
  intros H. exists []. rewrite app_nil_r.
  split; [reflexivity|]. split; [reflexivity|exact H].
Qed.

Lemma runs_trans w1 w2 w3 : runs w1 w2 → runs w2 w3 → runs w1 w3.
Proof.
  intros (r1 & D1 & M1 & O1) (r2 & D2 & M2 & O2).
  exists (r1 ++ r2). rewrite D2, D1, <- app_assoc, markers_run_app, M1.
  split; [reflexivity|]. split; assumption.
Qed.

(** A step that writes one record that is no marker and keeps the open marker. *)
Lemma runs_plain w w' r :
  _data w' = _data w ++ [r] → _end_open_marker w' = _end_open_marker w →
  (∀ m p, r ≠ rec_rt_marker m p) → open_is_end w → runs w w'.
Proof.
  intros D E Hr O. exists [r]. split; [exact D|]. split.
  - cbn [markers_run]. unfold open_tomb. rewrite E.
    destruct r; try reflexivity. exfalso. eapply Hr. reflexivity.
  - unfold open_is_end. rewrite E. exact O.
Qed.

Lemma runs_same w w' :
  _data w' = _data w → _end_open_marker w' = _end_open_marker w →
  open_is_end w → runs w w'.
Proof.
  intros D E O. exists []. rewrite app_nil_r. split; [exact D|]. split.
  - cbn. unfold open_tomb. rewrite E. reflexivity.
  - unfold open_is_end. rewrite E. exact O.
Qed.

Lemma get_rt_end_is_end rt m :
  well_formed_range_tombstone rt → Some (get_rt_end rt) = Some m →
  (kind m = bound_kind_m.incl_end ∨ kind m = bound_kind_m.excl_end) ∧
  boundary_tomb m = None.
Proof.
  intros [_ He] [= <-]. unfold get_rt_end. cbn [kind boundary_tomb].
  destruct (rt_end_kind rt); try discriminate; split; auto.
Qed.

Lemma drain_tombstone_runs w rt :
  well_formed_range_tombstone rt → open_is_end w → runs w (drain_tombstone w rt).
Proof.
  intros Hwf O.
  destruct (drain_tombstone_data w rt) as (Hnone & Hcont & Hgap & Hopen).
  assert (O' : open_is_end (drain_tombstone w rt)).
  { unfold open_is_end. rewrite Hopen. intros m Hm.
    apply (get_rt_end_is_end rt m Hwf Hm). }
  assert (Ho' : open_tomb (drain_tombstone w rt) = Some (rt_tomb rt)).
  { unfold open_tomb. rewrite Hopen. reflexivity. }
  assert (Hstart : ∀ prev, marker_step None (rec_rt_marker (get_rt_start rt) prev)
                          = Some (Some (rt_tomb rt))).
  { intros prev. destruct Hwf as [Hs _]. unfold marker_step, get_rt_start.
    cbn [kind boundary_tomb tomb].
    destruct (rt_start_kind rt); try discriminate; reflexivity. }
  destruct (_end_open_marker w) as [open|] eqn:Ho.
  - destruct (O open Ho) as [Hk Hb].
    assert (Hopen_tomb : open_tomb w = Some (tomb open))
      by (unfold open_tomb; rewrite Ho; reflexivity).
    destruct (position_eq (rt_marker_position open) (range_tombstone_position rt)) eqn:He.
    + (* boundary *)
      eexists. split; [|split; [|exact O']].
      * unfold drain_tombstone. rewrite Ho, He. unfold write_rt_boundary.
        apply (consume_rt_marker_data _ (set_end_open_marker (Some (get_rt_end rt)) w)).
      * rewrite Hopen_tomb, Ho'. cbn [markers_run marker_step kind boundary_tomb tomb].
        destruct (decide (rt_start_kind rt = bound_kind.incl_start));
          rewrite decide_True by reflexivity; reflexivity.
    + destruct (position_less (range_tombstone_position rt) (rt_marker_position open)) eqn:Hl.
      * destruct (decide (tomb open = rt_tomb rt)) as [Ht|Ht].
        -- exists []. rewrite app_nil_r. split; [apply (Hcont open eq_refl He Hl Ht)|].
           split; [|exact O']. cbn. rewrite Hopen_tomb, Ho', Ht. reflexivity.
        -- eexists. split; [|split; [|exact O']].
           ++ unfold drain_tombstone. rewrite Ho, He, Hl.
              rewrite decide_True by exact Ht. unfold write_rt_boundary.
              apply (consume_rt_marker_data _ (set_end_open_marker (Some (get_rt_end rt)) w)).
           ++ rewrite Hopen_tomb, Ho'. cbn [markers_run marker_step kind boundary_tomb tomb].
              destruct (decide (rt_start_kind rt = bound_kind.incl_start));
                rewrite decide_True by reflexivity; reflexivity.
      * eexists. split; [apply (Hgap open eq_refl He Hl)|]. split; [|exact O'].
        rewrite Hopen_tomb, Ho'. cbn [markers_run]. 
        assert (Hend : ∀ prev, marker_step (Some (tomb open)) (rec_rt_marker open prev)
                               = Some None).
        { intros prev. unfold marker_step. rewrite Hb.
          destruct Hk as [-> | ->]; rewrite decide_True by reflexivity; reflexivity. }
        rewrite Hend, Hstart. reflexivity.
  - eexists. split; [apply (Hnone eq_refl)|]. split; [|exact O'].
    unfold open_tomb at 1. rewrite Ho, Ho'. cbn [markers_run]. rewrite Hstart. reflexivity.
Qed.

Lemma markers_run_plain st recs :
  Forall (λ r, is_marker_record r = false) recs → markers_run st recs = Some st.
Proof.
  induction 1 as [|r recs Hr _ IH]; [reflexivity|].
  cbn [markers_run]. destruct r; try discriminate; exact IH.
Qed.

Lemma runs_plain_records w w' recs :
  _data w' = _data w ++ recs → _end_open_marker w' = _end_open_marker w →
  Forall (λ r, is_marker_record r = false) recs → open_is_end w → runs w w'.
Proof.
  intros D E Hr O. exists recs. split; [exact D|]. split.
  - rewrite markers_run_plain by exact Hr. unfold open_tomb. rewrite E. reflexivity.
  - unfold open_is_end. rewrite E. exact O.
Qed.

Lemma ensure_tombstone_is_written_open w :
  _end_open_marker (ensure_tombstone_is_written w) = _end_open_marker w.
Proof. unfold ensure_tombstone_is_written. destruct (_tombstone_written w); reflexivity. Qed.

Lemma consume_static_row_open s sr w w' :
  consume_static_row s sr w = Ok w' → _end_open_marker w' = _end_open_marker w.
Proof.
  unfold consume_static_row, write_static_row.
  destruct (is_compound s); [|discriminate]. cbn [rbind]. intros [= <-].
  cbn [_end_open_marker write_data]. apply ensure_tombstone_is_written_open.
Qed.

Lemma ensure_tombstone_is_written_runs w :
  open_is_end w → runs w (ensure_tombstone_is_written w).
Proof.
  intros O. destruct (ensure_tombstone_is_written_data w) as (D & _).
  eapply runs_plain_records; [exact D|apply ensure_tombstone_is_written_open| |exact O].
  destruct (_tombstone_written w); repeat constructor.
Qed.

Lemma consume_static_row_runs s sr w w' :
  consume_static_row s sr w = Ok w' → open_is_end w → runs w w'.
Proof.
  intros H O. destruct (consume_static_row_data _ _ _ _ H) as (D & _).
  eapply runs_plain_records; [exact D|eapply consume_static_row_open, H| |exact O].
  destruct (_tombstone_written w); repeat constructor.
Qed.

Lemma ensure_static_row_runs s w w' :
  ensure_static_row_is_written_if_needed s w = Ok w' → open_is_end w → runs w w'.
Proof.
  unfold ensure_static_row_is_written_if_needed. destruct (_ && _).
  - apply consume_static_row_runs.
  - intros [= <-]. apply runs_refl.
Qed.

Lemma flush_end_open_marker_runs w :
  open_is_end w → runs w (flush_end_open_marker w).
Proof.
  intros O. unfold flush_end_open_marker.
  destruct (_end_open_marker w) as [open|] eqn:Ho; [|apply runs_refl, O].
  destruct (O open Ho) as [Hk Hb].
  destruct (consume_rt_marker_data open (set_end_open_marker None w)) as (D & _ & _ & _ & E).
  eexists. split; [exact D|]. split.
  - unfold open_tomb. rewrite E, Ho. cbn [_end_open_marker set_end_open_marker markers_run].
    unfold marker_step. rewrite Hb.
    destruct Hk as [-> | ->]; rewrite decide_True by reflexivity; reflexivity.
  - unfold open_is_end. rewrite E. cbn [_end_open_marker set_end_open_marker].
    intros m Hm. discriminate.
Qed.

Lemma runs_open w w' : runs w w' → open_is_end w'.
Proof. intros (_ & _ & _ & O). exact O. Qed.

Lemma drain_tombstone_fold_runs rts : ∀ w,
  Forall well_formed_range_tombstone rts → open_is_end w →
  runs w (fold_left drain_tombstone rts w).
Proof.
  induction rts as [|rt rts IH]; intros w Hwf O; [apply runs_refl, O|].
  inversion Hwf as [|? ? H1 H2]; subst. cbn [fold_left].
  pose proof (drain_tombstone_runs w rt H1 O) as R1.
  eapply runs_trans; [exact R1|]. apply IH; [exact H2|]. apply (runs_open _ _ R1).
Qed.

Lemma drain_tombstones_runs s pos rts w w' :
  drain_tombstones s pos rts w = Ok w' →
  Forall well_formed_range_tombstone rts → open_is_end w → runs w w'.
Proof.
  unfold drain_tombstones. intros H Hwf O.
  pose proof (ensure_tombstone_is_written_runs w O) as R0.
  destruct (ensure_static_row_is_written_if_needed s (ensure_tombstone_is_written w))
    as [w1|e] eqn:H1; [|discriminate].
  pose proof (ensure_static_row_runs _ _ _ H1 (runs_open _ _ R0)) as R1.
  cbn [rbind] in H.
  pose proof (drain_tombstone_fold_runs rts w1 Hwf (runs_open _ _ R1)) as R2.
  assert (R : runs w (fold_left drain_tombstone rts w1))
    by (eapply runs_trans; [exact R0|]; eapply runs_trans; eassumption).
  destruct (_end_open_marker (fold_left drain_tombstone rts w1)) as [open|].
  - destruct (match pos with Some p => _ | None => true end); injection H as <-.
    + eapply runs_trans; [exact R|]. apply flush_end_open_marker_runs, (runs_open _ _ R).
    + exact R.
  - injection H as <-. exact R.
Qed.

Lemma consume_clustered_runs s c w w' :
  consume_clustered s (Ok w) c = Ok w' →
  Forall well_formed_range_tombstone (drained_of c) → open_is_end w → runs w w'.
Proof.
  destruct c as [cr rts|rt rts]; cbn [consume_clustered rbind drained_of].
  - unfold consume_clustering_row. intros H Hwf O.
    destruct (drain_tombstones _ _ _ _) as [w1|e] eqn:H1; [|discriminate].
    cbn [rbind] in H. injection H as <-.
    pose proof (drain_tombstones_runs _ _ _ _ _ H1 Hwf O) as R1.
    eapply runs_trans; [exact R1|].
    destruct (write_clustered_data
                (mk_clustering_info (cr_key cr) bound_kind_m.clustering)
                (rec_clustering_row cr) w1) as (D & _ & _ & _ & E).
    eapply runs_plain_records; [exact D|exact E| |apply (runs_open _ _ R1)].
    repeat constructor.
  - unfold consume_range_tombstone. apply drain_tombstones_runs.
Qed.

Lemma consume_clustered_fold_runs s cs : ∀ w w',
  fold_left (consume_clustered s) cs (Ok w) = Ok w' →
  Forall well_formed_range_tombstone (concat (map drained_of cs)) →
  open_is_end w → runs w w'.
Proof.
  induction cs as [|c cs IH]; intros w w' H Hwf O.
  - injection H as <-. apply runs_refl, O.
  - cbn [fold_left] in H. cbn [map concat] in Hwf. apply Forall_app in Hwf as [Hc Hcs].
    destruct (consume_clustered s (Ok w) c) as [w1|e] eqn:H1.
    + pose proof (consume_clustered_runs _ _ _ _ H1 Hc O) as R1.
      eapply runs_trans; [exact R1|]. apply (IH _ _ H Hcs), (runs_open _ _ R1).
    + rewrite consume_clustered_fold_throw in H. discriminate.
Qed.

Lemma consume_end_of_partition_runs s rts w w' :
  consume_end_of_partition s rts w = Ok w' →
  Forall well_formed_range_tombstone rts → open_is_end w → runs w w'.
Proof.
  rewrite consume_end_of_partition_unfold. intros H Hwf O.
  destruct (drain_tombstones s None rts w) as [w1|e] eqn:H1; [|discriminate].
  cbn [rbind] in H. cbn zeta in H. injection H as <-.
  pose proof (drain_tombstones_runs _ _ _ _ _ H1 Hwf O) as R1.
  eapply runs_trans; [exact R1|].
  destruct (before_index_entry_data w1) as (D & _).
  eapply runs_plain_records; [exact D| | |apply (runs_open _ _ R1)].
  - cbn [_end_open_marker write_index]. apply before_index_entry_open.
  - repeat constructor.
Qed.

Lemma write_partition_runs s p w w' :
  write_partition s p w = Ok w' →
  Forall well_formed_range_tombstone (partition_range_tombstones p) →
  open_is_end w → runs w w'.
Proof.
  unfold write_partition, partition_range_tombstones. intros H Hwf O.
  apply Forall_app in Hwf as [Hcs Hend].
  destruct (consume_new_partition (p_key p) w) as [w1|e] eqn:H1; [|discriminate].
  cbn [rbind] in H.
  assert (R1 : runs w w1).
  { destruct (consume_new_partition_data _ _ _ H1) as (D & _).
    eapply runs_plain_records; [exact D| |repeat constructor|exact O].
    revert H1. unfold consume_new_partition.
    destruct (check_truncate_and_assign _ _); [|discriminate].
    cbn [rbind]. intros [= <-]. reflexivity. }
  set (w2 := match p_tombstone p with Some t => consume_tombstone t w1 | None => w1 end) in *.
  assert (R2 : runs w1 w2).
  { unfold w2. destruct (p_tombstone p) as [t|]; [|apply runs_refl, (runs_open _ _ R1)].
    eapply runs_plain_records; [reflexivity|reflexivity|repeat constructor|].
    apply (runs_open _ _ R1). }
  clearbody w2.
  destruct (match p_static_row p with Some _ => _ | None => _ end) as [w3|e] eqn:H3;
    [|discriminate].
  cbn [rbind] in H.
  assert (R3 : runs w2 w3).
  { destruct (p_static_row p) as [sr|].
    - eapply consume_static_row_runs; [exact H3|apply (runs_open _ _ R2)].
    - injection H3 as <-. apply runs_refl, (runs_open _ _ R2). }
  destruct (fold_left _ _ _) as [w4|e] eqn:H4; [|discriminate]. cbn [rbind] in H.
  pose proof (consume_clustered_fold_runs _ _ _ _ H4 Hcs (runs_open _ _ R3)) as R4.
  pose proof (consume_end_of_partition_runs _ _ _ _ H Hend (runs_open _ _ R4)) as R5.
  eapply runs_trans; [exact R1|]. eapply runs_trans; [exact R2|].
  eapply runs_trans; [exact R3|]. eapply runs_trans; eassumption.
Qed.

(** X24: when no range is open at the start of a partition and
    every range tombstone handed out has a start bound and an end
    bound, the records that [write_partition] adds to the data file
    read as matching markers: each start opens a range when none is
    open, each end and boundary closes the open range under its
    tombstone, and no range is open after the last record. *)
Theorem range_tombstone_markers_balanced (s : schema) (p : partition) (w w' : writer_m) :
  write_partition s p w = Ok w' →
  _end_open_marker w = None →
  Forall well_formed_range_tombstone (partition_range_tombstones p) →
  ∃ recs, _data w' = _data w ++ recs ∧ markers_run None recs = Some None.
Proof.
  intros H Ho Hwf.
  assert (O : open_is_end w) by (intros m Hm; congruence).
  destruct (write_partition_runs _ _ _ _ H Hwf O) as (recs & D & M & _).
  exists recs. split; [exact D|].
  unfold open_tomb in M. rewrite Ho in M. rewrite M.
  assert (Hc : _end_open_marker w' = None).
  { revert H. unfold write_partition.
    destruct (consume_new_partition _ _) as [w1|e]; [|discriminate]. cbn [rbind].
    destruct (match p_static_row p with Some _ => _ | None => _ end) as [w2|e];
      [|discriminate]. cbn [rbind].
    destruct (fold_left _ _ _) as [w3|e]; [|discriminate]. cbn [rbind].
    apply consume_end_of_partition_closed. }
  rewrite Hc. reflexivity.
Qed.
(** *** The header length and the blocks of the promoted index *)

Lemma uint64_t_idem x : uint64_t (uint64_t x) = uint64_t x.
Proof. unfold uint64_t, wrap. apply Z.mod_mod. lia. Qed.

Lemma uint64_t_add x y : uint64_t (uint64_t x + uint64_t y) = uint64_t (x + y).
Proof. unfold uint64_t, wrap. symmetry. apply Z.add_mod. lia. Qed.

Lemma uint64_t_add_l x y : uint64_t (uint64_t x + y) = uint64_t (x + y).
Proof. unfold uint64_t, wrap. apply Zplus_mod_idemp_l. Qed.

Lemma chained_to blocks : ∀ from to to',
  chained from blocks to → uint64_t to = uint64_t to' → chained from blocks to'.
Proof.
  induction blocks as [|b blocks IH]; intros from to to' H E; cbn [chained] in *.
  - congruence.
  - destruct H as [H1 H2]. split; [exact H1|]. eapply IH; eassumption.
Qed.

Lemma chained_snoc blocks b : ∀ from mid,
  chained from blocks mid → pb_offset b = uint64_t mid →
  chained from (blocks ++ [b]) (pb_offset b + pb_width b).
Proof.
  induction blocks as [|b0 blocks IH]; intros from mid H E; cbn [chained app] in *.
  - split; [congruence|reflexivity].
  - destruct H as [H1 H2]. split; [exact H1|]. eapply IH; eassumption.
Qed.

Lemma data_bytes_app a b : data_bytes (a ++ b) = data_bytes a ++ data_bytes b.
Proof. unfold data_bytes. rewrite map_app, concat_app. reflexivity. Qed.

Lemma data_offset_app w0 w recs :
  _data w = _data w0 ++ recs →
  data_offset w = data_offset w0 + Z.of_nat (length (data_bytes recs)).
Proof. unfold data_offset. intros ->. rewrite data_bytes_app, length_app. lia. Qed.

Lemma hdr_inv_partition_inv s w0 w : hdr_inv w0 w → partition_inv s w0 w.
Proof.
  intros H. pose proof H as (S & B & F & hdr & D & Fh & L).
  split; [exact S|]. split; [left; exact H|]. split; [|split].
  - rewrite B. cbn [chained]. unfold covered, block_start_after. rewrite F, S, L.
    rewrite (data_offset_app _ _ _ D), uint64_t_idem. f_equal. lia.
  - left. exact F.
  - exists hdr, []. rewrite app_nil_r. repeat split; try assumption. constructor.
Qed.

(** A write of one header record. *)
Lemma hdr_inv_write w0 w w' r :
  hdr_inv w0 w → is_body_record r = false →
  _data w' = _data w ++ [r] → _start_offset w' = _start_offset w →
  _promoted_index w' = _promoted_index w → _first_clustering w' = _first_clustering w →
  _partition_header_length w'
  = uint64_t (_partition_header_length w + uint64_t (data_offset w' - data_offset w)) →
  hdr_inv w0 w'.
Proof.
  intros (S & B & F & hdr & D & Fh & L) Hr D' S' B' F' L'.
  split; [congruence|]. split; [congruence|]. split; [congruence|].
  exists (hdr ++ [r]). split; [rewrite D', D, app_assoc; reflexivity|].
  split; [apply Forall_app; split; [exact Fh|repeat constructor; exact Hr]|].
  rewrite L', L, (data_offset_snoc _ _ _ D'), uint64_t_add, data_bytes_app, length_app.
  f_equal. unfold data_bytes. cbn [map concat]. rewrite app_nil_r. lia.
Qed.

Lemma consume_new_partition_hdr_inv k w0 w :
  consume_new_partition k w0 = Ok w → hdr_inv w0 w.
Proof.
  unfold consume_new_partition.
  destruct (check_truncate_and_assign 2 _) as [len|e]; [|discriminate].
  cbn [rbind]. intros [= <-]. unfold hdr_inv. fields.
  split; [reflexivity|]. split; [reflexivity|]. split; [reflexivity|].
  exists [rec_partition_key k]. split; [reflexivity|].
  split; [repeat constructor|].
  f_equal. rewrite data_bytes_app, length_app. unfold data_offset. lia.
Qed.

Lemma consume_tombstone_hdr_inv t w0 w :
  hdr_inv w0 w → hdr_inv w0 (consume_tombstone t w).
Proof.
  intros H. eapply (hdr_inv_write w0 w _ (rec_deletion_time (to_deletion_time t)) H);
    reflexivity.
Qed.

Lemma ensure_tombstone_is_written_hdr_inv w0 w :
  hdr_inv w0 w → hdr_inv w0 (ensure_tombstone_is_written w).
Proof.
  intros H. unfold ensure_tombstone_is_written.
  destruct (_tombstone_written w); [exact H|apply consume_tombstone_hdr_inv, H].
Qed.

Lemma consume_static_row_hdr_inv s sr w0 w w' :
  hdr_inv w0 w → consume_static_row s sr w = Ok w' → hdr_inv w0 w'.
Proof.
  intros H. unfold consume_static_row, write_static_row.
  destruct (is_compound s); [|discriminate]. cbn [rbind]. intros [= <-].
  eapply (hdr_inv_write w0 (ensure_tombstone_is_written w) _ (rec_static_row sr));
    [apply ensure_tombstone_is_written_hdr_inv, H|reflexivity..].
Qed.


Lemma partition_inv_same s w0 w w' :
  partition_inv s w0 w →
  _data w' = _data w → _start_offset w' = _start_offset w →
  _partition_header_length w' = _partition_header_length w →
  _promoted_index w' = _promoted_index w → _first_clustering w' = _first_clustering w →
  _block_start_offset w' = _block_start_offset w →
  _last_clustering w' = _last_clustering w →
  _tombstone_written w' = _tombstone_written w →
  _static_row_written w' = _static_row_written w →
  partition_inv s w0 w' ∧ pending_header s w' = pending_header s w.
Proof.
  intros (S & Ph & C & Lc & hdr & body & D & Fh & Fb & L) D' S' L' B' F' Bs' Lc' T' St'.
  assert (Hp : pending_header s w' = pending_header s w)
    by (unfold pending_header; rewrite T', St'; reflexivity).
  split; [|exact Hp]. split; [congruence|]. split; [|split; [|split]].
  - destruct Ph as [(S1 & B1 & F1 & hdr1 & D1 & Fh1 & L1)|Ph]; [left|right; congruence].
    split; [congruence|]. split; [congruence|]. split; [congruence|].
    exists hdr1. split; [congruence|]. split; [exact Fh1|congruence].
  - rewrite L', B'. replace (covered w') with (covered w); [exact C|].
    unfold covered, block_start_after. rewrite F', Bs', S', (data_offset_eq _ _ D').
    reflexivity.
  - rewrite F', Lc'. exact Lc.
  - exists hdr, body. split; [congruence|]. split; [exact Fh|]. split; [exact Fb|congruence].
Qed.

Lemma body_inv_set_end_open_marker s w0 w m :
  body_inv s w0 w → body_inv s w0 (set_end_open_marker m w).
Proof.
  intros (I & P).
  destruct (partition_inv_same s w0 w (set_end_open_marker m w) I)
    as [I' P']; try reflexivity.
  split; [exact I'|congruence].
Qed.

Lemma ensure_tombstone_is_written_inv s w0 w :
  partition_inv s w0 w → partition_inv s w0 (ensure_tombstone_is_written w).
Proof.
  intros I. unfold ensure_tombstone_is_written.
  destruct (_tombstone_written w) eqn:T; [exact I|].
  destruct I as (_ & [H|P] & _).
  - apply hdr_inv_partition_inv, consume_tombstone_hdr_inv, H.
  - unfold pending_header in P. rewrite T in P. discriminate.
Qed.

Lemma ensure_static_row_inv s w0 w w' :
  partition_inv s w0 w → ensure_static_row_is_written_if_needed s w = Ok w' →
  partition_inv s w0 w'.
Proof.
  intros I. unfold ensure_static_row_is_written_if_needed. fold (has_static_columns s).
  destruct (has_static_columns s && negb (_static_row_written w)) eqn:C.
  - intros H. destruct I as (_ & [Hh|P] & _).
    + eapply hdr_inv_partition_inv, consume_static_row_hdr_inv; eassumption.
    + unfold pending_header in P. rewrite C in P.
      destruct (_tombstone_written w); discriminate.
  - intros [= <-]. exact I.
Qed.

Lemma write_clustered_body_inv s w0 w info rec :
  (∀ x, is_body_record (rec x) = true) →
  partition_inv s w0 w → pending_header s w = [] →
  body_inv s w0 (write_clustered info rec w).
Proof.
  intros Hrec (S & _ & C & _ & hdr & body & D & Fh & Fb & L) P.
  destruct (write_clustered_pi info rec w)
    as (D' & S' & L' & R' & Lc' & Bs' & Ds' & E' & T' & St' & Hpi).
  set (w' := write_clustered info rec w) in *.
  set (r := rec (uint64_t (data_offset w - _prev_row_start w))) in *.
  assert (P' : pending_header s w' = [])
    by (unfold pending_header; rewrite T', St'; exact P).
  split; [|exact P'].
  split; [congruence|]. split; [right; exact P'|]. split; [|split].
  - rewrite L'. unfold covered in *. destruct (_ >=? _).
    + destruct Hpi as [B' F']. rewrite B'.
      eapply chained_to.
      * eapply chained_snoc; [exact C|]. reflexivity.
      * cbn [pb_offset pb_width]. rewrite uint64_t_add. f_equal.
        unfold block_start_after at 3. rewrite F', S'.
        rewrite (data_offset_snoc _ _ _ D'). fold r. lia.
    + destruct Hpi as [B' F']. rewrite B'.
      unfold block_start_after at 1. rewrite F', Bs', S'. exact C.
  - right. rewrite Lc'. eexists. reflexivity.
  - exists hdr, (body ++ [r]). split; [rewrite D', D, <- !app_assoc; reflexivity|].
    split; [exact Fh|]. split; [|congruence].
    apply Forall_app. split; [exact Fb|]. repeat constructor. apply Hrec.
Qed.

Lemma consume_rt_marker_body_inv s w0 w m :
  body_inv s w0 w → body_inv s w0 (consume_rt_marker m w).
Proof.
  intros (I & P). apply write_clustered_body_inv; [reflexivity|exact I|exact P].
Qed.

Lemma flush_end_open_marker_body_inv s w0 w :
  body_inv s w0 w → body_inv s w0 (flush_end_open_marker w).
Proof.
  intros H. unfold flush_end_open_marker. destruct (_end_open_marker w); [|exact H].
  apply consume_rt_marker_body_inv, body_inv_set_end_open_marker, H.
Qed.

Lemma drain_tombstone_body_inv s w0 w rt :
  body_inv s w0 w → body_inv s w0 (drain_tombstone w rt).
Proof.
  intros H. unfold drain_tombstone.
  assert (Hb : ∀ open, body_inv s w0 (write_rt_boundary open rt w)).
  { intros open. unfold write_rt_boundary.
    apply consume_rt_marker_body_inv, body_inv_set_end_open_marker, H. }
  destruct (_end_open_marker w) as [open|].
  - destruct (position_eq _ _); [apply Hb|].
    destruct (position_less _ _).
    + destruct (decide _); [apply Hb|apply body_inv_set_end_open_marker, H].
    + apply consume_rt_marker_body_inv, body_inv_set_end_open_marker,
        flush_end_open_marker_body_inv, H.
  - apply consume_rt_marker_body_inv, body_inv_set_end_open_marker, H.
Qed.

Lemma drain_tombstone_fold_body_inv s w0 rts : ∀ w,
  body_inv s w0 w → body_inv s w0 (fold_left drain_tombstone rts w).
Proof.
  induction rts as [|rt rts IH]; intros w H; [exact H|].
  cbn [fold_left]. apply IH, drain_tombstone_body_inv, H.
Qed.


Lemma drain_tombstones_body_inv s w0 pos rts w w' :
  partition_inv s w0 w → drain_tombstones s pos rts w = Ok w' → body_inv s w0 w'.
Proof.
  intros I H. pose proof H as G. apply drain_tombstones_grows, grows_pending in G.
  revert H. unfold drain_tombstones.
  pose proof (ensure_tombstone_is_written_inv s w0 w I) as I0.
  destruct (ensure_tombstone_is_written_data w) as (_ & T0 & S0 & _).
  destruct (ensure_static_row_is_written_if_needed s (ensure_tombstone_is_written w))
    as [w1|e] eqn:H1; [|discriminate].
  pose proof (ensure_static_row_inv _ _ _ _ I0 H1) as I1.
  destruct (ensure_static_row_is_written_if_needed_data _ _ _ T0 H1) as (_ & T1 & S1 & _).
  assert (B1 : body_inv s w0 w1).
  { split; [exact I1|]. unfold pending_header. rewrite T1, S1.
    destruct (has_static_columns s); [rewrite orb_true_r|]; reflexivity. }
  cbn [rbind].
  pose proof (drain_tombstone_fold_body_inv s w0 rts w1 B1) as B2.
  destruct (_end_open_marker (fold_left drain_tombstone rts w1)) as [open|].
  - destruct (match pos with Some p => _ | None => true end); intros [= <-].
    + apply flush_end_open_marker_body_inv, B2.
    + exact B2.
  - intros [= <-]. exact B2.
Qed.

Lemma consume_clustered_body_inv s w0 c w w' :
  partition_inv s w0 w → consume_clustered s (Ok w) c = Ok w' → body_inv s w0 w'.
Proof.
  intros I. destruct c as [cr rts|rt rts]; cbn [consume_clustered rbind].
  - unfold consume_clustering_row.
    destruct (drain_tombstones _ _ _ _) as [w1|e] eqn:H1; [|discriminate].
    cbn [rbind]. intros [= <-].
    destruct (drain_tombstones_body_inv _ _ _ _ _ _ I H1) as [I1 P1].
    apply write_clustered_body_inv; [reflexivity|exact I1|exact P1].
  - unfold consume_range_tombstone. apply drain_tombstones_body_inv, I.
Qed.

Lemma consume_clustered_fold_inv s w0 cs : ∀ w w',
  partition_inv s w0 w → fold_left (consume_clustered s) cs (Ok w) = Ok w' →
  partition_inv s w0 w'.
Proof.
  induction cs as [|c cs IH]; intros w w' I H.
  - injection H as <-. exact I.
  - cbn [fold_left] in H.
    destruct (consume_clustered s (Ok w) c) as [w1|e] eqn:H1.
    + eapply IH; [|exact H]. eapply consume_clustered_body_inv; eassumption.
    + rewrite consume_clustered_fold_throw in H. discriminate.
Qed.

(** The state in which the last promoted-index block is decided. *)
Lemma write_partition_body_inv s p w w' :
  write_partition s p w = Ok w' →
  ∃ w4 b, body_inv s w w4 ∧ w' = write_index b (before_index_entry w4).
Proof.
  unfold write_partition.
  destruct (consume_new_partition (p_key p) w) as [w1|e] eqn:H1; [|discriminate].
  pose proof (consume_new_partition_hdr_inv _ _ _ H1) as I1. cbn [rbind].
  set (w2 := match p_tombstone p with Some t => consume_tombstone t w1 | None => w1 end).
  assert (I2 : hdr_inv w w2).
  { unfold w2. destruct (p_tombstone p); [apply consume_tombstone_hdr_inv|]; exact I1. }
  clearbody w2.
  destruct (match p_static_row p with Some _ => _ | None => _ end) as [w3|e] eqn:H3;
    [|discriminate]. cbn [rbind].
  assert (I3 : hdr_inv w w3).
  { destruct (p_static_row p) as [sr|].
    - eapply consume_static_row_hdr_inv; eassumption.
    - congruence. }
  destruct (fold_left _ _ _) as [w4|e] eqn:H4; [|discriminate]. cbn [rbind].
  pose proof (consume_clustered_fold_inv _ _ _ _ _ (hdr_inv_partition_inv s _ _ I3) H4) as I4.
  rewrite consume_end_of_partition_unfold.
  destruct (drain_tombstones s None (p_drained_at_end p) w4) as [w5|e] eqn:H5;
    [|discriminate].
  cbn [rbind]. cbn zeta. intros [= <-].
  eexists w5, _. split; [|reflexivity].
  eapply drain_tombstones_body_inv; eassumption.
Qed.

Lemma chained_lookup blocks : ∀ from to,
  chained from blocks to →
  (∀ b, blocks !! 0%nat = Some b → pb_offset b = uint64_t from) ∧
  (∀ i b b', blocks !! i = Some b → blocks !! S i = Some b' →
     pb_offset b' = uint64_t (pb_offset b + pb_width b)) ∧
  (∀ b, last blocks = Some b → uint64_t (pb_offset b + pb_width b) = uint64_t to).
Proof.
  induction blocks as [|b0 blocks IH]; intros from to H.
  - split; [|split]; intros; discriminate.
  - destruct H as [H0 H1]. destruct (IH _ _ H1) as (IH0 & IH1 & IH2).
    split; [|split].
    + intros b [= <-]. exact H0.
    + intros [|i] b b' Hb Hb'.
      * injection Hb as <-. apply IH0. exact Hb'.
      * apply (IH1 i); assumption.
    + intros b Hl. destruct blocks as [|b1 blocks].
      * injection Hl as <-. cbn [chained] in H1. exact H1.
      * apply IH2. exact Hl.
Qed.

Lemma before_index_entry_blocks s w0 w :
  body_inv s w0 w →
  let w' := before_index_entry w in
  let size := data_offset w' - data_offset w0 in
  _partition_header_length w' = _partition_header_length w ∧
  _data w' = _data w ++ [rec_end_of_partition] ∧
  (_promoted_index w' = [] ∨
   chained (_partition_header_length w') (_promoted_index w') size ∨
   chained (_partition_header_length w') (_promoted_index w') (size - 1)).
Proof.
  intros ((S & _ & C & Lc & _) & _). cbn zeta.
  destruct (before_index_entry_data w) as (D & _).
  pose proof (data_offset_snoc _ _ _ D) as O. cbn [encode_record] in O.
  rewrite length_write_int in O. rewrite O.
  split; [|split; [exact D|]]; clear D O; unfold before_index_entry; cbn zeta;
    set (w1 := write_data rec_end_of_partition w);
    change (_promoted_index w1) with (_promoted_index w);
    change (_first_clustering w1) with (_first_clustering w).
  - destruct (_ && _); [|reflexivity].
    unfold add_pi_block. destruct (_first_clustering w1), (_last_clustering w1); reflexivity.
  - destruct (bool_decide_reflect (_promoted_index w = [])) as [Be|Bn]; cbn [negb andb].
    { left. exact Be. }
    right. destruct (_first_clustering w) as [f|] eqn:F.
    + rewrite bool_decide_eq_true_2 by (eexists; reflexivity).
      destruct Lc as [Lc|[l Lc]]; [discriminate|]. left.
      unfold add_pi_block.
      change (_first_clustering w1) with (_first_clustering w).
      change (_last_clustering w1) with (_last_clustering w).
      rewrite F, Lc. fields.
      change (_partition_header_length w1) with (_partition_header_length w).
      change (_promoted_index w1) with (_promoted_index w).
      eapply chained_to.
      * eapply chained_snoc; [exact C|]. cbn [pb_offset].
        unfold covered, block_start_after. rewrite F. reflexivity.
      * cbn [pb_offset pb_width]. rewrite uint64_t_add. f_equal.
        change (_block_start_offset w1) with (_block_start_offset w).
        change (_start_offset w1) with (_start_offset w).
        rewrite (data_offset_snoc w w1 rec_end_of_partition eq_refl).
        cbn [encode_record]. rewrite length_write_int, S. lia.
    + rewrite bool_decide_eq_false_2 by (intros [x Hx]; discriminate).
      right. change (_partition_header_length w1) with (_partition_header_length w).
      change (_promoted_index w1) with (_promoted_index w).
      eapply chained_to; [exact C|]. f_equal.
      unfold covered, block_start_after. rewrite F, S. lia.
Qed.



Lemma header_body_unique (hdr : list data_record) : ∀ hdr' body body',
  hdr ++ body = hdr' ++ body' →
  Forall (λ r, is_body_record r = false) hdr →
  Forall (λ r, is_body_record r = false) hdr' →
  Forall (λ r, is_body_record r = true) body →
  Forall (λ r, is_body_record r = true) body' →
  hdr = hdr'.
Proof.
  induction hdr as [|r hdr IH]; intros [|r' hdr'] body body' E Fh Fh' Fb Fb'.
  - reflexivity.
  - cbn [app] in E. subst body. inversion Fb as [|? ? Hb _]; subst.
    inversion Fh' as [|? ? Hh _]; subst. congruence.
  - cbn [app] in E. subst body'. inversion Fb' as [|? ? Hb _]; subst.
    inversion Fh as [|? ? Hh _]; subst. congruence.
  - cbn [app] in E. injection E as <- E.
    inversion Fh; subst. inversion Fh'; subst. f_equal. eapply IH; eassumption.
Qed.

Lemma static_row_records_header s p :
  Forall (λ r, is_body_record r = false) (static_row_records s p).
Proof.
  unfold static_row_records. destruct (p_static_row p); [repeat constructor|].
  destruct (has_static_columns s); repeat constructor.
Qed.

(** X25: the promoted-index blocks collected for a partition
    follow each other: the first starts at the header length, each
    next one where the one before ends (in 64-bit arithmetic), and the
    last ends at the end of the partition or one byte before it, at
    the end-of-partition byte. *)
Theorem promoted_index_blocks_chained (s : schema) (p : partition) (w w' : writer_m) :
  write_partition s p w = Ok w' →
  let blocks := _promoted_index w' in
  let size := data_offset w' - data_offset w in
  (∀ b, blocks !! 0%nat = Some b → pb_offset b = _partition_header_length w') ∧
  (∀ i b b', blocks !! i = Some b → blocks !! S i = Some b' →
     pb_offset b' = uint64_t (pb_offset b + pb_width b)) ∧
  (∀ b, last blocks = Some b →
     uint64_t (pb_offset b + pb_width b) = uint64_t size ∨
     uint64_t (pb_offset b + pb_width b) = uint64_t (size - 1)).
Proof.
  intros H. cbn zeta.
  destruct (write_partition_body_inv _ _ _ _ H) as (w4 & ib & B & ->).
  destruct (before_index_entry_blocks s w w4 B) as (L & _ & Hc).
  pose proof B as ((_ & _ & _ & _ & hdr & _ & _ & _ & _ & Lh) & _).
  change (_promoted_index (write_index ib (before_index_entry w4)))
    with (_promoted_index (before_index_entry w4)).
  change (_partition_header_length (write_index ib (before_index_entry w4)))
    with (_partition_header_length (before_index_entry w4)).
  change (data_offset (write_index ib (before_index_entry w4)))
    with (data_offset (before_index_entry w4)).
  assert (Hl : uint64_t (_partition_header_length (before_index_entry w4))
               = _partition_header_length (before_index_entry w4))
    by (rewrite L, Lh; apply uint64_t_idem).
  destruct Hc as [Hn|[Hc|Hc]].
  - rewrite Hn. repeat split; intros; discriminate.
  - destruct (chained_lookup _ _ _ Hc) as (H0 & H1 & H2).
    split; [|split].
    + intros b Hb. rewrite (H0 b Hb). exact Hl.
    + exact H1.
    + intros b Hb. left. apply H2, Hb.
  - destruct (chained_lookup _ _ _ Hc) as (H0 & H1 & H2).
    split; [|split].
    + intros b Hb. rewrite (H0 b Hb). exact Hl.
    + exact H1.
    + intros b Hb. right. apply H2, Hb.
Qed.

(** X26: after a partition the header length, which goes into the
    promoted index, is the number of bytes of the partition key, the
    deletion time and the static row if the partition got one, as a
    64-bit number. *)
Theorem partition_header_length_counts_header (s : schema) (p : partition)
    (w w' : writer_m) :
  write_partition s p w = Ok w' →
  _partition_header_length w'
  = uint64_t (Z.of_nat (length (data_bytes
      (rec_partition_key (p_key p)
       :: rec_deletion_time (to_deletion_time (partition_tombstone p))
       :: static_row_records s p)))).
Proof.
  intros H.
  destruct (write_partition_data _ _ _ _ H) as (body' & D' & Fb').
  destruct (write_partition_body_inv _ _ _ _ H) as (w4 & ib & B & ->).
  destruct (before_index_entry_blocks s w w4 B) as (L & D5 & _).
  destruct B as ((_ & _ & _ & _ & hdr & body & D & Fh & Fb & Lh) & _).
  change (_partition_header_length (write_index ib (before_index_entry w4)))
    with (_partition_header_length (before_index_entry w4)).
  change (_data (write_index ib (before_index_entry w4)))
    with (_data (before_index_entry w4)) in D'.
  rewrite L, Lh. do 4 f_equal.
  rewrite D5, D, <- !app_assoc in D'. apply app_inv_head in D'.
  eapply (header_body_unique hdr
            (rec_partition_key (p_key p)
             :: rec_deletion_time (to_deletion_time (partition_tombstone p))
             :: static_row_records s p)
            (body ++ [rec_end_of_partition]) body' D').
  - exact Fh.
  - repeat constructor. apply static_row_records_header.
  - apply Forall_app. split; [exact Fb|repeat constructor].
  - exact Fb'.
Qed.

End WriterMore.

(** ** The index file of the ka and la formats *)

Lemma length_write_deletion_time d : length (write_deletion_time d) = 12%nat.
Proof. unfold write_deletion_time. rewrite length_app, !length_write_int. reflexivity. Qed.

(** X27: the 32-bit size that [write_index_promoted] puts in
    front counts the bytes that follow it: none for an empty promoted
    index, else the deletion time, the number of blocks and the
    promoted index, provided these fit 32 bits. *)
Theorem write_index_promoted_size (v : sstable_version_types) (promoted_index : bytes)
    (deltime : deletion_time) (numblocks : Z) (before after : bytes) :
  Z.of_nat (length promoted_index) + 16 < 2 ^ 32 →
  let out := write_index_promoted v promoted_index deltime numblocks in
  let data := before ++ out ++ after in
  parse_uint 4 (mk_reader data (length before))
  = Ok (Z.of_nat (length out) - 4, mk_reader data (length before + 4)) ∧
  length out = match promoted_index with
               | [] => 4%nat
               | _ => (20 + length promoted_index)%nat
               end.
Proof.
  intros Hlen. cbn zeta. unfold write_index_promoted.
  assert (Hs : uint32_t (Z.of_nat (length promoted_index)) = Z.of_nat (length promoted_index))
    by (unfold uint32_t, wrap; apply Z.mod_small; lia).
  rewrite Hs.
  destruct (Z.eqb_spec (Z.of_nat (length promoted_index)) 0) as [H0|H0]; cbn [negb].
  - split.
    + rewrite length_write_int. apply parse_uint_at; [|lia].
      rewrite H0. apply at_pos_middle.
    + destruct promoted_index; [apply length_write_int|discriminate].
  - assert (Hs' : uint32_t (Z.of_nat (length promoted_index) + 16)
                  = Z.of_nat (length promoted_index) + 16)
      by (unfold uint32_t, wrap; apply Z.mod_small; lia).
    rewrite Hs'. split.
    + rewrite !length_app, !length_write_int, length_write_deletion_time.
      replace (Z.of_nat (4 + (12 + (4 + length promoted_index))) - 4)
        with (Z.of_nat (length promoted_index) + 16) by lia.
      apply parse_uint_at; [|change (Z.of_nat 4 * 8) with 32; lia].
      rewrite <- app_assoc. apply at_pos_middle.
    + rewrite !length_app, !length_write_int, length_write_deletion_time.
      destruct promoted_index; [contradiction|reflexivity].
Qed.

(** ** The further properties on sample inputs *)

Lemma parse_int_write_int_witness :
  parse_int 2 (mk_reader ([Byte.x01] ++ write_int 2 (-2) ++ []) 1)
  = Ok (-2, mk_reader ([Byte.x01] ++ write_int 2 (-2) ++ []) 3).
Proof.
  apply (parse_int_write_int 2 (-2) [Byte.x01] []);
    [lia|split; [vm_compute; discriminate|reflexivity]].
Defined.

Lemma parse_short_read_witness :
  parse_uint 4 (mk_reader [Byte.x01; Byte.x02; Byte.x03] 1)
  = Throw (bufsize_mismatch_exception 2 4).
Proof. apply (parse_short_read 4 [Byte.x01; Byte.x02; Byte.x03] 1). cbn. lia. Defined.

Lemma write_disk_string_overflow_witness :
  write_disk_string 1 SampleCodecs.long_string
  = Throw (overflow_error "assigning U to T caused an overflow").
Proof.
  apply (write_disk_string_overflow 1 SampleCodecs.long_string).
  vm_compute. discriminate.
Defined.

Lemma disk_string_roundtrip_witness :
  ∃ out, write_disk_string 2 [Byte.x61; Byte.x62] = Ok out ∧
         length out = 4%nat ∧
         parse_disk_string 2 (mk_reader ([Byte.xff] ++ out ++ [Byte.xee]) 1)
         = Ok ([Byte.x61; Byte.x62], mk_reader ([Byte.xff] ++ out ++ [Byte.xee]) (1 + length out)).
Proof.
  apply (disk_string_roundtrip 2 [Byte.x61; Byte.x62] [Byte.xff] [Byte.xee]).
  cbn. lia.
Defined.

Lemma deletion_time_roundtrip_witness :
  parse_deletion_time mc (mk_reader ([] ++ write_deletion_time live_deletion_time ++ []) 0)
  = Ok (live_deletion_time,
        mk_reader ([] ++ write_deletion_time live_deletion_time ++ []) 12).
Proof.
  apply (deletion_time_roundtrip mc live_deletion_time [] []);
    (split; [vm_compute; discriminate|reflexivity]).
Defined.

Lemma disk_array_integral_roundtrip_witness :
  write_disk_array_integral 3 4 4 [1; 2]
  = Ok (Some (write_int 4 2 ++ write_int 4 1 ++ write_int 4 2)) ∧
  parse_disk_array_integral 3 4 4
    (mk_reader ([] ++ (write_int 4 2 ++ concat (map (write_int 4) [1; 2])) ++ []) 0)
  = Ok (Some [1; 2],
        mk_reader ([] ++ (write_int 4 2 ++ concat (map (write_int 4) [1; 2])) ++ [])
          (0 + length (write_int 4 2 ++ concat (map (write_int 4) [1; 2])))).
Proof.
  apply (disk_array_integral_roundtrip 3 4 4 [1; 2] [] []).
  - lia.
  - lia.
  - repeat constructor; cbn; lia.
  - cbn. lia.
  - cbn. lia.
Defined.

Lemma estimated_histogram_roundtrip_witness :
  ∃ out, write_estimated_histogram mc SampleCodecs.histogram = Ok (Some out) ∧
         length out = 52%nat ∧
         parse_estimated_histogram mc (mk_reader ([] ++ out ++ []) 0)
         = Ok (SampleCodecs.histogram, mk_reader ([] ++ out ++ []) (0 + length out)).
Proof.
  apply (estimated_histogram_roundtrip mc SampleCodecs.histogram [] []).
  - discriminate.
  - reflexivity.
  - repeat constructor; cbn; lia.
  - repeat constructor; cbn; lia.
  - cbn. lia.
Defined.

Lemma sample_members_written :
  Forall (member_written SampleCodecs.writer_members SampleCodecs.reader_members mc)
    SampleCodecs.elements.
Proof.
  assert (H : ∀ tag value, 0 ≤ tag < 2 ^ 32 → 0 ≤ value < 2 ^ 32 →
              SampleCodecs.writer_members tag = Some SampleCodecs.uint32_member →
              member_written SampleCodecs.writer_members SampleCodecs.reader_members mc
                (tag, value)).
  { intros tag value Ht Hv Hw. split; [exact Ht|].
    exists SampleCodecs.uint32_member, (write_int 4 value). cbn [fst snd].
    split; [exact Hw|]. split; [reflexivity|].
    split; [rewrite length_write_int; reflexivity|].
    split; [rewrite length_write_int; lia|].
    intros rd Hrd data p Hat. unfold SampleCodecs.reader_members in Hrd.
    destruct (tag =? 1); [|discriminate]. injection Hrd as <-.
    rewrite length_write_int. apply parse_uint_at; [exact Hat|exact Hv]. }
  repeat constructor; apply H; try lia; reflexivity.
Qed.

Lemma tagged_union_forward_compatible_witness :
  ∃ out, write_disk_set_of_tagged_union SampleCodecs.writer_members mc
           SampleCodecs.elements = Ok out ∧
         parse_disk_set_of_tagged_union SampleCodecs.reader_members mc ∅
           (mk_reader ([] ++ out ++ []) 0)
         = Ok (list_to_map (filter (known SampleCodecs.reader_members)
                              SampleCodecs.elements),
               mk_reader ([] ++ out ++ []) (0 + length out)).
Proof.
  apply (tagged_union_forward_compatible SampleCodecs.writer_members
           SampleCodecs.reader_members mc SampleCodecs.elements [] []).
  - exact sample_members_written.
  - cbn. lia.
Defined.

Lemma sample_names_distinct : distinct_line_names SampleToc.component_map.
Proof.
  split.
  - apply (bool_decide_unpack _). vm_compute. exact I.
  - repeat constructor; discriminate.
Qed.

Lemma toc_roundtrip_witness :
  SampleToc.content
  = ("Data.db" ++ String newline ("Index.db" ++ String newline
       ("TOC.txt" ++ String newline EmptyString)))%string ∧
  read_toc SampleToc.component_map (Some SampleToc.content) (mk_toc_components ∅ [])
  = Ok (mk_toc_components (list_to_set SampleToc.recognized) []).
Proof.
  split; [reflexivity|].
  apply (toc_roundtrip SampleToc.component_map sample_names_distinct
           SampleToc.recognized SampleToc.content).
  - discriminate.
  - reflexivity.
  - vm_compute. lia.
Defined.

Lemma uint_member_roundtrip (n : nat) (z : Z) :
  0 ≤ z < 2 ^ (Z.of_nat n * 8) →
  member_roundtrip (Ok (write_int n z)) (Z.of_nat n) (parse_uint n) z.
Proof.
  intros Hz. exists (write_int n z). split; [reflexivity|].
  split; [rewrite length_write_int; reflexivity|].
  intros data p Hat. eexists. split; [apply parse_uint_at; [exact Hat|exact Hz]|].
  reflexivity.
Qed.

Lemma statistics_roundtrip_witness :
  ∃ out,
    write_statistics SampleStatisticsWrite.write_c SampleStatisticsWrite.write_s
      SampleStatisticsWrite.write_h mc
      (seal_statistics SampleStatisticsWrite.size_v SampleStatisticsWrite.size_c
         SampleStatisticsWrite.size_s SampleStatisticsWrite.size_h mc
         (mk_statistics [] ∅) SampleStatisticsWrite.partitioner_name double_one 5 6 7)
    = Ok out ∧
    run_parser
      (parse_statistics SampleStatisticsWrite.parse_c SampleStatisticsWrite.parse_s
         SampleStatisticsWrite.parse_h mc) out
    = Ok (seal_statistics SampleStatisticsWrite.size_v SampleStatisticsWrite.size_c
            SampleStatisticsWrite.size_s SampleStatisticsWrite.size_h mc
            (mk_statistics [] ∅) SampleStatisticsWrite.partitioner_name double_one 5 6 7).
Proof.
  apply (statistics_roundtrip SampleStatisticsWrite.parse_c SampleStatisticsWrite.parse_s
           SampleStatisticsWrite.parse_h SampleStatisticsWrite.write_c
           SampleStatisticsWrite.write_s SampleStatisticsWrite.write_h
           SampleStatisticsWrite.size_v SampleStatisticsWrite.size_c
           SampleStatisticsWrite.size_s SampleStatisticsWrite.size_h
           mc SampleStatisticsWrite.partitioner_name double_one 5 6 7).
  - vm_compute. reflexivity.
  - split; [vm_compute; discriminate|reflexivity].
  - reflexivity.
  - apply (uint_member_roundtrip 4 5). split; [vm_compute; discriminate|reflexivity].
  - apply (uint_member_roundtrip 8 6). split; [vm_compute; discriminate|reflexivity].
  - intros _. apply (uint_member_roundtrip 2 7).
    split; [vm_compute; discriminate|reflexivity].
  - vm_compute. reflexivity.
Defined.

Lemma statistics_unknown_type_not_rewritable_witness :
  ∃ s r',
    parse_statistics SampleStatisticsWrite.parse_c SampleStatisticsWrite.parse_s
      SampleStatisticsWrite.parse_h mc (mk_reader SampleStatisticsWrite.unknown_type 0)
    = Ok (s, r') ∧
    offsets s = [(7, 12)] ∧ contents s !! 7 = None ∧
    ∀ out, write_statistics SampleStatisticsWrite.write_c SampleStatisticsWrite.write_s
             SampleStatisticsWrite.write_h mc s ≠ Ok out.
Proof.
  eexists (mk_statistics [(7, 12)] ∅), _.
  assert (Hp : parse_statistics SampleStatisticsWrite.parse_c SampleStatisticsWrite.parse_s
                 SampleStatisticsWrite.parse_h mc
                 (mk_reader SampleStatisticsWrite.unknown_type 0)
               = Ok (mk_statistics [(7, 12)] ∅,
                     mk_reader SampleStatisticsWrite.unknown_type 12))
    by reflexivity.
  split; [exact Hp|]. split; [reflexivity|].
  apply (statistics_unknown_type_not_rewritable SampleStatisticsWrite.parse_c
           SampleStatisticsWrite.parse_s SampleStatisticsWrite.parse_h
           SampleStatisticsWrite.write_c SampleStatisticsWrite.write_s
           SampleStatisticsWrite.write_h mc _ _ _ 7 12 Hp).
  - left.
  - unfold known_metadata_type, Validation, Compaction, Stats, Serialization. lia.
Defined.


(** With a CompressionInfo component the writer samples on the length
    of the compressed file, the index entries hold the offsets of the
    data writer, and the two summaries part: the writer leaves the
    second partition out, [generate_summary] takes it in. *)
Example generate_summary_differs_under_compression :
  generate_summary Sample.get_token Sample.get_size_at_full_sampling 128 summary_default
    SampleGenerate.index_size 128 2000
    (map written_index_entry [SampleGenerate.wp1; SampleGenerate.wp2; SampleGenerate.wp3])
  ≠ match sealed_summary Sample.get_size_at_full_sampling SampleRun.prepared 2000
            (map (partition_start_of true)
               [SampleGenerate.wp1; SampleGenerate.wp2; SampleGenerate.wp3]) with
    | Some s' => Some (Ok s')
    | None => None
    end.
Proof. vm_compute. discriminate. Qed.

Lemma prepare_summary_threshold_witness :
  prepare_summary 128 summary_default (2 ^ 40) 128
  = Some (Throw (malformed_sstable_exception
                   "Current sampling level not enough to generate summary.")).
Proof.
  apply (prepare_summary_threshold 128 summary_default (2 ^ 40) 128); lia.
Defined.

Lemma two_entries_sealed_wf : summary_wf Sample.get_token Sample.two_entries_sealed.
Proof.
  constructor; cbn; try (split; [discriminate|reflexivity]);
    try reflexivity; repeat constructor; discriminate.
Qed.

Lemma write_summary_layout_witness :
  ∃ out, write_summary mc Sample.two_entries_sealed = Ok out ∧
         length out = 62%nat ∧
         at_pos out 32 (write_summary_entry mc
                          (mk_summary_entry (Sample.get_token Sample.key_a) Sample.key_a 0)) ∧
         at_pos out 51 (write_int 4 1 ++ Sample.key_a).
Proof.
  destruct (write_summary_layout Sample.get_token mc Sample.two_entries_sealed
              two_entries_sealed_wf) as (out & Hw & Hlen & Hent & Hfk & _).
  exists out. split; [exact Hw|]. split; [|split].
  - apply Nat2Z.inj. rewrite Hlen. reflexivity.
  - destruct (Hent 0%nat _ eq_refl) as (pos & Hpos & Hat).
    injection Hpos as <-. exact Hat.
  - exact Hfk.
Defined.

Lemma write_index_promoted_size_witness :
  parse_uint 4
    (mk_reader ([] ++ write_index_promoted mc [Byte.x01; Byte.x02] live_deletion_time 1
                   ++ []) 0)
  = Ok (18, mk_reader ([] ++ write_index_promoted mc [Byte.x01; Byte.x02]
                                live_deletion_time 1 ++ []) 4).
Proof.
  apply (write_index_promoted_size mc [Byte.x01; Byte.x02] live_deletion_time 1 [] []).
  vm_compute. reflexivity.
Defined.

Section WriterWitnesses.

#[local] Existing Instance SampleWriter.env.

Lemma end_of_partition_closes_range_tombstones_witness :
  _end_open_marker SampleWriter.open_upto_2 = Some (get_rt_end SampleWriter.rt_upto_2) ∧
  ∃ w', consume_end_of_partition SampleWriter.compound_with_static []
          SampleWriter.open_upto_2 = Ok w' ∧
        _end_open_marker w' = None.
Proof.
  split; [reflexivity|].
  destruct (consume_end_of_partition_ok SampleWriter.compound_with_static []
              SampleWriter.open_upto_2 eq_refl) as [w' Hw'].
  exists w'. split; [exact Hw'|].
  exact (end_of_partition_closes_range_tombstones SampleWriter.compound_with_static []
           SampleWriter.open_upto_2 w' Hw').
Defined.

Lemma write_partition_index_entry_witness :
  ∃ w', write_partition SampleWriter.compound_with_static SampleWriter.partition_5
          SampleWriter.fresh = Ok w' ∧
        length (_promoted_index w') = 0%nat ∧
        _index w' = (write_int 2 1 ++ [Byte.x35]) ++ write_int 8 0 ++ write_int 8 0 ∧
        at_pos (data_bytes (_data w')) 0 (write_int 2 1 ++ [Byte.x35]).
Proof.
  destruct (write_partition_ok SampleWriter.compound_with_static SampleWriter.partition_5
              SampleWriter.fresh eq_refl eq_refl) as [w' Hw'].
  assert (Hn : SampleWriter.collected_blocks
                 (write_partition SampleWriter.compound_with_static
                    SampleWriter.partition_5 SampleWriter.fresh) = 0%nat) by reflexivity.
  rewrite Hw' in Hn. change (length (_promoted_index w') = 0%nat) in Hn.
  destruct (write_partition_index_entry SampleWriter.compound_with_static
              SampleWriter.partition_5 SampleWriter.fresh w' Hw') as [Hidx Hat].
  cbn zeta in Hidx. rewrite Hn in Hidx.
  exists w'. split; [exact Hw'|]. split; [exact Hn|]. split; [exact Hidx|exact Hat].
Defined.

Lemma write_partition_outcome_witness :
  write_partition SampleWriterMore.not_compound SampleWriter.partition_5 SampleWriter.fresh
  = Throw assertion_failed ∧
  ∃ w', write_partition SampleWriter.compound_with_static SampleWriter.partition_5
          SampleWriter.fresh = Ok w'.
Proof.
  split.
  - apply (write_partition_outcome SampleWriterMore.not_compound SampleWriter.partition_5
             SampleWriter.fresh); [reflexivity|reflexivity|right; reflexivity].
  - apply (write_partition_outcome SampleWriter.compound_with_static
             SampleWriter.partition_5 SampleWriter.fresh); [reflexivity|left; reflexivity].
Defined.

Lemma drain_tombstone_turn_witness :
  _data (drain_tombstone SampleWriter.open_upto_2 SampleWriterMore.rt_from_5)
  = [rec_rt_marker (get_rt_end SampleWriter.rt_upto_2) 0;
     rec_rt_marker (get_rt_start SampleWriterMore.rt_from_5) 33] ∧
  _end_open_marker (drain_tombstone SampleWriter.open_upto_2 SampleWriterMore.rt_from_5)
  = Some (get_rt_end SampleWriterMore.rt_from_5).
Proof.
  destruct (drain_tombstone_turn SampleWriter.open_upto_2 SampleWriterMore.rt_from_5)
    as (_ & _ & Hgap & Hopen).
  split; [|exact Hopen].
  exact (Hgap (get_rt_end SampleWriter.rt_upto_2) eq_refl eq_refl eq_refl).
Defined.

Lemma range_tombstone_markers_balanced_witness :
  ∃ w' recs,
    write_partition SampleWriter.compound_with_static SampleWriter.partition_5
      SampleWriter.fresh = Ok w' ∧
    _data w' = _data SampleWriter.fresh ++ recs ∧
    markers_run None recs = Some None.
Proof.
  destruct (write_partition_ok SampleWriter.compound_with_static SampleWriter.partition_5
              SampleWriter.fresh eq_refl eq_refl) as [w' Hw'].
  destruct (range_tombstone_markers_balanced SampleWriter.compound_with_static
              SampleWriter.partition_5 SampleWriter.fresh w' Hw' eq_refl)
    as (recs & Hd & Hm).
  { repeat constructor. }
  exists w', recs. split; [exact Hw'|]. split; [exact Hd|exact Hm].
Defined.

Lemma promoted_index_blocks_chained_witness :
  ∃ w',
    write_partition SampleWriter.compound_with_static SampleWriterMore.partition_rows
      SampleWriter.small_blocks = Ok w' ∧
    length (_promoted_index w') = 3%nat ∧
    (∀ b, _promoted_index w' !! 0%nat = Some b →
          pb_offset b = _partition_header_length w') ∧
    (∀ i b b', _promoted_index w' !! i = Some b → _promoted_index w' !! S i = Some b' →
               pb_offset b' = uint64_t (pb_offset b + pb_width b)).
Proof.
  destruct (write_partition_ok SampleWriter.compound_with_static
              SampleWriterMore.partition_rows SampleWriter.small_blocks eq_refl eq_refl)
    as [w' Hw'].
  destruct (promoted_index_blocks_chained SampleWriter.compound_with_static
              SampleWriterMore.partition_rows SampleWriter.small_blocks w' Hw')
    as (H0 & H1 & _).
  assert (Hn : SampleWriter.collected_blocks
                 (write_partition SampleWriter.compound_with_static
                    SampleWriterMore.partition_rows SampleWriter.small_blocks) = 3%nat)
    by reflexivity.
  rewrite Hw' in Hn.
  exists w'. split; [exact Hw'|]. split; [exact Hn|]. split; [exact H0|exact H1].
Defined.

Lemma partition_header_length_counts_header_witness :
  ∃ w',
    write_partition SampleWriter.compound_with_static SampleWriterMore.partition_rows
      SampleWriter.small_blocks = Ok w' ∧
    _partition_header_length w' = 18.
Proof.
  destruct (write_partition_ok SampleWriter.compound_with_static
              SampleWriterMore.partition_rows SampleWriter.small_blocks eq_refl eq_refl)
    as [w' Hw'].
  exists w'. split; [exact Hw'|].
  rewrite (partition_header_length_counts_header SampleWriter.compound_with_static
             SampleWriterMore.partition_rows SampleWriter.small_blocks w' Hw').
  reflexivity.
Defined.

End WriterWitnesses.

